(** * chatter: a shallow embedding of the chat-session core

    The development follows the TypeScript sources:
    - [Js]               the fragment of JavaScript the sources rely on
                         (values, [String()], property lookup, insertion
                         ordered [Map]/[Set], [Array.prototype.sort]);
    - [Normalizer]       [DefaultNormalizer.normalize];
    - [Transport]        [WebSocketTransport];
    - [MessageStore]     [InMemoryMessageStore];
    - [StreamingState]   [DefaultStreamingStateMachine];
    - [Timeline]         [DefaultTimelineBuilder] and its helpers.

    Numbers are idealised as integers ([Z]); callbacks are identified by a
    natural number and every call made to one is recorded in a trace. *)

From Stdlib Require Import ZArith List String Ascii Bool Lia.
From Stdlib Require Import DecimalString Sorted Permutation.
Import ListNotations.

Set Warnings "-register-all".

Local Open Scope string_scope.
Local Open Scope Z_scope.
Local Open Scope list_scope.

(* ================================================================== *)
(** * The JavaScript fragment                                          *)
(* ================================================================== *)

Module Js.

(** Exceptions the modelled code can raise. *)
Inductive exn : Type :=
| TypeError
| Error (message : string).

(** Outcome of a computation that may throw. *)
Inductive result (A : Type) : Type :=
| Ok (a : A)
| Throw (e : exn).

Arguments Ok {A} a.
Arguments Throw {A} e.

Definition bind {A B : Type} (r : result A) (k : A -> result B) : result B :=
  match r with
  | Ok a => k a
  | Throw e => Throw e
  end.

Notation "x <- r ;; k" := (bind r (fun x => k))
  (at level 61, r at next level, right associativity).

Definition is_ok {A : Type} (r : result A) : bool :=
  match r with Ok _ => true | Throw _ => false end.

(** Plain data values: what [JSON.parse] and object literals without
    methods produce.  An object is the list of its own properties in
    creation order, with distinct keys.  Inherited members of
    [Object.prototype] and [Array.prototype] are outside the model:
    property names are taken to name data properties. *)
Inductive value : Type :=
| VUndefined
| VNull
| VBool (b : bool)
| VNum (n : Z)
| VStr (s : string)
| VArr (elems : list value)
| VObj (props : list (string * value)).

Inductive type_tag : Type :=
| TUndefined | TObject | TBoolean | TNumber | TString.

(** [typeof v]; note [typeof null === 'object']. *)
Definition typeof (v : value) : type_tag :=
  match v with
  | VUndefined => TUndefined
  | VNull => TObject
  | VBool _ => TBoolean
  | VNum _ => TNumber
  | VStr _ => TString
  | VArr _ => TObject
  | VObj _ => TObject
  end.

Definition is_object_tag (t : type_tag) : bool :=
  match t with TObject => true | _ => false end.

(** Truthiness, as used by [!v], [a || b] and [if (v)]. *)
Definition truthy (v : value) : bool :=
  match v with
  | VUndefined | VNull => false
  | VBool b => b
  | VNum n => negb (n =? 0)
  | VStr s => negb (s =? "")%string
  | VArr _ | VObj _ => true
  end.

(** [v == null]: true for [null] and [undefined] only. *)
Definition nullish (v : value) : bool :=
  match v with
  | VUndefined | VNull => true
  | _ => false
  end.

(** [a || b] and [a ?? b] on values. *)
Definition or_else (a b : value) : value := if truthy a then a else b.
Definition coalesce (a b : value) : value := if nullish a then b else a.

(** Own-property lookup in a property list. *)
Fixpoint lookup (key : string) (props : list (string * value)) : option value :=
  match props with
  | [] => None
  | (k, v) :: rest => if (k =? key)%string then Some v else lookup key rest
  end.

Definition has_own (key : string) (props : list (string * value)) : bool :=
  match lookup key props with Some _ => true | None => false end.

(** Decimal rendering of a number (JavaScript switches to exponent
    notation from [1e21] on, which is beyond the numbers considered). *)
Definition number_to_string (n : Z) : string :=
  NilZero.string_of_int (Z.to_int n).

(** A canonical array index: the decimal numeral of a natural number. *)
Definition array_index (key : string) : option nat :=
  match NilZero.uint_of_string key with
  | Some u =>
      let n := Nat.of_uint u in
      if (NilZero.string_of_uint (Nat.to_uint n) =? key)%string
      then Some n else None
  | None => None
  end.

(** [v[key]] for a non-null value of type object. *)
Definition get_prop (v : value) (key : string) : value :=
  match v with
  | VObj props =>
      match lookup key props with Some x => x | None => VUndefined end
  | VArr elems =>
      if (key =? "length")%string then VNum (Z.of_nat (List.length elems))
      else match array_index key with
           | Some i => nth i elems VUndefined
           | None => VUndefined
           end
  | _ => VUndefined
  end.

(** [String(v)].  For an object the conversion goes through
    [OrdinaryToPrimitive]: an own data property named [toString] shadows
    the inherited method and is not callable, the inherited [valueOf]
    returns the object itself, and a [TypeError] results.  An array is
    joined with commas, [null] and [undefined] elements rendering as the
    empty string. *)
Fixpoint ToString (v : value) : result string :=
  match v with
  | VUndefined => Ok "undefined"
  | VNull => Ok "null"
  | VBool true => Ok "true"
  | VBool false => Ok "false"
  | VNum n => Ok (number_to_string n)
  | VStr s => Ok s
  | VArr elems =>
      (fix join (l : list value) : result string :=
         match l with
         | [] => Ok ""
         | x :: rest =>
             s <- (if nullish x then Ok "" else ToString x) ;;
             match rest with
             | [] => Ok s
             | _ :: _ => r <- join rest ;; Ok (s ++ "," ++ r)%string
             end
         end) elems
  | VObj props =>
      if has_own "toString" props then Throw TypeError
      else Ok "[object Object]"
  end.

(** ** Insertion-ordered [Map] and [Set]

    A JavaScript [Map] iterates in insertion order and [set] on an
    existing key keeps the key's position. *)
Section JsMap.
Context {V : Type}.

Fixpoint map_get (key : string) (m : list (string * V)) : option V :=
  match m with
  | [] => None
  | (k, v) :: rest => if (k =? key)%string then Some v else map_get key rest
  end.

Definition map_has (key : string) (m : list (string * V)) : bool :=
  match map_get key m with Some _ => true | None => false end.

Fixpoint map_set (key : string) (v : V) (m : list (string * V))
  : list (string * V) :=
  match m with
  | [] => [(key, v)]
  | (k, x) :: rest =>
      if (k =? key)%string then (k, v) :: rest
      else (k, x) :: map_set key v rest
  end.

Definition map_delete (key : string) (m : list (string * V))
  : list (string * V) :=
  filter (fun kv => negb (fst kv =? key)%string) m.

Definition map_keys (m : list (string * V)) : list string := map fst m.
Definition map_values (m : list (string * V)) : list V := map snd m.
End JsMap.

(** A [Set] of callbacks; a callback is identified by a number. *)
Definition set_has (x : nat) (s : list nat) : bool := existsb (Nat.eqb x) s.

Definition set_add (x : nat) (s : list nat) : list nat :=
  if set_has x s then s else s ++ [x].

Definition set_delete (x : nat) (s : list nat) : list nat :=
  filter (fun y => negb (Nat.eqb x y)) s.

(** ** [Array.prototype.sort]

    For a comparator that is consistent on the elements of the array
    ([consistent] below) the language fixes the result: the elements in
    comparator order, equal ones in their original order.  That is what
    [sort] computes, by insertion from the right.  For any other
    comparator the language leaves the order to the engine, and [sort]
    is then only one of the orders an engine may produce: what is stated
    about the order of a sorted array is stated for a consistent
    comparator. *)
Section Sort.
Context {A : Type}.

(** A comparator that may throw. *)
Section Throwing.
Variable cmp : A -> A -> result Z.

Fixpoint insert (x : A) (l : list A) : result (list A) :=
  match l with
  | [] => Ok [x]
  | y :: rest =>
      c <- cmp x y ;;
      if c <=? 0 then Ok (x :: y :: rest)
      else r <- insert x rest ;; Ok (y :: r)
  end.

Fixpoint sort (l : list A) : result (list A) :=
  match l with
  | [] => Ok []
  | x :: rest => s <- sort rest ;; insert x s
  end.

(** The comparator puts [x] at or before [y]. *)
Definition in_order (x y : A) : Prop := exists c, cmp x y = Ok c /\ c <= 0.

Definition at_or_before (x y : A) : bool :=
  match cmp x y with
  | Ok c => c <=? 0
  | Throw _ => false
  end.

(** [cmp x y] and [cmp y x] both return, with opposite signs. *)
Definition mirrored (x y : A) : bool :=
  match cmp x y, cmp y x with
  | Ok c, Ok c' => Z.sgn c' =? - Z.sgn c
  | _, _ => false
  end.

(** A consistent comparator, in the sense of the language definition, on
    the elements of [l]: it returns on every pair, swapping the arguments
    swaps the sign, and being at or before is transitive. *)
Definition consistent (l : list A) : bool :=
  forallb (fun x =>
    forallb (fun y =>
      mirrored x y
      && forallb (fun z =>
           implb (at_or_before x y && at_or_before y z) (at_or_before x z))
           l) l) l.
End Throwing.

(** A comparator that cannot throw. *)
Section Total.
Variable cmp : A -> A -> Z.

Fixpoint insert_total (x : A) (l : list A) : list A :=
  match l with
  | [] => [x]
  | y :: rest =>
      if cmp x y <=? 0 then x :: y :: rest
      else y :: insert_total x rest
  end.

Fixpoint sort_total (l : list A) : list A :=
  match l with
  | [] => []
  | x :: rest => insert_total x (sort_total rest)
  end.
End Total.
End Sort.

End Js.

(* ================================================================== *)
(** * The default event normalizer                                     *)
(* ================================================================== *)

Module Normalizer.
Import Js.

Record NormalizedEvent : Type := {
  type : string;
  sessionId : string;
  payload : value;
  sequence : option Z;
  timestamp : string;
  raw : value
}.

(** [DefaultNormalizer.normalize].  [now] stands for
    [new Date().toISOString()]; a [None] result is the source's [null]. *)
Definition normalize (now : string) (rawEvent : value)
  : result (option NormalizedEvent) :=
  if negb (truthy rawEvent) || negb (is_object_tag (typeof rawEvent))
  then Ok None
  else
    let event := rawEvent in
    ty <- ToString (or_else (get_prop event "type") (VStr "message")) ;;
    sid <- ToString (or_else (or_else (get_prop event "sessionId")
                                      (get_prop event "session_id"))
                             (VStr "")) ;;
    ts <- ToString (or_else (or_else (get_prop event "timestamp")
                                     (get_prop event "createdAt"))
                            (VStr now)) ;;
    Ok (Some {|
      type := ty;
      sessionId := sid;
      payload := coalesce (coalesce (get_prop event "payload")
                                    (get_prop event "data")) event;
      sequence := match get_prop event "sequence" with
                  | VNum n => Some n
                  | _ => None
                  end;
      timestamp := ts;
      raw := rawEvent
    |}).

(** The guard of [normalize]: the input is a non-null object (an array
    counts). *)
Definition object_input (rawEvent : value) : bool :=
  truthy rawEvent && is_object_tag (typeof rawEvent).

(** The values [normalize] hands to [String()]. *)
Definition type_source (event : value) : value :=
  or_else (get_prop event "type") (VStr "message").

Definition sessionId_source (event : value) : value :=
  or_else (or_else (get_prop event "sessionId") (get_prop event "session_id"))
          (VStr "").

Definition timestamp_source (now : string) (event : value) : value :=
  or_else (or_else (get_prop event "timestamp") (get_prop event "createdAt"))
          (VStr now).

(** ** Scenarios *)

(** The frame [{"type":{"toString":1}}] after [JSON.parse]. *)
Definition shadowed_toString : value :=
  VObj [("type", VObj [("toString", VNum 1)])].

(** The frame
    [{"session_id":12,"data":[1,null,"x"],"createdAt":"2024-05-01T10:00:00Z"}]. *)
Definition legacy_frame : value :=
  VObj [("session_id", VNum 12);
        ("data", VArr [VNum 1; VNull; VStr "x"]);
        ("createdAt", VStr "2024-05-01T10:00:00Z")].

(** The frame
    [{"type":"","sessionId":0,"session_id":null,"payload":0,
      "sequence":"7","timestamp":false}]. *)
Definition falsy_frame : value :=
  VObj [("type", VStr ""); ("sessionId", VNum 0); ("session_id", VNull);
        ("payload", VNum 0); ("sequence", VStr "7");
        ("timestamp", VBool false)].

End Normalizer.

(* ================================================================== *)
(** * The WebSocket transport                                          *)
(* ================================================================== *)

Module Transport.
Import Js.

Inductive ConnectionStatus : Type :=
| disconnected | connecting | connected | reconnecting | error.

Definition status_eqb (a b : ConnectionStatus) : bool :=
  match a, b with
  | disconnected, disconnected | connecting, connecting
  | connected, connected | reconnecting, reconnecting | error, error => true
  | _, _ => false
  end.

(** [WebSocket.readyState]. *)
Inductive ReadyState : Type := CONNECTING | OPEN | CLOSING | CLOSED.

Definition is_open (r : ReadyState) : bool :=
  match r with OPEN => true | _ => false end.

(** The socket object held in [this.ws]: the URL it was created with, the
    [token] query parameter if one was set, and its ready state, which the
    runtime updates before it fires [onopen] or [onclose]. *)
Record WebSocket : Type := {
  ws_url : string;
  ws_token : option string;
  readyState : ReadyState
}.

(** [WebSocketTransportConfig]; [None] is an omitted field. *)
Record ReconnectOptions : Type := {
  opt_enabled : option bool;
  opt_maxAttempts : option Z;
  opt_baseDelay : option Z;
  opt_maxDelay : option Z
}.

Record WebSocketTransportConfig : Type := {
  cfg_url : string;
  cfg_reconnect : option ReconnectOptions;
  cfg_heartbeatInterval : option Z;
  cfg_authToken : option string
}.

(** The resolved [this.config]. *)
Record Config : Type := {
  url : string;
  heartbeatInterval : Z;
  authToken : option string;
  enabled : bool;
  maxAttempts : Z;
  baseDelay : Z;
  maxDelay : Z
}.

(** What the transport does to the outside world, in order. *)
Inductive Effect : Type :=
| StatusNotified (listener : nat) (status : ConnectionStatus)
| WsCreated (ws : WebSocket)
| WsSend (data : value)
| WsClose (code : Z) (reason : string)
| TimeoutSet (delay : Z)
| TimeoutCleared
| IntervalSet (period : Z)
| IntervalCleared
| Resolved
| Rejected.

(** The fields of a [WebSocketTransport] instance, with the trace of its
    effects.  A timer field holds the delay the timer was armed with. *)
Record WebSocketTransport : Type := {
  ws : option WebSocket;
  status : ConnectionStatus;
  statusListeners : list nat;
  sessionSubscribers : list (string * list nat);
  allSubscribers : list nat;
  reconnectAttempts : nat;
  reconnectTimer : option Z;
  heartbeatTimer : option Z;
  config : Config;
  trace : list Effect
}.

Definition with_ws (w : option WebSocket) (t : WebSocketTransport) :=
  {| ws := w; status := status t; statusListeners := statusListeners t;
     sessionSubscribers := sessionSubscribers t;
     allSubscribers := allSubscribers t;
     reconnectAttempts := reconnectAttempts t;
     reconnectTimer := reconnectTimer t; heartbeatTimer := heartbeatTimer t;
     config := config t; trace := trace t |}.

Definition with_status (s : ConnectionStatus) (t : WebSocketTransport) :=
  {| ws := ws t; status := s; statusListeners := statusListeners t;
     sessionSubscribers := sessionSubscribers t;
     allSubscribers := allSubscribers t;
     reconnectAttempts := reconnectAttempts t;
     reconnectTimer := reconnectTimer t; heartbeatTimer := heartbeatTimer t;
     config := config t; trace := trace t |}.

Definition with_statusListeners (l : list nat) (t : WebSocketTransport) :=
  {| ws := ws t; status := status t; statusListeners := l;
     sessionSubscribers := sessionSubscribers t;
     allSubscribers := allSubscribers t;
     reconnectAttempts := reconnectAttempts t;
     reconnectTimer := reconnectTimer t; heartbeatTimer := heartbeatTimer t;
     config := config t; trace := trace t |}.

Definition with_sessionSubscribers (m : list (string * list nat))
  (t : WebSocketTransport) :=
  {| ws := ws t; status := status t; statusListeners := statusListeners t;
     sessionSubscribers := m;
     allSubscribers := allSubscribers t;
     reconnectAttempts := reconnectAttempts t;
     reconnectTimer := reconnectTimer t; heartbeatTimer := heartbeatTimer t;
     config := config t; trace := trace t |}.

Definition with_allSubscribers (l : list nat) (t : WebSocketTransport) :=
  {| ws := ws t; status := status t; statusListeners := statusListeners t;
     sessionSubscribers := sessionSubscribers t;
     allSubscribers := l;
     reconnectAttempts := reconnectAttempts t;
     reconnectTimer := reconnectTimer t; heartbeatTimer := heartbeatTimer t;
     config := config t; trace := trace t |}.

Definition with_reconnectAttempts (n : nat) (t : WebSocketTransport) :=
  {| ws := ws t; status := status t; statusListeners := statusListeners t;
     sessionSubscribers := sessionSubscribers t;
     allSubscribers := allSubscribers t;
     reconnectAttempts := n;
     reconnectTimer := reconnectTimer t; heartbeatTimer := heartbeatTimer t;
     config := config t; trace := trace t |}.

Definition with_reconnectTimer (x : option Z) (t : WebSocketTransport) :=
  {| ws := ws t; status := status t; statusListeners := statusListeners t;
     sessionSubscribers := sessionSubscribers t;
     allSubscribers := allSubscribers t;
     reconnectAttempts := reconnectAttempts t;
     reconnectTimer := x; heartbeatTimer := heartbeatTimer t;
     config := config t; trace := trace t |}.

Definition with_heartbeatTimer (x : option Z) (t : WebSocketTransport) :=
  {| ws := ws t; status := status t; statusListeners := statusListeners t;
     sessionSubscribers := sessionSubscribers t;
     allSubscribers := allSubscribers t;
     reconnectAttempts := reconnectAttempts t;
     reconnectTimer := reconnectTimer t; heartbeatTimer := x;
     config := config t; trace := trace t |}.

Definition emit (es : list Effect) (t : WebSocketTransport) :=
  {| ws := ws t; status := status t; statusListeners := statusListeners t;
     sessionSubscribers := sessionSubscribers t;
     allSubscribers := allSubscribers t;
     reconnectAttempts := reconnectAttempts t;
     reconnectTimer := reconnectTimer t; heartbeatTimer := heartbeatTimer t;
     config := config t; trace := trace t ++ es |}.

(** [a ?? b] on an optional field. *)
Definition default {A : Type} (o : option A) (d : A) : A :=
  match o with Some a => a | None => d end.

(** [config.reconnect?.f]. *)
Definition reconnect_field {A : Type} (c : WebSocketTransportConfig)
  (f : ReconnectOptions -> option A) : option A :=
  match cfg_reconnect c with Some r => f r | None => None end.

(** The constructor together with the field initialisers. *)
Definition constructor (c : WebSocketTransportConfig) : WebSocketTransport :=
  {| ws := None;
     status := disconnected;
     statusListeners := [];
     sessionSubscribers := [];
     allSubscribers := [];
     reconnectAttempts := 0;
     reconnectTimer := None;
     heartbeatTimer := None;
     config := {|
       url := cfg_url c;
       heartbeatInterval := default (cfg_heartbeatInterval c) 30000;
       authToken := cfg_authToken c;
       enabled := default (reconnect_field c opt_enabled) true;
       maxAttempts := default (reconnect_field c opt_maxAttempts) 10;
       baseDelay := default (reconnect_field c opt_baseDelay) 1000;
       maxDelay := default (reconnect_field c opt_maxDelay) 30000
     |};
     trace := [] |}.

Definition setStatus (s : ConnectionStatus) (t : WebSocketTransport) :=
  if negb (status_eqb (status t) s)
  then emit (map (fun l => StatusNotified l s) (statusListeners t))
            (with_status s t)
  else t.

(** The guard of [sendRaw]:
    [this.ws && this.ws.readyState === WebSocket.OPEN]. *)
Definition socket_open (t : WebSocketTransport) : bool :=
  match ws t with
  | Some w => is_open (readyState w)
  | None => false
  end.

Definition sendRaw (data : value) (t : WebSocketTransport) :=
  if socket_open t then emit [WsSend data] t else t.

Definition clearReconnectTimer (t : WebSocketTransport) :=
  match reconnectTimer t with
  | Some _ => with_reconnectTimer None (emit [TimeoutCleared] t)
  | None => t
  end.

Definition stopHeartbeat (t : WebSocketTransport) :=
  match heartbeatTimer t with
  | Some _ => with_heartbeatTimer None (emit [IntervalCleared] t)
  | None => t
  end.

Definition startHeartbeat (t : WebSocketTransport) :=
  let t := stopHeartbeat t in
  let period := heartbeatInterval (config t) in
  with_heartbeatTimer (Some period) (emit [IntervalSet period] t).

(** The heartbeat interval callback. *)
Definition heartbeat_tick (t : WebSocketTransport) :=
  if status_eqb (status t) connected
  then sendRaw (VObj [("type", VStr "ping")]) t
  else t.

(** The delay computed by [scheduleReconnect]. *)
Definition reconnect_delay (t : WebSocketTransport) : Z :=
  Z.min (baseDelay (config t) * 2 ^ Z.of_nat (reconnectAttempts t))
        (maxDelay (config t)).

Definition scheduleReconnect (t : WebSocketTransport) :=
  let t := clearReconnectTimer t in
  let delay := reconnect_delay t in
  with_reconnectTimer (Some delay) (emit [TimeoutSet delay] t).

Definition handleDisconnect (t : WebSocketTransport) :=
  if negb (enabled (config t)) then setStatus disconnected t
  else if Z.of_nat (reconnectAttempts t) >=? maxAttempts (config t)
  then setStatus error t
  else scheduleReconnect (setStatus reconnecting t).

(** How [connect] returns: at once, or with a promise that is pending or
    already rejected. *)
Inductive ConnectOutcome : Type := Returned | Pending | Failed.

(** [connect()].  [created] tells whether [new URL(..)] followed by
    [new WebSocket(..)] succeeded; it is [false] if either threw.  A new
    socket starts in the [CONNECTING] state. *)
Definition connect (created : bool) (t : WebSocketTransport)
  : WebSocketTransport * ConnectOutcome :=
  if status_eqb (status t) connected || status_eqb (status t) connecting
  then (t, Returned)
  else
    let t := setStatus connecting t in
    if created then
        let token := match authToken (config t) with
                     | Some tok => if (tok =? "")%string then None else Some tok
                     | None => None
                     end in
        let sock := {| ws_url := url (config t); ws_token := token;
                       readyState := CONNECTING |} in
        (emit [WsCreated sock] (with_ws (Some sock) t), Pending)
    else (emit [Rejected] (setStatus error t), Failed).

(** The runtime moves the socket held in [this.ws] to a new ready state. *)
Definition set_readyState (r : ReadyState) (t : WebSocketTransport) :=
  match ws t with
  | Some w => with_ws (Some {| ws_url := ws_url w; ws_token := ws_token w;
                               readyState := r |}) t
  | None => t
  end.

(** The socket handlers installed by [connect]. *)
Definition ws_onopen (t : WebSocketTransport) :=
  let t := with_reconnectAttempts 0 t in
  let t := setStatus connected t in
  let t := startHeartbeat t in
  emit [Resolved] t.

Definition ws_onclose (wasClean : bool) (t : WebSocketTransport) :=
  let t := stopHeartbeat t in
  if wasClean then setStatus disconnected t else handleDisconnect t.

Definition ws_onerror (t : WebSocketTransport) :=
  let t := if status_eqb (status t) connecting then emit [Rejected] t else t in
  setStatus error t.

(** The reconnect timer callback. *)
Definition reconnect_timer_fired (created : bool)
  (t : WebSocketTransport) :=
  let t := with_reconnectAttempts (S (reconnectAttempts t)) t in
  fst (connect created t).

Definition disconnect (t : WebSocketTransport) :=
  let t := stopHeartbeat t in
  let t := clearReconnectTimer t in
  let t := match ws t with
           | Some _ => with_ws None (emit [WsClose 1000 "Client disconnect"] t)
           | None => t
           end in
  setStatus disconnected t.

Definition onStatusChange (callback : nat) (t : WebSocketTransport) :=
  with_statusListeners (set_add callback (statusListeners t)) t.

Definition subscribe_frame (sessionId : string) : value :=
  VObj [("type", VStr "subscribe"); ("sessionId", VStr sessionId)].

Definition unsubscribe_frame (sessionId : string) : value :=
  VObj [("type", VStr "unsubscribe"); ("sessionId", VStr sessionId)].

(** [subscribe(sessionId, callback)]; the returned closure is
    [unsubscribe sessionId callback]. *)
Definition subscribe (sessionId : string) (callback : nat)
  (t : WebSocketTransport) :=
  let t :=
    if negb (map_has sessionId (sessionSubscribers t))
    then sendRaw (subscribe_frame sessionId)
           (with_sessionSubscribers
              (map_set sessionId [] (sessionSubscribers t)) t)
    else t in
  match map_get sessionId (sessionSubscribers t) with
  | Some subscribers =>
      with_sessionSubscribers
        (map_set sessionId (set_add callback subscribers)
                 (sessionSubscribers t)) t
  | None => t
  end.

Definition unsubscribe (sessionId : string) (callback : nat)
  (t : WebSocketTransport) :=
  match map_get sessionId (sessionSubscribers t) with
  | Some subscribers =>
      let subscribers := set_delete callback subscribers in
      let t := with_sessionSubscribers
                 (map_set sessionId subscribers (sessionSubscribers t)) t in
      if (List.length subscribers =? 0)%nat
      then sendRaw (unsubscribe_frame sessionId)
             (with_sessionSubscribers
                (map_delete sessionId (sessionSubscribers t)) t)
      else t
  | None => t
  end.

(** The frames handed to [ws.send], in order. *)
Definition sent_frames (t : WebSocketTransport) : list value :=
  flat_map (fun e => match e with WsSend d => [d] | _ => [] end) (trace t).

(** The sockets created so far. *)
Definition sockets_created (t : WebSocketTransport) : list WebSocket :=
  flat_map (fun e => match e with WsCreated w => [w] | _ => [] end) (trace t).

(** The delays of the reconnect timers armed so far. *)
Definition timeouts_set (t : WebSocketTransport) : list Z :=
  flat_map (fun e => match e with TimeoutSet d => [d] | _ => [] end) (trace t).

(** ** Scenarios *)

(** A transport configured to give up after one retry. *)
Definition one_retry : WebSocketTransportConfig :=
  {| cfg_url := "ws://chat.example/socket";
     cfg_reconnect := Some {| opt_enabled := None; opt_maxAttempts := Some 1;
                              opt_baseDelay := None; opt_maxDelay := None |};
     cfg_heartbeatInterval := None;
     cfg_authToken := None |}.

(** It connects, loses the connection uncleanly, retries once, and the
    retry fails: the attempts are exhausted. *)
Definition exhausted : WebSocketTransport :=
  let t := fst (connect true (constructor one_retry)) in
  let t := ws_onopen (set_readyState OPEN t) in
  let t := ws_onclose false (set_readyState CLOSED t) in
  let t := reconnect_timer_fired true t in
  let t := ws_onerror t in
  ws_onclose false (set_readyState CLOSED t).

(** A configuration that sets [maxAttempts] and [baseDelay] and leaves
    [enabled] and [maxDelay] to their defaults. *)
Definition tuned : WebSocketTransportConfig :=
  {| cfg_url := "ws://chat.example/socket";
     cfg_reconnect := Some {| opt_enabled := None; opt_maxAttempts := Some 5;
                              opt_baseDelay := Some 500;
                              opt_maxDelay := None |};
     cfg_heartbeatInterval := None;
     cfg_authToken := None |}.

(** A transport with two status listeners whose socket has opened. *)
Definition live : WebSocketTransport :=
  let t := constructor one_retry in
  let t := onStatusChange 2%nat (onStatusChange 1%nat t) in
  let t := fst (connect true t) in
  ws_onopen (set_readyState OPEN t).

(** ** Global subscribers, sending and inbound routing *)

Definition subscribe_all_frame : value :=
  VObj [("type", VStr "subscribe"); ("all", VBool true)].

Definition unsubscribe_all_frame : value :=
  VObj [("type", VStr "unsubscribe"); ("all", VBool true)].

(** [subscribeAll(callback)]; the returned closure is
    [unsubscribeAll callback]. *)
Definition subscribeAll (callback : nat) (t : WebSocketTransport) :=
  let t := with_allSubscribers (set_add callback (allSubscribers t)) t in
  if (List.length (allSubscribers t) =? 1)%nat
  then sendRaw subscribe_all_frame t
  else t.

Definition unsubscribeAll (callback : nat) (t : WebSocketTransport) :=
  let t := with_allSubscribers (set_delete callback (allSubscribers t)) t in
  if (List.length (allSubscribers t) =? 0)%nat
  then sendRaw unsubscribe_all_frame t
  else t.

(** The closure returned by [onStatusChange]. *)
Definition offStatusChange (callback : nat) (t : WebSocketTransport) :=
  with_statusListeners (set_delete callback (statusListeners t)) t.

(** [OutgoingMessage]; an omitted [attachments] or [metadata] is
    [undefined]. *)
Record OutgoingMessage : Type := {
  out_sessionId : string;
  out_type : string;
  out_content : string;
  out_attachments : value;
  out_metadata : value
}.

(** The object [send] hands to [sendRaw]. *)
Definition message_frame (message : OutgoingMessage) : value :=
  VObj [("type", VStr "message");
        ("sessionId", VStr (out_sessionId message));
        ("content", VStr (out_content message));
        ("messageType", VStr (out_type message));
        ("attachments", out_attachments message);
        ("metadata", out_metadata message)].

(** [send(message)]: a [Throw] is the rejected promise. *)
Definition send (message : OutgoingMessage) (t : WebSocketTransport)
  : result WebSocketTransport :=
  if negb (status_eqb (status t) connected)
     || match ws t with Some _ => false | None => true end
  then Throw (Error "Not connected")
  else Ok (sendRaw (message_frame message) t).





(** ** The transport driven from outside

    Calls of the public methods and invocations of the handlers the
    transport installed on its socket and timers. *)
Inductive Action : Type :=
| Connect (created : bool)
| Disconnect
| SocketOpened
| SocketClosed (wasClean : bool)
| SocketFailed
| ReconnectTimerFired (created : bool)
| HeartbeatTick
| Subscribe (sessionId : string) (callback : nat)
| Unsubscribe (sessionId : string) (callback : nat)
| SubscribeAll (callback : nat)
| UnsubscribeAll (callback : nat)
| Send (message : OutgoingMessage)
| OnStatusChange (callback : nat)
| OffStatusChange (callback : nat).

Definition step (t : WebSocketTransport) (a : Action) : WebSocketTransport :=
  match a with
  | Connect created => fst (connect created t)
  | Disconnect => disconnect t
  | SocketOpened => ws_onopen (set_readyState OPEN t)
  | SocketClosed wasClean => ws_onclose wasClean (set_readyState CLOSED t)
  | SocketFailed => ws_onerror t
  | ReconnectTimerFired created => reconnect_timer_fired created t
  | HeartbeatTick => heartbeat_tick t
  | Subscribe sid cb => subscribe sid cb t
  | Unsubscribe sid cb => unsubscribe sid cb t
  | SubscribeAll cb => subscribeAll cb t
  | UnsubscribeAll cb => unsubscribeAll cb t
  | Send message => match send message t with Ok t' => t' | Throw _ => t end
  | OnStatusChange cb => onStatusChange cb t
  | OffStatusChange cb => offStatusChange cb t
  end.

Definition steps (actions : list Action) (t : WebSocketTransport) :=
  fold_left step actions t.

(** The actions of the connection's life cycle, as opposed to those that
    subscribe, send or beat. *)
Definition lifecycle (a : Action) : bool :=
  match a with
  | Connect _ | Disconnect | SocketOpened | SocketClosed _ | SocketFailed
  | ReconnectTimerFired _ | OnStatusChange _ | OffStatusChange _ => true
  | _ => false
  end.

(** The heartbeat intervals armed and not yet cleared. *)
Definition live_intervals (t : WebSocketTransport) : Z :=
  fold_left (fun n e => match e with
                        | IntervalSet _ => n + 1
                        | IntervalCleared => n - 1
                        | _ => n
                        end) (trace t) 0.

(** A retry that fails: the timer fires, the new socket reports an error
    and closes uncleanly. *)
Definition retry_fails (t : WebSocketTransport) : WebSocketTransport :=
  ws_onclose false
    (set_readyState CLOSED (ws_onerror (reconnect_timer_fired true t))).

(** The delay of the retry that follows [attempts] earlier ones. *)
Definition backoff (c : Config) (attempts : nat) : Z :=
  Z.min (baseDelay c * 2 ^ Z.of_nat attempts) (maxDelay c).

(** *** The reconnect timer as the runtime sees it

    A timeout fires at most once and not after [clearTimeout]: [pending]
    tells whether the timer armed last is still to fire. *)
Record Timed : Type := {
  transport : WebSocketTransport;
  pending : bool
}.

(** The effect of newly emitted timer calls on [pending]. *)
Definition pending_after (effects : list Effect) (p : bool) : bool :=
  fold_left (fun p e => match e with
                        | TimeoutSet _ => true
                        | TimeoutCleared => false
                        | _ => p
                        end) effects p.

(** The effects emitted between two states of one transport. *)
Definition emitted (before after : WebSocketTransport) : list Effect :=
  skipn (List.length (trace before)) (trace after).

(** One action on the timed transport: the timer callback runs only while
    the timer is pending, and running it uses the timer up. *)
Definition timed_step (w : Timed) (a : Action) : Timed :=
  match a with
  | ReconnectTimerFired created =>
      if pending w
      then let t' := step (transport w) a in
           {| transport := t';
              pending := pending_after (emitted (transport w) t') false |}
      else w
  | _ =>
      let t' := step (transport w) a in
      {| transport := t';
         pending := pending_after (emitted (transport w) t') (pending w) |}
  end.

Definition timed_steps (actions : list Action) (w : Timed) : Timed :=
  fold_left timed_step actions w.

Definition timed_start (c : WebSocketTransportConfig) : Timed :=
  {| transport := constructor c; pending := false |}.

(** Effects that leave the pending timer alone. *)
Definition timer_quiet (es : list Effect) : Prop :=
  forall p, pending_after es p = p.

(** [t'] is [t] some effects later, none of them on the reconnect timer,
    with the same configuration and the same timer field. *)
Definition quietly (t t' : WebSocketTransport) : Prop :=
  (exists es, trace t' = trace t ++ es /\ timer_quiet es) /\
  config t' = config t /\
  reconnectTimer t' = reconnectTimer t.

(** The invariant of the timed transport: a pending timer is the one in
    the timer field and was armed with attempts left; the attempt counter
    stays within the configured maximum. *)
Definition within_budget (w : Timed) : Prop :=
  (pending w = true ->
   reconnectTimer (transport w) <> None /\
   Z.of_nat (reconnectAttempts (transport w))
   < maxAttempts (config (transport w))) /\
  Z.of_nat (reconnectAttempts (transport w))
  <= Z.max 0 (maxAttempts (config (transport w))).

(** [t'] is [t] some effects later, and those effects turn the pending
    flag [p] into [f p]. *)
Definition timer_effect (t t' : WebSocketTransport) (f : bool -> bool)
  : Prop :=
  exists es, trace t' = trace t ++ es /\ forall p, pending_after es p = f p.

(** *** Scenarios for the laws *)

Definition hello : OutgoingMessage :=
  {| out_sessionId := "s1"; out_type := "text"; out_content := "hello";
     out_attachments := VUndefined; out_metadata := VUndefined |}.

(** The live transport while its socket is closing. *)
Definition closing : WebSocketTransport := set_readyState CLOSING live.

(** A transport that connected, lost the connection and is waiting to
    retry. *)
Definition waiting : WebSocketTransport :=
  steps [Connect true; SocketOpened; SocketClosed false]
        (constructor one_retry).



End Transport.

(* ================================================================== *)
(** * The in-memory message store                                      *)
(* ================================================================== *)

Module MessageStore.
Import Js.

Section Store.
(** The store is generic in the message type, as in the source:
    [TMessage extends BaseMessage] gives every message an [id];
    [Partial] is [Partial<TMessage>] and [spread existing updates] is
    [{ ...existing, ...updates }]. *)
Variable TMessage : Type.
Variable Partial : Type.
Variable id : TMessage -> string.
Variable spread : TMessage -> Partial -> TMessage.

(** The instance: the [Map], the listener [Set], and the calls made to
    listeners so far (listener, snapshot passed). *)
Record InMemoryMessageStore : Type := {
  messages : list (string * TMessage);
  listeners : list nat;
  notified : list (nat * list TMessage)
}.

Definition empty : InMemoryMessageStore :=
  {| messages := []; listeners := []; notified := [] |}.

Definition getMessages (s : InMemoryMessageStore) : list TMessage :=
  map_values (messages s).

Definition getMessage (key : string) (s : InMemoryMessageStore)
  : option TMessage :=
  map_get key (messages s).

Definition with_messages (m : list (string * TMessage))
  (s : InMemoryMessageStore) : InMemoryMessageStore :=
  {| messages := m; listeners := listeners s; notified := notified s |}.

Definition notifyListeners (s : InMemoryMessageStore)
  : InMemoryMessageStore :=
  let snapshot := getMessages s in
  {| messages := messages s;
     listeners := listeners s;
     notified := notified s ++ map (fun l => (l, snapshot)) (listeners s) |}.

Definition addMessage (message : TMessage) (s : InMemoryMessageStore) :=
  notifyListeners
    (with_messages (map_set (id message) message (messages s)) s).

(** The loop of [addMessages]. *)
Definition set_all (msgs : list TMessage) (m : list (string * TMessage))
  : list (string * TMessage) :=
  fold_left (fun acc message => map_set (id message) message acc) msgs m.

Definition addMessages (msgs : list TMessage) (s : InMemoryMessageStore) :=
  notifyListeners (with_messages (set_all msgs (messages s)) s).

Definition updateMessage (key : string) (updates : Partial)
  (s : InMemoryMessageStore) :=
  match map_get key (messages s) with
  | Some existing =>
      notifyListeners
        (with_messages
           (map_set key (spread existing updates) (messages s)) s)
  | None => s
  end.

Definition removeMessage (key : string) (s : InMemoryMessageStore) :=
  if map_has key (messages s)
  then notifyListeners (with_messages (map_delete key (messages s)) s)
  else s.

Definition clear (s : InMemoryMessageStore) :=
  notifyListeners (with_messages [] s).

Definition subscribe (listener : nat) (s : InMemoryMessageStore) :=
  {| messages := messages s;
     listeners := set_add listener (listeners s);
     notified := notified s |}.

Definition unsubscribe (listener : nat) (s : InMemoryMessageStore) :=
  {| messages := messages s;
     listeners := set_delete listener (listeners s);
     notified := notified s |}.

(** A call to one of the mutators. *)
Inductive Mutation : Type :=
| Add (message : TMessage)
| AddMany (msgs : list TMessage)
| Update (key : string) (updates : Partial)
| Remove (key : string)
| Clear.

Definition apply (s : InMemoryMessageStore) (op : Mutation) :=
  match op with
  | Add m => addMessage m s
  | AddMany ms => addMessages ms s
  | Update k u => updateMessage k u s
  | Remove k => removeMessage k s
  | Clear => clear s
  end.

Definition run (ops : list Mutation) (s : InMemoryMessageStore) :=
  fold_left apply ops s.

(** *** Reference notions used to state the store's properties *)

(** The last message of a batch that carries a given id. *)
Fixpoint last_with (key : string) (msgs : list TMessage) : option TMessage :=
  match msgs with
  | [] => None
  | message :: rest =>
      match last_with key rest with
      | Some later => Some later
      | None => if (id message =? key)%string then Some message else None
      end
  end.

(** A list of ids with every repetition after the first one dropped. *)
Fixpoint first_seen (ids : list string) : list string :=
  match ids with
  | [] => []
  | k :: rest => k :: filter (fun k' => negb (k' =? k)%string) (first_seen rest)
  end.

(** The ids handed to the store, in order, since each was last absent:
    an addition appends its id, a removal forgets the id, [clear] forgets
    everything. *)
Definition record (h : list string) (op : Mutation) : list string :=
  match op with
  | Add m => h ++ [id m]
  | AddMany ms => h ++ map id ms
  | Update _ _ => h
  | Remove k => filter (fun k' => negb (k' =? k)%string) h
  | Clear => []
  end.

Definition history (ops : list Mutation) : list string :=
  fold_left record ops [].

(** Every entry of the [Map] sits under its message's id. *)
Definition keyed_by_id (s : InMemoryMessageStore) : Prop :=
  forall k m, In (k, m) (messages s) -> id m = k.
End Store.

Arguments messages {TMessage}.
Arguments listeners {TMessage}.
Arguments notified {TMessage}.
Arguments getMessages {TMessage}.
Arguments getMessage {TMessage}.
Arguments empty {TMessage}.
Arguments notifyListeners {TMessage}.
Arguments addMessage {TMessage}.
Arguments addMessages {TMessage}.
Arguments set_all {TMessage}.
Arguments updateMessage {TMessage Partial}.
Arguments removeMessage {TMessage}.
Arguments clear {TMessage}.
Arguments subscribe {TMessage}.
Arguments unsubscribe {TMessage}.
Arguments Add {TMessage Partial}.
Arguments AddMany {TMessage Partial}.
Arguments Update {TMessage Partial}.
Arguments Remove {TMessage Partial}.
Arguments Clear {TMessage Partial}.
Arguments apply {TMessage Partial}.
Arguments run {TMessage Partial}.
Arguments last_with {TMessage}.
Arguments record {TMessage Partial}.
Arguments history {TMessage Partial}.
Arguments keyed_by_id {TMessage}.

(** ** Scenarios *)

(** Messages reduced to an id and a text; an update may replace the text. *)
Definition Note : Type := (string * string)%type.

Definition note_spread (existing : Note) (updates : option string) : Note :=
  match updates with
  | Some text => (fst existing, text)
  | None => existing
  end.

(** [Partial<Note>]: either field may be given, the id included. *)
Definition NoteUpdate : Type := (option string * option string)%type.

Definition note_merge (existing : Note) (updates : NoteUpdate) : Note :=
  (match fst updates with Some i => i | None => fst existing end,
   match snd updates with Some text => text | None => snd existing end).

(** Message ["a"] is added and then updated with [{id: "b"}]: the entry
    stays under the key ["a"] and now carries the id ["b"]. *)
Definition renamed : InMemoryMessageStore Note :=
  updateMessage note_merge "a" (Some "b", None)
    (addMessage fst ("a", "first") empty).

(** A store with two listeners that already holds message ["a"]. *)
Definition seeded : InMemoryMessageStore Note :=
  addMessage fst ("a", "first")
    (subscribe 2%nat (subscribe 1%nat empty)).

Definition batch : list Note :=
  [("b", "one"); ("a", "second"); ("b", "two")].

(** *** Scenarios for the laws *)

(** The seeded store after the batch. *)
Definition stocked : InMemoryMessageStore Note := addMessages fst batch seeded.

(** The notifications a listener received. *)
Definition heard {TMessage : Type} (listener : nat)
  (s : InMemoryMessageStore TMessage) : list (list TMessage) :=
  map snd (filter (fun n => Nat.eqb (fst n) listener) (notified s)).

End MessageStore.

(* ================================================================== *)
(** * The streaming state machine                                      *)
(* ================================================================== *)

Module StreamingState.
Import Js.

(** [ContentBlock], as declared in [types/message]:
    [{type, content?, language?, url?, alt?, metadata?}]. *)
Record ContentBlock : Type := {
  type : string;
  content : option string;
  language : option string;
  url : option string;
  alt : option string;
  metadata : option value
}.

(** An array of content blocks is an object.  The machine stores the
    array it is handed, not a copy, and [contentBlocksEqual] first
    compares identities; the caller that holds the array can change it in
    place between two calls.  [Ref] is the identity of an array and a
    [Heap] says what every array holds at one moment. *)
Definition Ref : Type := nat.
Definition Heap : Type := Ref -> list ContentBlock.

(** The caller stores [blocks] in the array [r]: a new array, or an
    array changed in place. *)
Definition write (r : Ref) (blocks : list ContentBlock) (h : Heap) : Heap :=
  fun r' => if (r' =? r)%nat then blocks else h r'.

Record StreamingState : Type := {
  isStreaming : bool;
  partialContent : option Ref;
  sessionId : option string
}.

Definition INITIAL_STATE : StreamingState :=
  {| isStreaming := false; partialContent := None; sessionId := None |}.

(** The instance: its state, the listener [Set] and the calls made to
    listeners so far. *)
Record DefaultStreamingStateMachine : Type := {
  state : StreamingState;
  listeners : list nat;
  notified : list (nat * StreamingState)
}.

Definition create : DefaultStreamingStateMachine :=
  {| state := INITIAL_STATE; listeners := []; notified := [] |}.

Definition getState (m : DefaultStreamingStateMachine) : StreamingState :=
  state m.

Definition option_string_eqb (a b : option string) : bool :=
  match a, b with
  | Some x, Some y => (x =? y)%string
  | None, None => true
  | _, _ => false
  end.

(** [a === b] on [ContentBlock[] | null]: the same array, or both
    [null]. *)
Definition same_reference (a b : option Ref) : bool :=
  match a, b with
  | Some x, Some y => (x =? y)%nat
  | None, None => true
  | _, _ => false
  end.

(** The loop of [contentBlocksEqual], run on arrays of equal length. *)
Fixpoint blocks_equal (a b : list ContentBlock) : bool :=
  match a, b with
  | x :: a', y :: b' =>
      if negb (type x =? type y)%string
         || negb (option_string_eqb (content x) (content y))
      then false
      else blocks_equal a' b'
  | _, _ => true
  end.

(** [contentBlocksEqual], in the memory [h] of the moment of the call. *)
Definition contentBlocksEqual (h : Heap) (a b : option Ref) : bool :=
  if same_reference a b then true
  else
    match a, b with
    | None, _ | _, None => false
    | Some x, Some y =>
        if negb (List.length (h x) =? List.length (h y))%nat then false
        else blocks_equal (h x) (h y)
    end.

Definition notifyListeners (m : DefaultStreamingStateMachine) :=
  let snapshot := getState m in
  {| state := state m;
     listeners := listeners m;
     notified := notified m ++ map (fun l => (l, snapshot)) (listeners m) |}.

Definition setState (h : Heap) (newState : StreamingState)
  (m : DefaultStreamingStateMachine) :=
  let hasChanged :=
    negb (Bool.eqb (isStreaming (state m)) (isStreaming newState))
    || negb (option_string_eqb (sessionId (state m)) (sessionId newState))
    || negb (contentBlocksEqual h (partialContent (state m))
                                  (partialContent newState)) in
  if hasChanged
  then notifyListeners {| state := newState; listeners := listeners m;
                          notified := notified m |}
  else m.

Definition onPartialContent (h : Heap) (session : string) (content : Ref)
  (m : DefaultStreamingStateMachine) :=
  setState h {| isStreaming := true; partialContent := Some content;
                sessionId := Some session |} m.

Definition onComplete (h : Heap) (session : string)
  (m : DefaultStreamingStateMachine) :=
  if option_string_eqb (sessionId (state m)) (Some session)
     || option_string_eqb (sessionId (state m)) None
  then setState h {| isStreaming := false; partialContent := None;
                     sessionId := None |} m
  else m.

Definition reset (h : Heap) (m : DefaultStreamingStateMachine) :=
  setState h INITIAL_STATE m.

Definition subscribe (listener : nat) (m : DefaultStreamingStateMachine) :=
  {| state := state m; listeners := set_add listener (listeners m);
     notified := notified m |}.

Definition unsubscribe (listener : nat) (m : DefaultStreamingStateMachine) :=
  {| state := state m; listeners := set_delete listener (listeners m);
     notified := notified m |}.

(** *** The machine driven from outside *)

Inductive Input : Type :=
| PartialContent (session : string) (content : Ref)
| Complete (session : string)
| Reset.

(** One call, made while the memory is [h]. *)
Definition feed (h : Heap) (m : DefaultStreamingStateMachine) (i : Input) :=
  match i with
  | PartialContent session content => onPartialContent h session content m
  | Complete session => onComplete h session m
  | Reset => reset h m
  end.

(** A sequence of calls, each with the memory as the caller left it
    before that call. *)
Definition feed_all (inputs : list (Heap * Input))
  (m : DefaultStreamingStateMachine) :=
  fold_left (fun m hi => feed (fst hi) m (snd hi)) inputs m.

(** Two blocks that [contentBlocksEqual] does not tell apart. *)
Definition same_type_and_content (x y : ContentBlock) : Prop :=
  type x = type y /\ content x = content y.

(** ** Scenarios *)

Definition text_block (text : string) : ContentBlock :=
  {| type := "text"; content := Some text; language := None;
     url := None; alt := None; metadata := None |}.

Definition image_block (address : string) : ContentBlock :=
  {| type := "image"; content := None; language := None;
     url := Some address; alt := None; metadata := None |}.

Definition hello_blocks : list ContentBlock := [text_block "Hel"].

(** Three arrays of the caller: a text and two images that differ in
    their address only. *)
Definition arrays : Heap :=
  fun r =>
    match r with
    | 1%nat => hello_blocks
    | 2%nat => [image_block "https://cdn.example/a.png"]
    | 3%nat => [image_block "https://cdn.example/b.png"]
    | _ => []
    end.

(** The same memory after the text array has grown in place. *)
Definition grown : Heap :=
  write 1%nat [text_block "Hello"; text_block "!"] arrays.

(** A machine with one listener. *)
Definition observed : DefaultStreamingStateMachine := subscribe 7%nat create.

(** The observed machine streaming one image for session ["s1"]. *)
Definition showing : DefaultStreamingStateMachine :=
  onPartialContent arrays "s1" 2%nat observed.

End StreamingState.

(* ================================================================== *)
(** * The timeline builder                                             *)
(* ================================================================== *)

Module Timeline.
Import Js.

Inductive Direction : Type := asc | desc.
Inductive Strategy : Type := first | last.

Record SortingRule : Type := {
  field : string;
  direction : Direction;
  priority : Z
}.

Record DeduplicationRule : Type := {
  dedup_field : string;
  strategy : Strategy
}.

(** [TimelineBuildParams]: messages and events are objects, given by their
    property lists; [None] is an omitted field.  [isStreaming] and
    [partialContent] are not read by [build]. *)
Record TimelineBuildParams : Type := {
  messages : list (list (string * value));
  events : option (list (list (string * value)));
  deduplicationRules : option (list DeduplicationRule);
  sortingRules : option (list SortingRule)
}.

Definition DEFAULT_SORTING_RULES : list SortingRule :=
  [ {| field := "sequence"; direction := asc; priority := 1 |};
    {| field := "createdAt"; direction := asc; priority := 2 |};
    {| field := "id"; direction := asc; priority := 3 |} ].

Definition DEFAULT_DEDUP_RULES : list DeduplicationRule :=
  [ {| dedup_field := "id"; strategy := last |} ].

(** [s.split(sep)] for a one-character separator. *)
Fixpoint split (sep : ascii) (s : string) : list string :=
  match s with
  | EmptyString => [EmptyString]
  | String c rest =>
      if Ascii.eqb c sep then EmptyString :: split sep rest
      else match split sep rest with
           | p :: ps => String c p :: ps
           | [] => [String c EmptyString]
           end
  end.

(** The loop of [getFieldValue]. *)
Fixpoint walk (parts : list string) (v : value) : value :=
  match parts with
  | [] => v
  | part :: rest =>
      if nullish v || negb (is_object_tag (typeof v)) then VUndefined
      else walk rest (get_prop v part)
  end.

Definition getFieldValue (obj : value) (fld : string) : value :=
  walk (split "." fld) obj.

Section Builder.
(** [String.prototype.localeCompare] depends on the host locale. *)
Variable localeCompare : string -> string -> Z.

(** One iteration of the loop in the comparator: [None] is [continue]
    or a zero comparison, [Some c] is [return c]. *)
Definition compare_rule (rule : SortingRule) (a b : value)
  : result (option Z) :=
  let aVal := getFieldValue a (field rule) in
  let bVal := getFieldValue b (field rule) in
  if nullish aVal && nullish bVal then Ok None
  else if nullish aVal then Ok (Some 1)
  else if nullish bVal then Ok (Some (-1))
  else
    comparison <-
      match aVal, bVal with
      | VNum x, VNum y => Ok (x - y)
      | VStr x, VStr y => Ok (localeCompare x y)
      | _, _ =>
          sa <- ToString aVal ;;
          sb <- ToString bVal ;;
          Ok (localeCompare sa sb)
      end ;;
    if negb (comparison =? 0)
    then Ok (Some (match direction rule with
                   | desc => - comparison
                   | asc => comparison
                   end))
    else Ok None.

Fixpoint compare_rules (sortedRules : list SortingRule) (a b : value)
  : result Z :=
  match sortedRules with
  | [] => Ok 0
  | rule :: rest =>
      r <- compare_rule rule a b ;;
      match r with
      | Some c => Ok c
      | None => compare_rules rest a b
      end
  end.

Definition sort_rules (rules : list SortingRule) : list SortingRule :=
  sort_total (fun a b => priority a - priority b) rules.

Definition createCompareFunction (rules : list SortingRule)
  : value -> value -> result Z :=
  let sortedRules := sort_rules rules in
  compare_rules sortedRules.

(** The inner loop of [deduplicateItems]: one item against every rule. *)
Fixpoint dedup_item (item : value) (rules : list DeduplicationRule)
  (seen : list (string * value)) : result (list (string * value)) :=
  match rules with
  | [] => Ok seen
  | rule :: rest =>
      key <- ToString (getFieldValue item (dedup_field rule)) ;;
      let seen :=
        match strategy rule with
        | first => if negb (map_has key seen) then map_set key item seen
                   else seen
        | last => map_set key item seen
        end in
      dedup_item item rest seen
  end.

(** The outer loop. *)
Fixpoint dedup_loop (items : list value) (rules : list DeduplicationRule)
  (seen : list (string * value)) : result (list (string * value)) :=
  match items with
  | [] => Ok seen
  | item :: rest =>
      seen <- dedup_item item rules seen ;;
      dedup_loop rest rules seen
  end.

Definition deduplicateItems (items : list value)
  (rules : list DeduplicationRule) : result (list value) :=
  seen <- dedup_loop items rules [] ;;
  Ok (map_values seen).

(** [{ ...obj, itemType }]. *)
Definition tag (itemType : string) (obj : list (string * value)) : value :=
  VObj (map_set "itemType" (VStr itemType) obj).

Definition allItems (params : TimelineBuildParams) : list value :=
  let events := match events params with Some e => e | None => [] end in
  let messageItems := map (tag "message") (messages params) in
  let eventItems := map (tag "event") events in
  messageItems ++ eventItems.

(** [DefaultTimelineBuilder.build]. *)
Definition build (params : TimelineBuildParams) : result (list value) :=
  let deduplicationRules :=
    match deduplicationRules params with
    | Some r => r
    | None => DEFAULT_DEDUP_RULES
    end in
  let sortingRules :=
    match sortingRules params with
    | Some r => r
    | None => DEFAULT_SORTING_RULES
    end in
  dedupedItems <- deduplicateItems (allItems params) deduplicationRules ;;
  let compareFunction := createCompareFunction sortingRules in
  sort compareFunction dedupedItems.
End Builder.

(** ** Reference notions used to state the builder's properties *)

(** The rules [build] works with: those supplied, else the defaults. *)
Definition dedup_rules_of (params : TimelineBuildParams) :=
  match deduplicationRules params with
  | Some r => r
  | None => DEFAULT_DEDUP_RULES
  end.

Definition sorting_rules_of (params : TimelineBuildParams) :=
  match sortingRules params with
  | Some r => r
  | None => DEFAULT_SORTING_RULES
  end.

(** The item has no usable value under a field path: the path resolves to
    [null] or [undefined]. *)
Definition missing (fld : string) (item : value) : bool :=
  nullish (getFieldValue item fld).

Definition present (fld : string) (item : value) : bool :=
  negb (missing fld item).

(** What a direction does to a comparison. *)
Definition oriented (d : Direction) (comparison : Z) : Z :=
  match d with
  | desc => - comparison
  | asc => comparison
  end.



(** ** Scenarios *)

(** A message with an id and, possibly, a sequence number. *)
Definition numbered (id : string) (sequence : value)
  : list (string * value) :=
  [("id", VStr id); ("sequence", sequence)].

Definition by_sequence (d : Direction) : list SortingRule :=
  [ {| field := "sequence"; direction := d; priority := 1 |} ].

(** Messages with sequences 3, 1, 2, sorted by [sequence] ascending. *)
Definition three_one_two : TimelineBuildParams :=
  {| messages := [numbered "m3" (VNum 3); numbered "m1" (VNum 1);
                  numbered "m2" (VNum 2)];
     events := None;
     deduplicationRules := None;
     sortingRules := Some (by_sequence asc) |}.

(** The same with an unnumbered message in front and an event without a
    sequence, under either direction. *)
Definition with_unnumbered (d : Direction) : TimelineBuildParams :=
  {| messages := [numbered "m0" VNull; numbered "m3" (VNum 3);
                  numbered "m1" (VNum 1); numbered "m2" (VNum 2)];
     events := Some [[("id", VStr "e1"); ("type", VStr "joined")]];
     deduplicationRules := None;
     sortingRules := Some (by_sequence d) |}.



(** Three items whose [sequence] holds the numbers 2 and 10 and the
    string ["1x"]. *)
Definition seq_two : value := tag "message" (numbered "m2" (VNum 2)).
Definition seq_ten : value := tag "message" (numbered "m10" (VNum 10)).
Definition seq_one_x : value := tag "message" (numbered "m1x" (VStr "1x")).

(** A locale-independent stand-in for [localeCompare]: code-unit order. *)
Definition ordinalCompare (a b : string) : Z :=
  match String.compare a b with
  | Lt => -1
  | Eq => 0
  | Gt => 1
  end.

(** ** Type guards and the message utilities *)

(** [isTimelineMessage], [isTimelineEvent], [isTextMessage] and
    [isRichMessage] of [types/message]. *)
Definition isTimelineMessage (item : value) : bool :=
  match get_prop item "itemType" with
  | VStr s => (s =? "message")%string
  | _ => false
  end.

Definition isTimelineEvent (item : value) : bool :=
  match get_prop item "itemType" with
  | VStr s => (s =? "event")%string
  | _ => false
  end.

Definition isTextMessage (message : value) : bool :=
  match get_prop message "content" with
  | VStr _ => true
  | _ => false
  end.

Definition isRichMessage (message : value) : bool :=
  match get_prop message "content" with
  | VArr _ => true
  | _ => false
  end.

Section Utilities.
(** [sortMessages] and [deduplicateMessages] are generic in
    [T extends BaseMessage]: a message has an [id], a [createdAt] and a
    [sequence] that may be a number, [null] or missing ([None]).
    [getTime s] is [new Date(s).getTime()], [None] when that is [NaN]. *)
Variable T : Type.
Variable id : T -> string.
Variable sequence : T -> option Z.
Variable createdAt : T -> string.
Variable getTime : string -> option Z.

(** The comparator of [sortMessages].  A [NaN] difference of timestamps
    counts as 0, which is how [Array.prototype.sort] reads it. *)
Definition compare_messages (a b : T) : Z :=
  match sequence a, sequence b with
  | Some x, Some y => x - y
  | Some _, None => -1
  | None, Some _ => 1
  | None, None =>
      match getTime (createdAt a), getTime (createdAt b) with
      | Some x, Some y => x - y
      | _, _ => 0
      end
  end.

Definition sortMessages (messages : list T) : list T :=
  sort_total compare_messages messages.

Definition deduplicateMessages (messages : list T) : list T :=
  map_values
    (fold_left (fun seen msg => map_set (id msg) msg seen) messages []).
End Utilities.

Arguments compare_messages {T}.
Arguments sortMessages {T}.
Arguments deduplicateMessages {T}.

(** *** Reference notions for the laws *)

(** A message carries a sequence number. *)
Definition sequenced {T : Type} (sequence : T -> option Z) (m : T) : bool :=
  match sequence m with Some _ => true | None => false end.

(** Sequence numbers do not decrease from [a] to [b]. *)
Definition sequence_le {T : Type} (sequence : T -> option Z) (a b : T) : Prop :=
  forall x y, sequence a = Some x -> sequence b = Some y -> x <= y.

(** Creation times do not decrease from [a] to [b]. *)
Definition time_le {T : Type} (createdAt : T -> string)
  (getTime : string -> option Z) (a b : T) : Prop :=
  forall x y,
    getTime (createdAt a) = Some x -> getTime (createdAt b) = Some y -> x <= y.

(** The events of a build, [[]] when omitted. *)
Definition events_of (params : TimelineBuildParams)
  : list (list (string * value)) :=
  match events params with Some e => e | None => [] end.

(** The key a rule gives an item. *)
Definition dedup_key (rule : DeduplicationRule) (item : value)
  : result string :=
  ToString (getFieldValue item (dedup_field rule)).

(** The item a single rule keeps under a key: the first or the last of
    the items that carry it. *)
Definition kept (s : Strategy) (keyed : list (string * value)) (key : string)
  : option value :=
  match s with
  | first => map_get key keyed
  | last => map_get key (rev keyed)
  end.

(** *** Scenarios for the laws *)

(** A message that is a thread root and a reply at once. *)
Definition threaded : value :=
  VObj [("id", VStr "m1"); ("threadId", VStr "t1")].

Definition by_id_and_thread : list DeduplicationRule :=
  [ {| dedup_field := "id"; strategy := last |};
    {| dedup_field := "threadId"; strategy := last |} ].

(** Two revisions of message ["a"] around a message ["b"]. *)
Definition revisions : list value :=
  [ VObj [("id", VStr "a"); ("rev", VNum 1)];
    VObj [("id", VStr "b"); ("rev", VNum 1)];
    VObj [("id", VStr "a"); ("rev", VNum 2)] ].



Definition nested : value :=
  VObj [("metadata", VObj [("thread", VObj [("id", VStr "t1")])])].

(** Messages as (id, sequence, createdAt). *)
Definition Stamped : Type := (string * option Z * string)%type.
Definition stamped_id (m : Stamped) : string := fst (fst m).
Definition stamped_sequence (m : Stamped) : option Z := snd (fst m).
Definition stamped_createdAt (m : Stamped) : string := snd m.

(** [new Date(s).getTime()] on the two time stamps of the scenario
    below: they are in the ISO format of [toISOString], which every
    engine reads as milliseconds since 1970-01-01T00:00:00.000Z.  The
    scenario consults it on no other string. *)
Definition scenario_clock (s : string) : option Z :=
  if (s =? "1970-01-01T00:01:00.000Z")%string then Some 60000
  else if (s =? "1970-01-01T00:02:00.000Z")%string then Some 120000
  else None.

Definition unsorted : list Stamped :=
  [ ("u2", None, "1970-01-01T00:02:00.000Z");
    ("s7", Some 7, "1970-01-01T00:01:00.000Z");
    ("u1", None, "1970-01-01T00:01:00.000Z");
    ("s3", Some 3, "1970-01-01T00:02:00.000Z") ].

End Timeline.

(* ================================================================== *)
(** * Facts about the JavaScript fragment                              *)
(* ================================================================== *)

Module JsFacts.
Import Js.

Section MapFacts.
Context {V : Type}.
Implicit Types (m : list (string * V)) (k : string) (v : V).

Lemma map_get_set_same k v m : map_get k (map_set k v m) = Some v.
Proof.
  induction m as [|[k' x] m IH]; simpl.
  - now rewrite String.eqb_refl.
  - destruct (k' =? k)%string eqn:E; simpl; rewrite E; auto.
Qed.

Lemma map_get_set_other k k' v m :
  k <> k' -> map_get k' (map_set k v m) = map_get k' m.
Proof.
  intros Hne. induction m as [|[k0 x] m IH]; simpl.
  - destruct (k =? k')%string eqn:E; auto.
    apply String.eqb_eq in E. contradiction.
  - destruct (k0 =? k)%string eqn:E; simpl.
    + apply String.eqb_eq in E. subst k0.
      destruct (k =? k')%string eqn:E'; auto.
      apply String.eqb_eq in E'. contradiction.
    + now rewrite IH.
Qed.

Lemma map_set_set k v v' m : map_set k v' (map_set k v m) = map_set k v' m.
Proof.
  induction m as [|[k' x] m IH]; simpl.
  - now rewrite String.eqb_refl.
  - destruct (k' =? k)%string eqn:E; simpl; rewrite E; auto.
    now rewrite IH.
Qed.

Lemma map_has_set_same k v m : map_has k (map_set k v m) = true.
Proof. unfold map_has. now rewrite map_get_set_same. Qed.

Lemma map_has_keys k m : map_has k m = true <-> In k (map_keys m).
Proof.
  unfold map_has, map_keys.
  induction m as [|[k' x] m IH]; simpl.
  - split; [discriminate | tauto].
  - destruct (k' =? k)%string eqn:E.
    + apply String.eqb_eq in E. split; auto.
    + apply String.eqb_neq in E. rewrite IH. split; [auto | intros [H|H]]; tauto.
Qed.

Lemma map_has_false_keys k m : map_has k m = false <-> ~ In k (map_keys m).
Proof.
  rewrite <- map_has_keys. destruct (map_has k m); split; congruence.
Qed.

(** [set] on a present key leaves the key order alone. *)
Lemma map_keys_set_present k v m :
  In k (map_keys m) -> map_keys (map_set k v m) = map_keys m.
Proof.
  unfold map_keys. induction m as [|[k' x] m IH]; simpl; [tauto|].
  intros H. destruct (k' =? k)%string eqn:E; simpl; auto.
  apply String.eqb_neq in E. f_equal. apply IH. destruct H; congruence.
Qed.

(** [set] on an absent key appends it. *)
Lemma map_set_absent k v m :
  ~ In k (map_keys m) -> map_set k v m = m ++ [(k, v)].
Proof.
  unfold map_keys. induction m as [|[k' x] m IH]; simpl; auto.
  intros H. destruct (k' =? k)%string eqn:E.
  - apply String.eqb_eq in E. tauto.
  - f_equal. apply IH. tauto.
Qed.

Lemma map_keys_delete k m :
  map_keys (map_delete k m)
  = filter (fun k' => negb (k' =? k)%string) (map_keys m).
Proof.
  unfold map_keys, map_delete.
  induction m as [|[k' x] m IH]; simpl; auto.
  destruct (k' =? k)%string; simpl; now rewrite IH.
Qed.
End MapFacts.

(** ** Sorting *)

Section SortFacts.
Context {A : Type}.

Lemma bind_ok {B C : Type} (r : result B) (k : B -> result C) (c : C) :
  bind r k = Ok c -> exists b, r = Ok b /\ k b = Ok c.
Proof. destruct r as [b|e]; simpl; [eauto | discriminate]. Qed.

Section Throwing.
Variable cmp : A -> A -> result Z.

Lemma insert_perm x l r : insert cmp x l = Ok r -> Permutation (x :: l) r.
Proof.
  revert r. induction l as [|y l IH]; simpl; intros r H.
  - injection H as <-. apply Permutation_refl.
  - apply bind_ok in H. destruct H as (c & _ & H).
    destruct (c <=? 0).
    + injection H as <-. apply Permutation_refl.
    + apply bind_ok in H. destruct H as (r' & Hr' & H). injection H as <-.
      rewrite perm_swap. constructor. now apply IH.
Qed.

Lemma sort_perm l r : sort cmp l = Ok r -> Permutation l r.
Proof.
  revert r. induction l as [|x l IH]; simpl; intros r H.
  - injection H as <-. constructor.
  - apply bind_ok in H. destruct H as (s & Hs & H).
    apply insert_perm in H. rewrite <- H. constructor. now apply IH.
Qed.

(** The sort returns when the comparator does on every pair. *)
Lemma insert_returns x l :
  (forall y, In y l -> is_ok (cmp x y) = true) ->
  exists r, insert cmp x l = Ok r.
Proof.
  induction l as [|y l IH]; simpl; intros H; [eauto|].
  destruct (cmp x y) as [c|] eqn:E.
  - simpl. destruct (c <=? 0); [eauto|].
    destruct IH as [r ->]; [auto|]. simpl. eauto.
  - specialize (H y (or_introl eq_refl)). rewrite E in H. discriminate.
Qed.

Lemma sort_returns l :
  (forall x y, In x l -> In y l -> is_ok (cmp x y) = true) ->
  exists r, sort cmp l = Ok r.
Proof.
  induction l as [|x l IH]; simpl; intros H; [eauto|].
  destruct IH as [s Hs]; [auto|]. rewrite Hs. simpl.
  apply insert_returns. intros y Hy. apply H; auto.
  right. apply Permutation_in with (l := s); auto.
  symmetry. now apply sort_perm.
Qed.

(** With a comparator that, whenever it ranks [x] after [y], also ranks
    [y] at or before [x], neighbours in the output are in order. *)
Hypothesis cmp_antisym :
  forall x y c, cmp x y = Ok c -> 0 < c -> in_order cmp y x.

Lemma insert_sorted x l r :
  Sorted (in_order cmp) l -> insert cmp x l = Ok r -> Sorted (in_order cmp) r.
Proof.
  revert r. induction l as [|y l IH]; simpl; intros r Hs H.
  - injection H as <-. repeat constructor.
  - apply bind_ok in H. destruct H as (c & Hc & H).
    destruct (Z.leb_spec c 0).
    + injection H as <-. constructor; auto. constructor. now exists c.
    + apply bind_ok in H. destruct H as (r' & Hr' & H). injection H as <-.
      inversion Hs as [|? ? Hs' Hhd]; subst.
      constructor; [now apply IH|].
      destruct l as [|z l]; simpl in Hr'.
      * injection Hr' as <-. constructor. now apply (cmp_antisym x y c).
      * apply bind_ok in Hr'. destruct Hr' as (c' & Hc' & Hr').
        destruct (c' <=? 0).
        -- injection Hr' as <-. constructor. now apply (cmp_antisym x y c).
        -- apply bind_ok in Hr'. destruct Hr' as (r'' & _ & Hr').
           injection Hr' as <-. constructor. now inversion Hhd.
Qed.

Lemma sort_sorted l r : sort cmp l = Ok r -> Sorted (in_order cmp) r.
Proof.
  revert r. induction l as [|x l IH]; simpl; intros r H.
  - injection H as <-. constructor.
  - apply bind_ok in H. destruct H as (s & Hs & H).
    apply (insert_sorted x s); auto.
Qed.
End Throwing.

(** *** Sorting with a consistent comparator *)
Section Consistent.
Variable cmp : A -> A -> result Z.
Variable l : list A.
Hypothesis cmp_consistent : consistent cmp l = true.

Lemma in_order_at_or_before x y :
  in_order cmp x y <-> at_or_before cmp x y = true.
Proof.
  unfold in_order, at_or_before. split.
  - intros (c & -> & Hc). now apply Z.leb_le.
  - destruct (cmp x y) as [c|]; [|discriminate].
    intros H. exists c. split; [reflexivity|]. now apply Z.leb_le.
Qed.

Lemma consistent_mirrored x y : In x l -> In y l -> mirrored cmp x y = true.
Proof.
  intros Hx Hy. unfold consistent in cmp_consistent.
  rewrite forallb_forall in cmp_consistent.
  specialize (cmp_consistent x Hx). rewrite forallb_forall in cmp_consistent.
  specialize (cmp_consistent y Hy).
  now apply andb_prop in cmp_consistent.
Qed.

Lemma consistent_returns x y : In x l -> In y l -> is_ok (cmp x y) = true.
Proof.
  intros Hx Hy. pose proof (consistent_mirrored x y Hx Hy) as H.
  unfold mirrored in H. now destruct (cmp x y).
Qed.

Lemma consistent_flip x y c :
  In x l -> In y l -> cmp x y = Ok c -> 0 < c -> in_order cmp y x.
Proof.
  intros Hx Hy E Hc. pose proof (consistent_mirrored x y Hx Hy) as H.
  unfold mirrored in H. rewrite E in H.
  destruct (cmp y x) as [c'|] eqn:E'; [|discriminate].
  apply Z.eqb_eq in H. exists c'. split; [exact E'|]. lia.
Qed.

Lemma consistent_trans x y z :
  In x l -> In y l -> In z l ->
  in_order cmp x y -> in_order cmp y z -> in_order cmp x z.
Proof.
  intros Hx Hy Hz Hxy Hyz. unfold consistent in cmp_consistent.
  rewrite forallb_forall in cmp_consistent.
  specialize (cmp_consistent x Hx). rewrite forallb_forall in cmp_consistent.
  specialize (cmp_consistent y Hy).
  apply andb_prop in cmp_consistent. destruct cmp_consistent as [_ H].
  rewrite forallb_forall in H. specialize (H z Hz).
  apply in_order_at_or_before in Hxy, Hyz. rewrite Hxy, Hyz in H.
  now apply in_order_at_or_before.
Qed.

Lemma insert_strongly_sorted x s r :
  In x l -> incl s l ->
  StronglySorted (in_order cmp) s -> insert cmp x s = Ok r ->
  StronglySorted (in_order cmp) r.
Proof.
  intros Hx. revert r. induction s as [|y s IH]; simpl; intros r Hs Hss H.
  - injection H as <-. repeat constructor.
  - assert (Hy : In y l) by (apply Hs; now left).
    assert (Hs' : incl s l) by (intros z Hz; apply Hs; now right).
    inversion Hss as [|? ? Hss' Hall]; subst.
    apply bind_ok in H. destruct H as (c & Hc & H).
    destruct (Z.leb_spec c 0).
    + injection H as <-. constructor; [exact Hss|].
      assert (Hxy : in_order cmp x y) by now exists c.
      constructor; [exact Hxy|].
      rewrite Forall_forall in *. intros z Hz.
      apply (consistent_trans x y z); auto.
    + apply bind_ok in H. destruct H as (r' & Hr' & H). injection H as <-.
      constructor; [now apply IH|].
      rewrite Forall_forall in *. intros z Hz.
      apply (Permutation_in _ (Permutation_sym (insert_perm cmp x s r' Hr')))
        in Hz.
      destruct Hz as [<-|Hz]; [|now apply Hall].
      now apply (consistent_flip x y c).
Qed.

Lemma sort_strongly_sorted s r :
  incl s l -> sort cmp s = Ok r -> StronglySorted (in_order cmp) r.
Proof.
  revert r. induction s as [|x s IH]; simpl; intros r Hs H.
  - injection H as <-. constructor.
  - apply bind_ok in H. destruct H as (s' & Hs' & H).
    assert (Hincl : incl s l) by (intros z Hz; apply Hs; now right).
    apply (insert_strongly_sorted x s'); auto.
    + apply Hs. now left.
    + intros z Hz. apply Hincl.
      apply (Permutation_in _ (Permutation_sym (sort_perm cmp s s' Hs'))).
      exact Hz.
Qed.

(** With a consistent comparator the sort returns, and returns the
    elements with every earlier one at or before every later one. *)
Lemma sort_consistent :
  exists r, sort cmp l = Ok r /\ Permutation l r /\
            StronglySorted (in_order cmp) r.
Proof.
  destruct (sort_returns cmp l) as [r Hr].
  { intros x y Hx Hy. now apply consistent_returns. }
  exists r. split; [exact Hr|]. split; [now apply sort_perm in Hr|].
  apply (sort_strongly_sorted l r); [apply incl_refl | exact Hr].
Qed.
End Consistent.

Section Total.
Variable key : A -> Z.
Local Abbreviation cmp := (fun a b : A => key a - key b).

Lemma insert_total_perm x l : Permutation (x :: l) (insert_total cmp x l).
Proof.
  induction l as [|y l IH]; simpl; auto.
  destruct (cmp x y <=? 0); auto.
  rewrite perm_swap. now constructor.
Qed.

Lemma sort_total_perm l : Permutation l (sort_total cmp l).
Proof.
  induction l as [|x l IH]; simpl; auto.
  rewrite <- insert_total_perm. now constructor.
Qed.

Lemma insert_total_sorted x l :
  Sorted (fun a b => key a <= key b) l ->
  Sorted (fun a b => key a <= key b) (insert_total cmp x l).
Proof.
  induction l as [|y l IH]; simpl; intros Hs.
  - repeat constructor.
  - destruct (Z.leb_spec (key x - key y) 0).
    + constructor; auto. constructor. lia.
    + inversion Hs as [|? ? Hs' Hhd]; subst.
      constructor; [now apply IH|].
      destruct l as [|z l]; simpl.
      * constructor. lia.
      * destruct (key x - key z <=? 0).
        -- constructor. lia.
        -- constructor. now inversion Hhd.
Qed.

Lemma sort_total_sorted l :
  StronglySorted (fun a b => key a <= key b) (sort_total cmp l).
Proof.
  apply Sorted_StronglySorted.
  - intros a b c. lia.
  - induction l as [|x l IH]; simpl; [constructor|].
    now apply insert_total_sorted.
Qed.
End Total.
End SortFacts.

End JsFacts.

(* ================================================================== *)
(** * Facts about the transport                                        *)
(* ================================================================== *)

Module TransportFacts.
Import Js Transport JsFacts.

Lemma sent_frames_emit es t :
  sent_frames (emit es t)
  = sent_frames t
    ++ flat_map (fun e => match e with WsSend d => [d] | _ => [] end) es.
Proof. unfold sent_frames. simpl. apply flat_map_app. Qed.

Lemma sent_frames_sendRaw data t :
  sent_frames (sendRaw data t)
  = if socket_open t then sent_frames t ++ [data] else sent_frames t.
Proof.
  unfold sendRaw. destruct (socket_open t); auto.
  now rewrite sent_frames_emit.
Qed.

Lemma setStatus_reconnectAttempts s t :
  reconnectAttempts (setStatus s t) = reconnectAttempts t.
Proof. unfold setStatus. now destruct (negb _). Qed.

Lemma setStatus_config s t : config (setStatus s t) = config t.
Proof. unfold setStatus. now destruct (negb _). Qed.

Lemma setStatus_status s t : status (setStatus s t) = s.
Proof.
  unfold setStatus. destruct (status t) eqn:E, s; simpl; auto.
Qed.

Lemma connect_reconnectAttempts created t :
  reconnectAttempts (fst (connect created t)) = reconnectAttempts t.
Proof.
  unfold connect.
  destruct (status_eqb (status t) connected || status_eqb (status t) connecting);
    [reflexivity|].
  destruct created; simpl; now rewrite ?setStatus_reconnectAttempts.
Qed.

Lemma clearReconnectTimer_reconnectAttempts t :
  reconnectAttempts (clearReconnectTimer t) = reconnectAttempts t.
Proof. unfold clearReconnectTimer. now destruct (reconnectTimer t). Qed.

Lemma clearReconnectTimer_config t : config (clearReconnectTimer t) = config t.
Proof. unfold clearReconnectTimer. now destruct (reconnectTimer t). Qed.

Lemma clearReconnectTimer_status t : status (clearReconnectTimer t) = status t.
Proof. unfold clearReconnectTimer. now destruct (reconnectTimer t). Qed.

Lemma reconnect_delay_clear t :
  reconnect_delay (clearReconnectTimer t) = reconnect_delay t.
Proof.
  unfold reconnect_delay.
  now rewrite clearReconnectTimer_reconnectAttempts, clearReconnectTimer_config.
Qed.

Lemma reconnect_delay_setStatus s t :
  reconnect_delay (setStatus s t) = reconnect_delay t.
Proof.
  unfold reconnect_delay.
  now rewrite setStatus_reconnectAttempts, setStatus_config.
Qed.

(** C1, as stated, fails: in the exhausted transport ([error] status,
    counter at [maxAttempts]) a manual [connect()] leaves the counter at 1,
    and when that connection fails too the transport returns to [error]
    without arming another retry timer. *)
Lemma connect_keeps_counter_after_exhaustion :
  status exhausted = error /\
  Z.of_nat (reconnectAttempts exhausted) = maxAttempts (config exhausted) /\
  let t := fst (connect true exhausted) in
  status t = connecting /\
  reconnectAttempts t <> 0%nat /\
  let t' := ws_onclose false (set_readyState CLOSED (ws_onerror t)) in
  status t' = error /\ timeouts_set t' = timeouts_set exhausted.
Proof. vm_compute. repeat split; congruence. Qed.

(** C1 (amended): from the [error] status a manual [connect()] moves to
    [connecting] and leaves the reconnect-attempt counter as it is; the
    counter returns to 0 when the socket opens. *)
Theorem connect_resets_counter_on_open (t : WebSocketTransport) :
  status t = error ->
  let t1 := fst (connect true t) in
  status t1 = connecting /\
  reconnectAttempts t1 = reconnectAttempts t /\
  let t2 := ws_onopen (set_readyState OPEN t1) in
  status t2 = connected /\ reconnectAttempts t2 = 0%nat.
Proof.
  intros Herr. cbv zeta. split; [|split; [|split]].
  - unfold connect. rewrite Herr. simpl. apply setStatus_status.
  - apply connect_reconnectAttempts.
  - unfold ws_onopen, startHeartbeat, stopHeartbeat.
    match goal with
    | |- context [heartbeatTimer ?x] => destruct (heartbeatTimer x)
    end; simpl; apply setStatus_status.
  - unfold ws_onopen, startHeartbeat, stopHeartbeat.
    match goal with
    | |- context [heartbeatTimer ?x] => destruct (heartbeatTimer x)
    end; simpl; now rewrite setStatus_reconnectAttempts.
Qed.

Lemma connect_resets_counter_on_open_witness :
  status exhausted = error /\
  let t1 := fst (connect true exhausted) in
  status t1 = connecting /\
  reconnectAttempts t1 = reconnectAttempts exhausted /\
  let t2 := ws_onopen (set_readyState OPEN t1) in
  status t2 = connected /\ reconnectAttempts t2 = 0%nat.
Proof.
  split; [reflexivity|].
  apply (connect_resets_counter_on_open exhausted). reflexivity.
Defined.

(** After an unclean close with reconnection enabled and attempts left,
    the transport is [reconnecting] and its timer carries the back-off
    delay of the current attempt count. *)
Lemma handleDisconnect_schedules (t : WebSocketTransport) :
  enabled (config t) = true ->
  Z.of_nat (reconnectAttempts t) < maxAttempts (config t) ->
  let t1 := handleDisconnect t in
  status t1 = reconnecting /\
  reconnectTimer t1 = Some (reconnect_delay t) /\
  reconnectAttempts t1 = reconnectAttempts t.
Proof.
  intros Hen Hlt. cbv zeta. unfold handleDisconnect. rewrite Hen. simpl.
  destruct (Z.geb_spec (Z.of_nat (reconnectAttempts t)) (maxAttempts (config t)));
    [lia|].
  repeat split.
  - unfold scheduleReconnect. simpl.
    now rewrite clearReconnectTimer_status, setStatus_status.
  - unfold scheduleReconnect. simpl.
    now rewrite reconnect_delay_clear, reconnect_delay_setStatus.
  - unfold scheduleReconnect. simpl.
    now rewrite clearReconnectTimer_reconnectAttempts,
      setStatus_reconnectAttempts.
Qed.

(** The first five delays under the default configuration, and the cap. *)
Example default_backoff_delays :
  let t n := with_reconnectAttempts n
               (constructor {| cfg_url := "ws://h"; cfg_reconnect := None;
                               cfg_heartbeatInterval := None;
                               cfg_authToken := None |}) in
  map (fun n => reconnect_delay (t n)) [0; 1; 2; 3; 4; 5; 9]%nat
  = [1000; 2000; 4000; 8000; 16000; 30000; 30000].
Proof. reflexivity. Qed.

(** C9: while the status is [connected] or [connecting], [connect()]
    returns at once and changes nothing: same status, no listener called,
    no socket created (the whole instance, trace included, is as before). *)
Theorem connect_noop (created : bool) (t : WebSocketTransport) :
  status t = connected \/ status t = connecting ->
  connect created t = (t, Returned) /\
  status (fst (connect created t)) = status t /\
  trace (fst (connect created t)) = trace t /\
  sockets_created (fst (connect created t)) = sockets_created t.
Proof.
  intros H.
  assert (E : connect created t = (t, Returned)).
  { unfold connect. destruct H as [-> | ->]; reflexivity. }
  rewrite E. auto.
Qed.

Lemma connect_noop_witness :
  (status live = connected \/ status live = connecting) /\
  connect true live = (live, Returned) /\
  status (fst (connect true live)) = status live /\
  trace (fst (connect true live)) = trace live /\
  sockets_created (fst (connect true live)) = sockets_created live.
Proof.
  split; [left; reflexivity|].
  apply (connect_noop true live). left; reflexivity.
Defined.

(** On a transport that has not connected the first subscription for a
    session sends no frame at all, and neither does the removal of its
    last callback. *)
Lemma subscribe_before_connect_sends_nothing :
  let t := constructor one_retry in
  map_has "s1" (sessionSubscribers t) = false /\
  sent_frames (subscribe "s1" 1%nat t) = [] /\
  sent_frames (unsubscribe "s1" 1%nat (subscribe "s1" 1%nat t)) = [].
Proof. vm_compute. auto. Qed.

Lemma socket_open_with_sessionSubscribers m t :
  socket_open (with_sessionSubscribers m t) = socket_open t.
Proof. reflexivity. Qed.

Lemma subscribe_first sid cb t :
  map_has sid (sessionSubscribers t) = false ->
  subscribe sid cb t
  = with_sessionSubscribers
      (map_set sid [cb] (sessionSubscribers t))
      (sendRaw (subscribe_frame sid) t).
Proof.
  intros H. unfold subscribe. rewrite H. simpl.
  unfold sendRaw. rewrite socket_open_with_sessionSubscribers.
  destruct (socket_open t); simpl;
    rewrite map_get_set_same; simpl; now rewrite map_set_set.
Qed.

Lemma subscribe_again sid cb subs t :
  map_get sid (sessionSubscribers t) = Some subs ->
  subscribe sid cb t
  = with_sessionSubscribers
      (map_set sid (set_add cb subs) (sessionSubscribers t)) t.
Proof.
  intros H. unfold subscribe, map_has. rewrite H. simpl. now rewrite H.
Qed.

Lemma unsubscribe_present sid cb subs t :
  map_get sid (sessionSubscribers t) = Some subs ->
  unsubscribe sid cb t
  = if (List.length (set_delete cb subs) =? 0)%nat
    then sendRaw (unsubscribe_frame sid)
           (with_sessionSubscribers
              (map_delete sid
                 (map_set sid (set_delete cb subs) (sessionSubscribers t))) t)
    else with_sessionSubscribers
           (map_set sid (set_delete cb subs) (sessionSubscribers t)) t.
Proof. intros H. unfold unsubscribe. rewrite H. reflexivity. Qed.

(** While the socket is open, the first callback for a session sends
    exactly one [subscribe] frame, a second callback for the same session
    sends nothing, removing one of the two sends nothing, and removing
    the last one sends [unsubscribe]. *)
Theorem subscribe_control_frames
  (t : WebSocketTransport) (sid : string) (cb1 cb2 : nat) :
  socket_open t = true ->
  map_has sid (sessionSubscribers t) = false ->
  cb1 <> cb2 ->
  let t1 := subscribe sid cb1 t in
  let t2 := subscribe sid cb2 t1 in
  let t3 := unsubscribe sid cb1 t2 in
  let t4 := unsubscribe sid cb2 t3 in
  sent_frames t1 = sent_frames t ++ [subscribe_frame sid] /\
  sent_frames t2 = sent_frames t1 /\
  sent_frames t3 = sent_frames t2 /\
  sent_frames t4 = sent_frames t3 ++ [unsubscribe_frame sid].
Proof.
  intros Hopen Hnew Hne. cbv zeta.
  rewrite (subscribe_first sid cb1 t Hnew).
  set (t1 := with_sessionSubscribers _ (sendRaw _ t)).
  assert (G1 : map_get sid (sessionSubscribers t1) = Some [cb1]).
  { subst t1. simpl. apply map_get_set_same. }
  assert (O1 : socket_open t1 = true).
  { subst t1. rewrite socket_open_with_sessionSubscribers.
    unfold sendRaw. now rewrite Hopen. }
  rewrite (subscribe_again sid cb2 [cb1] t1 G1).
  assert (A : set_add cb2 [cb1] = [cb1; cb2]).
  { unfold set_add. simpl. destruct (Nat.eqb_spec cb2 cb1); [congruence|auto]. }
  rewrite A.
  set (t2 := with_sessionSubscribers _ t1).
  assert (G2 : map_get sid (sessionSubscribers t2) = Some [cb1; cb2]).
  { subst t2. simpl. apply map_get_set_same. }
  rewrite (unsubscribe_present sid cb1 [cb1; cb2] t2 G2).
  assert (D1 : set_delete cb1 [cb1; cb2] = [cb2]).
  { unfold set_delete. simpl. rewrite Nat.eqb_refl. simpl.
    destruct (Nat.eqb_spec cb1 cb2); [congruence|auto]. }
  rewrite D1. simpl (List.length [cb2] =? 0)%nat. cbv iota.
  set (t3 := with_sessionSubscribers _ t2).
  assert (G3 : map_get sid (sessionSubscribers t3) = Some [cb2]).
  { subst t3. simpl. apply map_get_set_same. }
  rewrite (unsubscribe_present sid cb2 [cb2] t3 G3).
  assert (D2 : set_delete cb2 [cb2] = []).
  { unfold set_delete. simpl. now rewrite Nat.eqb_refl. }
  rewrite D2. simpl (List.length [] =? 0)%nat. cbv iota.
  repeat split.
  - subst t1. unfold sent_frames at 1. simpl. fold (sent_frames (sendRaw (subscribe_frame sid) t)).
    rewrite sent_frames_sendRaw. now rewrite Hopen.
  - rewrite sent_frames_sendRaw.
    rewrite socket_open_with_sessionSubscribers.
    assert (O3 : socket_open t3 = true) by exact O1.
    now rewrite O3.
Qed.

Lemma subscribe_control_frames_witness :
  socket_open live = true /\
  map_has "s1" (sessionSubscribers live) = false /\
  1%nat <> 2%nat /\
  let t1 := subscribe "s1" 1%nat live in
  let t2 := subscribe "s1" 2%nat t1 in
  let t3 := unsubscribe "s1" 1%nat t2 in
  let t4 := unsubscribe "s1" 2%nat t3 in
  sent_frames t1 = sent_frames live ++ [subscribe_frame "s1"] /\
  sent_frames t2 = sent_frames t1 /\
  sent_frames t3 = sent_frames t2 /\
  sent_frames t4 = sent_frames t3 ++ [unsubscribe_frame "s1"].
Proof.
  split; [reflexivity|]. split; [reflexivity|]. split; [discriminate|].
  apply (subscribe_control_frames live "s1" 1%nat 2%nat);
    [reflexivity | reflexivity | discriminate].
Defined.

(** C8: the code at the call order of the repository's own hook, which
    subscribes first and connects afterwards.  The callback is
    registered, but the [subscribe] frame that [subscribe] means to send
    is dropped by the guard of [sendRaw], and nothing sends it once the
    socket has opened: the transport is [connected] with the session in
    its registry and the server was never told.  A further callback for
    the same session sends nothing either, the session being registered
    already.  Had the socket been open at the time of the call, the
    frame would have gone out. *)
Theorem subscription_before_open_is_lost
  (c : WebSocketTransportConfig) (sessionId : string) (callback other : nat) :
  let t0 := subscribe sessionId callback (constructor c) in
  let t1 := steps [Connect true; SocketOpened] t0 in
  let late := subscribe sessionId callback
                (steps [Connect true; SocketOpened] (constructor c)) in
  map_get sessionId (sessionSubscribers t0) = Some [callback] /\
  sent_frames t0 = [] /\
  status t1 = connected /\
  socket_open t1 = true /\
  map_get sessionId (sessionSubscribers t1) = Some [callback] /\
  sent_frames t1 = [] /\
  sent_frames (subscribe sessionId other t1) = [] /\
  sent_frames late = [subscribe_frame sessionId].
Proof.
  cbv zeta. unfold steps. cbn [fold_left step].
  unfold subscribe, connect, ws_onopen, set_readyState, startHeartbeat,
    stopHeartbeat, setStatus, sendRaw, socket_open, sent_frames, map_has.
  cbn. repeat (rewrite String.eqb_refl; cbn).
  repeat split; reflexivity.
Qed.

End TransportFacts.

(* ================================================================== *)
(** * Facts about the normalizer                                       *)
(* ================================================================== *)

Module NormalizerFacts.
Import Js Normalizer.

(** [String()] cannot fail on a primitive. *)
Lemma ToString_primitive v :
  match v with VArr _ | VObj _ => False | _ => True end ->
  is_ok (ToString v) = true.
Proof. destruct v as [| |[]| | | |]; simpl; tauto. Qed.

Lemma normalize_non_object now raw :
  object_input raw = false -> normalize now raw = Ok None.
Proof.
  unfold object_input, normalize. intros H.
  destruct (truthy raw), (is_object_tag (typeof raw)); simpl in *;
    congruence.
Qed.

(** C3, as stated, fails: [normalize] raises a [TypeError] on the parsed
    frame [{"type":{"toString":1}}], whose [type] cannot be converted by
    [String()]. *)
Lemma normalize_raises_on_shadowed_toString :
  object_input shadowed_toString = true /\
  normalize "2024-05-01T10:00:00Z" shadowed_toString = Throw TypeError.
Proof. split; reflexivity. Qed.

(** C3 (amended): on every input for which [String()] succeeds on the
    values selected for [type], [sessionId] and [timestamp], [normalize]
    does not raise; it returns [null] for a non-object or [null] input, and
    for an object an event whose [type] is ["message"] when absent, whose
    [sessionId] comes from [sessionId], else [session_id], else is empty,
    whose [payload] is [payload], else [data], else the raw object, and
    whose [timestamp] comes from [timestamp], else [createdAt], else the
    current time. *)
Theorem normalize_spec (now : string) (raw : value) :
  is_ok (ToString (type_source raw)) = true ->
  is_ok (ToString (sessionId_source raw)) = true ->
  is_ok (ToString (timestamp_source now raw)) = true ->
  (object_input raw = false -> normalize now raw = Ok None) /\
  (object_input raw = true ->
   exists ev,
     normalize now raw = Ok (Some ev) /\
     (* type *)
     (get_prop raw "type" = VUndefined -> type ev = "message") /\
     (truthy (get_prop raw "type") = true ->
      ToString (get_prop raw "type") = Ok (type ev)) /\
     (* sessionId *)
     (truthy (get_prop raw "sessionId") = true ->
      ToString (get_prop raw "sessionId") = Ok (sessionId ev)) /\
     (truthy (get_prop raw "sessionId") = false ->
      truthy (get_prop raw "session_id") = true ->
      ToString (get_prop raw "session_id") = Ok (sessionId ev)) /\
     (get_prop raw "sessionId" = VUndefined ->
      get_prop raw "session_id" = VUndefined -> sessionId ev = "") /\
     (* payload *)
     (nullish (get_prop raw "payload") = false ->
      payload ev = get_prop raw "payload") /\
     (nullish (get_prop raw "payload") = true ->
      nullish (get_prop raw "data") = false ->
      payload ev = get_prop raw "data") /\
     (nullish (get_prop raw "payload") = true ->
      nullish (get_prop raw "data") = true -> payload ev = raw) /\
     (* timestamp *)
     (truthy (get_prop raw "timestamp") = true ->
      ToString (get_prop raw "timestamp") = Ok (timestamp ev)) /\
     (truthy (get_prop raw "timestamp") = false ->
      truthy (get_prop raw "createdAt") = true ->
      ToString (get_prop raw "createdAt") = Ok (timestamp ev)) /\
     (get_prop raw "timestamp" = VUndefined ->
      get_prop raw "createdAt" = VUndefined -> timestamp ev = now) /\
     raw = Normalizer.raw ev).
Proof.
  intros Hty Hsid Hts. split; [apply normalize_non_object|].
  intros Hobj. unfold normalize.
  fold (object_input raw) in Hobj.
  assert (G : negb (truthy raw) || negb (is_object_tag (typeof raw)) = false).
  { unfold object_input in Hobj.
    destruct (truthy raw), (is_object_tag (typeof raw)); simpl in *;
      congruence. }
  rewrite G. clear G.
  fold (type_source raw) (sessionId_source raw) (timestamp_source now raw).
  destruct (ToString (type_source raw)) as [ty|] eqn:Ety; [|discriminate].
  destruct (ToString (sessionId_source raw)) as [sid|] eqn:Esid;
    [|discriminate].
  destruct (ToString (timestamp_source now raw)) as [ts|] eqn:Ets;
    [|discriminate].
  cbn [bind]. eexists. split; [reflexivity|].
  cbn [type sessionId payload timestamp Normalizer.raw].
  unfold type_source, sessionId_source, timestamp_source, or_else, coalesce
    in *.
  repeat split.
  - intros H. rewrite H in Ety. simpl in Ety. congruence.
  - intros H. rewrite H in Ety. exact Ety.
  - intros H. rewrite H in Esid. cbn iota in Esid. rewrite H in Esid.
    exact Esid.
  - intros H1 H2. rewrite H1 in Esid. cbn iota in Esid. rewrite H2 in Esid.
    exact Esid.
  - intros H1 H2. rewrite H1, H2 in Esid. simpl in Esid. congruence.
  - intros H. rewrite H. cbn iota. now rewrite H.
  - intros H1 H2. rewrite H1. cbn iota. now rewrite H2.
  - intros H1 H2. rewrite H1. cbn iota. now rewrite H2.
  - intros H. rewrite H in Ets. cbn iota in Ets. rewrite H in Ets.
    exact Ets.
  - intros H1 H2. rewrite H1 in Ets. cbn iota in Ets. rewrite H2 in Ets.
    exact Ets.
  - intros H1 H2. rewrite H1, H2 in Ets. simpl in Ets. congruence.
Qed.

Lemma normalize_spec_witness :
  exists ev,
    normalize "2024-05-02T08:30:00Z" legacy_frame = Ok (Some ev) /\
    type ev = "message" /\
    sessionId ev = "12" /\
    payload ev = VArr [VNum 1; VNull; VStr "x"] /\
    timestamp ev = "2024-05-01T10:00:00Z".
Proof.
  destruct (normalize_spec "2024-05-02T08:30:00Z" legacy_frame
              eq_refl eq_refl eq_refl) as [_ H].
  destruct (H eq_refl)
    as (ev & E & Hty & _ & _ & Hsid & _ & _ & Hdata & _ & _ & Hts & _).
  exists ev. split; [exact E|].
  split; [apply Hty; reflexivity|].
  split; [specialize (Hsid eq_refl eq_refl); vm_compute in Hsid;
          now injection Hsid|].
  split; [apply Hdata; reflexivity|].
  specialize (Hts eq_refl eq_refl). vm_compute in Hts. now injection Hts.
Defined.

End NormalizerFacts.

(* ================================================================== *)
(** * Facts about the streaming state machine                          *)
(* ================================================================== *)

Module StreamingFacts.
Import Js StreamingState.

Lemma option_string_eqb_eq a b : option_string_eqb a b = true <-> a = b.
Proof.
  destruct a as [x|], b as [y|]; simpl; split; try congruence.
  - intros H. apply String.eqb_eq in H. congruence.
  - intros H. injection H as ->. apply String.eqb_refl.
Qed.

Lemma option_string_eqb_neq a b : a <> b -> option_string_eqb a b = false.
Proof.
  intros H. destruct (option_string_eqb a b) eqn:E; auto.
  apply option_string_eqb_eq in E. contradiction.
Qed.

(** Whatever came before, after [onPartialContent] the machine is
    streaming for the given session. *)
Lemma onPartialContent_state h session content m :
  isStreaming (state (onPartialContent h session content m)) = true /\
  sessionId (state (onPartialContent h session content m)) = Some session.
Proof.
  unfold onPartialContent, setState. simpl.
  destruct (isStreaming (state m)) eqn:Es; simpl; auto.
  destruct (option_string_eqb (sessionId (state m)) (Some session)) eqn:Eid;
    simpl; auto.
  apply option_string_eqb_eq in Eid.
  destruct (contentBlocksEqual _ _ _); simpl; auto.
Qed.

(** [setState] to a state that differs in [isStreaming] installs it. *)
Lemma setState_installs h newState m :
  isStreaming (state m) <> isStreaming newState ->
  state (setState h newState m) = newState.
Proof.
  intros H. unfold setState.
  destruct (isStreaming (state m)), (isStreaming newState);
    simpl; congruence.
Qed.

(** [onComplete] with no session tracked always ends in the initial
    state. *)
Lemma onComplete_untracked h session b pc ls ns :
  getState (onComplete h session
              {| state := {| isStreaming := b; partialContent := pc;
                             sessionId := None |};
                 listeners := ls; notified := ns |})
  = INITIAL_STATE.
Proof.
  unfold onComplete, setState, getState. simpl.
  destruct b, pc; reflexivity.
Qed.

(** C4: after [onPartialContent s1 content], a completion for another
    session [s2] changes nothing (the machine, its state and the calls to
    listeners are as before: streaming, session [s1]); a following
    completion for [s1] returns the state to the initial
    [{false, null, null}]; and [onComplete] clears whenever no session is
    tracked.  This holds for every array handed over and whatever the
    caller's arrays hold at the time of each call. *)
Theorem stale_completion_ignored
  (h1 h2 h3 : Heap) (m : DefaultStreamingStateMachine) (s1 s2 : string)
  (content : Ref) :
  s1 <> s2 ->
  let m1 := onPartialContent h1 s1 content m in
  let m2 := onComplete h2 s2 m1 in
  let m3 := onComplete h3 s1 m2 in
  m2 = m1 /\
  isStreaming (getState m2) = true /\
  sessionId (getState m2) = Some s1 /\
  getState m3 = INITIAL_STATE /\
  (forall h session b pc ls ns,
      getState (onComplete h session
                  {| state := {| isStreaming := b; partialContent := pc;
                                 sessionId := None |};
                     listeners := ls; notified := ns |})
      = INITIAL_STATE).
Proof.
  intros Hne. cbv zeta.
  destruct (onPartialContent_state h1 s1 content m) as [Hs Hid].
  assert (E2 : onComplete h2 s2 (onPartialContent h1 s1 content m)
               = onPartialContent h1 s1 content m).
  { unfold onComplete. rewrite Hid. simpl.
    destruct (String.eqb_spec s1 s2); [contradiction | reflexivity]. }
  rewrite E2. unfold getState.
  repeat split; auto.
  - unfold onComplete. rewrite Hid. simpl. rewrite String.eqb_refl. simpl.
    apply setState_installs. rewrite Hs. simpl. discriminate.
  - intros. apply onComplete_untracked.
Qed.

Lemma stale_completion_ignored_witness :
  "s1" <> "s2" /\
  let m1 := onPartialContent arrays "s1" 1%nat observed in
  let m2 := onComplete arrays "s2" m1 in
  let m3 := onComplete arrays "s1" m2 in
  m2 = m1 /\
  isStreaming (getState m2) = true /\
  sessionId (getState m2) = Some "s1" /\
  getState m3 = INITIAL_STATE.
Proof.
  split; [discriminate|].
  destruct (stale_completion_ignored arrays arrays arrays observed
              "s1" "s2" 1%nat)
    as (H1 & H2 & H3 & H4 & _); [discriminate|].
  repeat split; assumption.
Defined.

(** The same run on the observed machine: the listener hears of the
    partial content and of the matching completion, not of the stale one. *)
Example stale_completion_run :
  let m1 := onPartialContent arrays "s1" 1%nat observed in
  let m2 := onComplete arrays "s2" m1 in
  let m3 := onComplete arrays "s1" m2 in
  notified m2 = [(7%nat, {| isStreaming := true;
                            partialContent := Some 1%nat;
                            sessionId := Some "s1" |})] /\
  notified m3 = notified m2 ++ [(7%nat, INITIAL_STATE)].
Proof. split; reflexivity. Qed.

End StreamingFacts.

(* ================================================================== *)
(** * Facts about the message store                                    *)
(* ================================================================== *)

Module StoreFacts.
Import Js JsFacts MessageStore.

(** ** Lists of ids *)

Lemma filter_neq_absent (k : string) (l : list string) :
  ~ In k l -> filter (fun k' => negb (k' =? k)%string) l = l.
Proof.
  induction l as [|a l IH]; simpl; auto.
  intros H. destruct (String.eqb_spec a k); simpl.
  - subst. tauto.
  - f_equal. apply IH. tauto.
Qed.

Lemma first_seen_In (k : string) (l : list string) :
  In k (first_seen l) <-> In k l.
Proof.
  induction l as [|a l IH]; simpl; [tauto|].
  rewrite filter_In, IH. destruct (String.eqb_spec k a); simpl.
  - subst. tauto.
  - split; [tauto|]. intros [H|H]; [congruence|auto].
Qed.

Lemma first_seen_NoDup (l : list string) : NoDup (first_seen l).
Proof.
  induction l as [|a l IH]; simpl; constructor.
  - rewrite filter_In. rewrite String.eqb_refl. simpl.
    intros [_ H]. discriminate.
  - now apply NoDup_filter.
Qed.

Lemma filter_filter_absorb (p : string -> bool) (k : string)
  (l : list string) :
  p k = false ->
  filter p (filter (fun k' => negb (k' =? k)%string) l) = filter p l.
Proof.
  intros Hp. induction l as [|a l IH]; simpl; auto.
  destruct (String.eqb_spec a k); simpl.
  - subst. now rewrite Hp.
  - now rewrite IH.
Qed.

Lemma filter_comm {A : Type} (p q : A -> bool) (l : list A) :
  filter p (filter q l) = filter q (filter p l).
Proof.
  induction l as [|a l IH]; simpl; auto.
  destruct (p a) eqn:Ep, (q a) eqn:Eq; simpl; rewrite ?Ep, ?Eq, IH; auto.
Qed.

Lemma first_seen_filter (p : string -> bool) (l : list string) :
  first_seen (filter p l) = filter p (first_seen l).
Proof.
  induction l as [|a l IH]; simpl; auto.
  destruct (p a) eqn:Ep; simpl.
  - rewrite IH. f_equal. apply filter_comm.
  - rewrite IH. symmetry. now apply filter_filter_absorb.
Qed.

Lemma first_seen_snoc (k : string) (l : list string) :
  first_seen (l ++ [k])
  = first_seen l ++ (if existsb (String.eqb k) l then [] else [k]).
Proof.
  induction l as [|a l IH]; simpl; auto.
  rewrite IH, filter_app. f_equal. f_equal.
  destruct (String.eqb_spec k a); simpl.
  - subst. destruct (existsb (String.eqb a) l); simpl; auto.
    now rewrite String.eqb_refl.
  - destruct (existsb (String.eqb k) l); simpl; auto.
    destruct (String.eqb_spec k a); simpl; congruence.
Qed.

Lemma existsb_eqb_In (k : string) (l : list string) :
  existsb (String.eqb k) l = true <-> In k l.
Proof.
  rewrite existsb_exists. split.
  - intros (x & Hx & E). apply String.eqb_eq in E. now subst.
  - intros H. exists k. split; auto. apply String.eqb_refl.
Qed.

(** ** The [Map] operations *)

Section MapOps.
Context {V : Type}.
Implicit Types (m : list (string * V)) (k : string) (v : V).

Lemma map_get_set k k' v m :
  map_get k' (map_set k v m)
  = if (k =? k')%string then Some v else map_get k' m.
Proof.
  destruct (String.eqb_spec k k').
  - subst. apply map_get_set_same.
  - now apply map_get_set_other.
Qed.

Lemma map_keys_set k v m :
  map_keys (map_set k v m)
  = map_keys m ++ (if map_has k m then [] else [k]).
Proof.
  destruct (map_has k m) eqn:E.
  - rewrite app_nil_r. apply map_keys_set_present. now apply map_has_keys.
  - rewrite map_set_absent by now apply map_has_false_keys.
    unfold map_keys. now rewrite map_app.
Qed.

Lemma map_has_existsb k m :
  map_has k m = existsb (String.eqb k) (map_keys m).
Proof.
  destruct (map_has k m) eqn:E; symmetry.
  - apply existsb_eqb_In. now apply map_has_keys.
  - apply not_true_is_false. rewrite existsb_eqb_In.
    now apply map_has_false_keys.
Qed.

Lemma map_get_In k v m : map_get k m = Some v -> In (k, v) m.
Proof.
  induction m as [|[k' x] m IH]; simpl; [discriminate|].
  destruct (String.eqb_spec k' k).
  - intros H. injection H as ->. subst. now left.
  - auto.
Qed.

Lemma map_set_In k v k' v' m :
  In (k', v') (map_set k v m) -> (k', v') = (k, v) \/ In (k', v') m.
Proof.
  induction m as [|[k0 x] m IH]; simpl.
  - intros [H|[]]. now left.
  - destruct (String.eqb_spec k0 k); simpl.
    + subst. intros [H|H]; [left; now symmetry | auto].
    + intros [H|H]; auto. destruct (IH H); auto.
Qed.

(** Under distinct keys, [set] on a present key rewrites that entry and no
    other. *)
Lemma map_values_set_present k v m :
  NoDup (map_keys m) -> map_has k m = true ->
  map_values (map_set k v m)
  = map (fun kv => if (fst kv =? k)%string then v else snd kv) m.
Proof.
  unfold map_values, map_keys.
  induction m as [|[k' x] m IH]; simpl; [discriminate|].
  intros Hnd Hhas. inversion Hnd as [|? ? Hnotin Hnd']; subst.
  unfold map_has in *. simpl in Hhas.
  destruct (String.eqb_spec k' k); simpl.
  - subst. f_equal. clear IH Hhas Hnd Hnd'.
    induction m as [|[k0 y] m IHm]; simpl in *; auto.
    destruct (String.eqb_spec k0 k); [subst; tauto|].
    f_equal. apply IHm. tauto.
  - f_equal. now apply IH.
Qed.

Lemma map_values_set_absent k v m :
  map_has k m = false -> map_values (map_set k v m) = map_values m ++ [v].
Proof.
  intros H. rewrite map_set_absent by now apply map_has_false_keys.
  unfold map_values. now rewrite map_app.
Qed.

(** Under distinct keys the values are listed in key order. *)
Lemma map_values_by_key m :
  NoDup (map_keys m) ->
  Forall2 (fun k x => map_get k m = Some x) (map_keys m) (map_values m).
Proof.
  unfold map_keys, map_values.
  induction m as [|[k x] m IH]; simpl; intros Hnd; constructor.
  - now rewrite String.eqb_refl.
  - inversion Hnd as [|? ? Hnotin Hnd']; subst.
    specialize (IH Hnd').
    assert (G : forall k', In k' (map fst m) -> (k =? k')%string = false).
    { intros k' Hin. apply String.eqb_neq. intros ->. contradiction. }
    clear Hnd Hnd' Hnotin.
    induction IH as [|k' y ks ys Hhd Htl IH']; constructor.
    + rewrite (G k'); [exact Hhd | now left].
    + apply IH'. intros k'' Hin. apply G. now right.
Qed.
End MapOps.

(** ** The store *)

Lemma existsb_first_seen (k : string) (l : list string) :
  existsb (String.eqb k) (first_seen l) = existsb (String.eqb k) l.
Proof.
  destruct (existsb (String.eqb k) l) eqn:E.
  - apply existsb_eqb_In. apply first_seen_In. now apply existsb_eqb_In.
  - apply not_true_is_false. rewrite existsb_eqb_In, first_seen_In.
    rewrite <- existsb_eqb_In. congruence.
Qed.

Section Batch.
Variable TMessage : Type.
Variable id : TMessage -> string.

Implicit Types (M : list (string * TMessage)) (ms : list TMessage).
Implicit Types (s : InMemoryMessageStore TMessage).

Lemma last_with_sound k ms x :
  last_with id k ms = Some x -> id x = k /\ In x ms.
Proof.
  induction ms as [|a ms IH]; simpl; [discriminate|].
  destruct (last_with id k ms) as [y|].
  - intros H. injection H as ->. destruct (IH eq_refl). auto.
  - destruct (String.eqb_spec (id a) k); [|discriminate].
    intros H. injection H as ->. auto.
Qed.

Lemma last_with_complete m ms :
  In m ms -> exists x, last_with id (id m) ms = Some x.
Proof.
  induction ms as [|a ms IH]; simpl; [tauto|].
  intros [->|H].
  - destruct (last_with id (id m) ms); eauto.
    rewrite String.eqb_refl. eauto.
  - destruct (IH H) as [x ->]. eauto.
Qed.

Lemma last_with_none k ms :
  last_with id k ms = None <-> ~ In k (map id ms).
Proof.
  induction ms as [|a ms IH]; simpl; [tauto|].
  destruct (last_with id k ms) as [y|] eqn:E.
  - split; [discriminate|]. intros H. exfalso. apply H. right.
    destruct (last_with_sound k ms y E) as [<- Hin]. now apply in_map.
  - destruct (String.eqb_spec (id a) k).
    + split; [discriminate|]. intros H. exfalso. apply H. now left.
    + split; auto. intros _ [H|H]; [contradiction|]. now apply IH.
Qed.

(** What the loop of [addMessages] leaves under a key. *)
Lemma set_all_get ms M k :
  map_get k (set_all id ms M)
  = match last_with id k ms with
    | Some x => Some x
    | None => map_get k M
    end.
Proof.
  revert M. induction ms as [|a ms IH]; intros M; simpl; auto.
  fold (set_all id ms (map_set (id a) a M)). rewrite IH.
  destruct (last_with id k ms); auto.
  rewrite map_get_set. now destruct (id a =? k)%string.
Qed.

(** The key order after the loop. *)
Lemma set_all_keys ms M h :
  map_keys M = first_seen h ->
  map_keys (set_all id ms M) = first_seen (h ++ map id ms).
Proof.
  revert M h. induction ms as [|a ms IH]; intros M h HM; simpl.
  - now rewrite app_nil_r.
  - fold (set_all id ms (map_set (id a) a M)).
    change (h ++ id a :: map id ms) with (h ++ [id a] ++ map id ms).
    rewrite app_assoc. apply IH.
    rewrite map_keys_set, first_seen_snoc, map_has_existsb, HM.
    now rewrite existsb_first_seen.
Qed.

Lemma set_all_keyed ms M :
  (forall k m, In (k, m) M -> id m = k) ->
  forall k m, In (k, m) (set_all id ms M) -> id m = k.
Proof.
  revert M. induction ms as [|a ms IH]; intros M HM; simpl; auto.
  apply IH. intros k m Hin.
  destruct (map_set_In _ _ _ _ _ Hin) as [E|Hin']; [|auto].
  now injection E as -> ->.
Qed.

Lemma keyed_ids M :
  (forall k m, In (k, m) M -> id m = k) ->
  map id (map_values M) = map_keys M.
Proof.
  unfold map_values, map_keys.
  induction M as [|[k x] M IH]; simpl; intros H; auto.
  f_equal.
  - apply H. now left.
  - apply IH. intros k' m Hin. apply H. now right.
Qed.

Lemma keys_self_seen (l : list string) : NoDup l -> l = first_seen l.
Proof.
  induction 1 as [|a l Hnotin Hnd IH]; simpl; auto.
  f_equal. rewrite <- IH. symmetry. now apply filter_neq_absent.
Qed.

(** C5 (amended): for every batch passed to [addMessages], on a store
    whose every entry sits under its own id (true of a new store and kept
    by every operation except an [updateMessage] whose update changes the
    id), the store afterwards holds exactly one entry per distinct id
    (the ids it had and those of the batch), the entry of an id of the
    batch is the last message supplied with that id, and every subscribed
    listener is called once, with the full snapshot. *)
Theorem addMessages_spec ms s :
  NoDup (map_keys (messages s)) ->
  keyed_by_id id s ->
  let s' := addMessages id ms s in
  NoDup (map id (getMessages s')) /\
  (forall k, In k (map id (getMessages s'))
             <-> In k (map id (getMessages s)) \/ In k (map id ms)) /\
  (forall m, In m ms ->
     exists x, last_with id (id m) ms = Some x /\
               getMessage (id m) s' = Some x /\
               In x (getMessages s')) /\
  listeners s' = listeners s /\
  notified s'
  = notified s ++ map (fun l => (l, getMessages s')) (listeners s).
Proof.
  intros Hnd Hkeyed. cbv zeta.
  unfold addMessages, notifyListeners, getMessages, getMessage. simpl.
  pose proof (set_all_keys ms (messages s) (map_keys (messages s))
                (keys_self_seen _ Hnd)) as Hkeys.
  pose proof (set_all_keyed ms (messages s) Hkeyed) as Hkeyed'.
  rewrite (keyed_ids _ Hkeyed'), (keyed_ids _ Hkeyed), Hkeys.
  repeat split.
  - apply first_seen_NoDup.
  - rewrite first_seen_In, in_app_iff. tauto.
  - rewrite first_seen_In, in_app_iff. tauto.
  - intros m Hin. destruct (last_with_complete m ms Hin) as [x Hx].
    exists x. split; [exact Hx|].
    assert (G : map_get (id m) (set_all id ms (messages s)) = Some x).
    { rewrite set_all_get. now rewrite Hx. }
    split; [exact G|].
    apply map_get_In in G. unfold map_values.
    change x with (snd (id m, x)). now apply in_map.
Qed.

End Batch.

(** C5, as stated, fails: the [Map] is keyed by the id a message had when
    it was added, and [updateMessage] may change the id the entry
    carries.  After [addMessage {id: "a"}], [updateMessage("a", {id:
    "b"})] and [addMessages([{id: "b"}])] the store holds two entries
    with the id ["b"]. *)
Lemma addMessages_after_id_rewrite :
  getMessages renamed = [("b", "first")] /\
  getMessages (addMessages fst [("b", "fresh")] renamed)
  = [("b", "first"); ("b", "fresh")] /\
  ~ NoDup (map fst (getMessages (addMessages fst [("b", "fresh")] renamed))).
Proof.
  split; [reflexivity|]. split; [reflexivity|].
  intros H. inversion H as [|x l Hnotin _]; subst.
  apply Hnotin. now left.
Qed.

Lemma addMessages_spec_witness :
  NoDup (map_keys (messages seeded)) /\
  keyed_by_id fst seeded /\
  let s' := addMessages fst batch seeded in
  getMessages s' = [("a", "second"); ("b", "two")] /\
  NoDup (map fst (getMessages s')) /\
  notified s'
  = notified seeded ++ [(1%nat, getMessages s'); (2%nat, getMessages s')].
Proof.
  assert (Hnd : NoDup (map_keys (messages seeded))).
  { simpl. constructor; [simpl; tauto | constructor]. }
  assert (Hk : keyed_by_id fst seeded).
  { intros k m [H|[]]. now injection H as <- <-. }
  split; [exact Hnd|]. split; [exact Hk|].
  destruct (addMessages_spec Note fst batch seeded Hnd Hk)
    as (H1 & _ & _ & _ & H5).
  split; [reflexivity|]. split; [exact H1 | exact H5].
Defined.

(** ** Order of iteration *)

Section Order.
Variables TMessage Partial : Type.
Variable id : TMessage -> string.
Variable spread : TMessage -> Partial -> TMessage.

Implicit Types (s : InMemoryMessageStore TMessage).

Lemma apply_keys (op : Mutation TMessage Partial) s h :
  map_keys (messages s) = first_seen h ->
  map_keys (messages (apply id spread s op)) = first_seen (record id h op).
Proof.
  intros Hs. destruct op as [m|ms|k u|k|]; simpl.
  - rewrite map_keys_set, first_seen_snoc, map_has_existsb, Hs.
    now rewrite existsb_first_seen.
  - now apply set_all_keys.
  - unfold updateMessage.
    destruct (map_get k (messages s)) as [x|] eqn:E; [|exact Hs].
    simpl. rewrite map_keys_set_present; [exact Hs|].
    apply map_has_keys. unfold map_has. now rewrite E.
  - unfold removeMessage. rewrite first_seen_filter, <- Hs.
    destruct (map_has k (messages s)) eqn:E; simpl.
    + apply map_keys_delete.
    + symmetry. apply filter_neq_absent. now apply map_has_false_keys.
  - reflexivity.
Qed.

Lemma run_keys (ops : list (Mutation TMessage Partial)) s h :
  map_keys (messages s) = first_seen h ->
  map_keys (messages (run id spread ops s))
  = first_seen (fold_left (record id) ops h).
Proof.
  revert s h. induction ops as [|op ops IH]; intros s h Hs; simpl; auto.
  apply IH. now apply apply_keys.
Qed.

(** C6: after any sequence of mutations on a new store, [getMessages]
    lists the messages in the order in which their ids were first seen
    (since the id was last removed); adding a message whose id is present
    rewrites that entry where it stands and moves nothing, and adding a
    message with a new id appends it. *)
Theorem insertion_order
  (ops : list (Mutation TMessage Partial)) (m : TMessage) :
  let s := run id spread ops empty in
  map_keys (messages s) = first_seen (history id ops) /\
  Forall2 (fun k x => getMessage k s = Some x)
          (first_seen (history id ops)) (getMessages s) /\
  map_keys (messages (addMessage id m s))
  = (if map_has (id m) (messages s)
     then map_keys (messages s)
     else map_keys (messages s) ++ [id m]) /\
  getMessages (addMessage id m s)
  = (if map_has (id m) (messages s)
     then map (fun kv => if (fst kv =? id m)%string then m else snd kv)
              (messages s)
     else getMessages s ++ [m]).
Proof.
  cbv zeta.
  assert (Hk : map_keys (messages (run id spread ops empty))
               = first_seen (history id ops)).
  { apply run_keys. reflexivity. }
  assert (Hnd : NoDup (map_keys (messages (run id spread ops empty)))).
  { rewrite Hk. apply first_seen_NoDup. }
  split; [exact Hk|]. split; [|split].
  - rewrite <- Hk. unfold getMessage, getMessages.
    now apply map_values_by_key.
  - unfold addMessage. simpl. rewrite map_keys_set.
    destruct (map_has _ _); auto. apply app_nil_r.
  - unfold addMessage, getMessages. simpl.
    destruct (map_has (id m) (messages (run id spread ops empty))) eqn:E.
    + now apply map_values_set_present.
    + now apply map_values_set_absent.
Qed.

(** Keys are distinct after any run, and entries sit under their ids as
    long as no update rewrites an id. *)
Lemma run_keys_NoDup (ops : list (Mutation TMessage Partial)) :
  NoDup (map_keys (messages (run id spread ops empty))).
Proof.
  rewrite (run_keys ops empty []) by reflexivity. apply first_seen_NoDup.
Qed.

Lemma apply_keyed (op : Mutation TMessage Partial) s :
  (forall m u, id (spread m u) = id m) ->
  keyed_by_id id s -> keyed_by_id id (apply id spread s op).
Proof.
  intros Hspread Hs. unfold keyed_by_id in *.
  destruct op as [m|ms|k u|k|]; simpl.
  - intros k' m' Hin. destruct (map_set_In _ _ _ _ _ Hin) as [E|]; auto.
    now injection E as -> ->.
  - now apply set_all_keyed.
  - unfold updateMessage.
    destruct (map_get k (messages s)) as [x|] eqn:E; [|exact Hs].
    simpl. intros k' m' Hin.
    destruct (map_set_In _ _ _ _ _ Hin) as [E'|]; auto.
    injection E' as -> ->. rewrite Hspread.
    apply Hs. now apply map_get_In.
  - unfold removeMessage. destruct (map_has k (messages s)); [|exact Hs].
    simpl. intros k' m' Hin. apply filter_In in Hin. now apply Hs.
  - intros k' m' [].
Qed.

Lemma run_keyed (ops : list (Mutation TMessage Partial)) s :
  (forall m u, id (spread m u) = id m) ->
  keyed_by_id id s -> keyed_by_id id (run id spread ops s).
Proof.
  intros Hspread. revert s.
  induction ops as [|op ops IH]; intros s Hs; simpl; auto.
  apply IH. now apply apply_keyed.
Qed.

End Order.

End StoreFacts.

(* ================================================================== *)
(** * Facts about the timeline builder                                 *)
(* ================================================================== *)

Module TimelineFacts.
Import Js JsFacts Timeline.

(** ** Deduplication *)





Section Builder.
Variable localeCompare : string -> string -> Z.




End Builder.



(** ** Sorting *)

Section Sorting.
Variable localeCompare : string -> string -> Z.

Lemma compare_rule_both_missing rule a b :
  missing (field rule) a = true -> missing (field rule) b = true ->
  compare_rule localeCompare rule a b = Ok None.
Proof.
  unfold missing, compare_rule. intros Ha Hb. now rewrite Ha, Hb.
Qed.

Lemma compare_rule_missing_left rule a b :
  missing (field rule) a = true -> missing (field rule) b = false ->
  compare_rule localeCompare rule a b = Ok (Some 1).
Proof.
  unfold missing, compare_rule. intros Ha Hb. now rewrite Ha, Hb.
Qed.

Lemma compare_rule_missing_right rule a b :
  missing (field rule) a = false -> missing (field rule) b = true ->
  compare_rule localeCompare rule a b = Ok (Some (-1)).
Proof.
  unfold missing, compare_rule. intros Ha Hb. now rewrite Ha, Hb.
Qed.

Lemma compare_rule_numbers rule a b x y :
  getFieldValue a (field rule) = VNum x ->
  getFieldValue b (field rule) = VNum y ->
  compare_rule localeCompare rule a b
  = Ok (if x =? y then None
        else Some (oriented (direction rule) (x - y))).
Proof.
  unfold compare_rule, oriented. intros -> ->. simpl.
  destruct (Z.eqb_spec x y), (Z.eqb_spec (x - y) 0); try lia; reflexivity.
Qed.

Lemma compare_rule_strings rule a b x y :
  getFieldValue a (field rule) = VStr x ->
  getFieldValue b (field rule) = VStr y ->
  compare_rule localeCompare rule a b
  = Ok (if localeCompare x y =? 0 then None
        else Some (oriented (direction rule) (localeCompare x y))).
Proof.
  unfold compare_rule, oriented. intros -> ->. simpl.
  destruct (localeCompare x y =? 0); reflexivity.
Qed.

(** The first rule with a verdict decides. *)
Lemma compare_rules_decides pre rule post a b c :
  Forall (fun q => compare_rule localeCompare q a b = Ok None) pre ->
  compare_rule localeCompare rule a b = Ok (Some c) ->
  compare_rules localeCompare (pre ++ rule :: post) a b = Ok c.
Proof.
  intros Hpre Hrule. induction Hpre as [|q pre Hq Hpre IH]; simpl.
  - now rewrite Hrule.
  - now rewrite Hq.
Qed.

Lemma compare_rules_undecided rules a b :
  Forall (fun q => compare_rule localeCompare q a b = Ok None) rules ->
  compare_rules localeCompare rules a b = Ok 0.
Proof.
  induction 1 as [|q rules Hq Hall IH]; simpl; auto. now rewrite Hq.
Qed.

(** *** Items without a value under the leading rule go last *)

Section Leading.
Variables (rule : SortingRule) (rest : list SortingRule).

Local Abbreviation cmp := (compare_rules localeCompare (rule :: rest)).
Local Abbreviation has_value := (fun item => present (field rule) item = true).
Local Abbreviation lacks_value := (fun item => missing (field rule) item = true).

Lemma present_not_missing item :
  present (field rule) item = true -> missing (field rule) item = false.
Proof. unfold present. now destruct (missing _ _). Qed.

Lemma missing_or_present item :
  {missing (field rule) item = true} + {present (field rule) item = true}.
Proof. unfold present. destruct (missing _ _); auto. Qed.

Lemma insert_lacking x l1 l2 r :
  lacks_value x -> Forall has_value l1 ->
  insert cmp x (l1 ++ l2) = Ok r ->
  exists l2', insert cmp x l2 = Ok l2' /\ r = l1 ++ l2'.
Proof.
  intros Hx Hl1. revert r.
  induction Hl1 as [|y l1 Hy Hl1 IH]; intros r H; simpl in *.
  - eauto.
  - rewrite (compare_rule_missing_left rule x y Hx
               (present_not_missing y Hy)) in H.
    simpl in H. apply bind_ok in H. destruct H as (r' & Hr' & H).
    injection H as <-.
    destruct (IH r' Hr') as (l2' & E & ->). eauto.
Qed.

Lemma insert_having x l1 l2 r :
  has_value x -> Forall has_value l1 -> Forall lacks_value l2 ->
  insert cmp x (l1 ++ l2) = Ok r ->
  exists l1', r = l1' ++ l2 /\ Forall has_value l1'.
Proof.
  intros Hx Hl1 Hl2. revert r.
  induction Hl1 as [|y l1 Hy Hl1 IH]; intros r H; simpl in H.
  - destruct Hl2 as [|z l2 Hz Hl2]; simpl in H.
    + injection H as <-. exists [x]. auto.
    + rewrite (compare_rule_missing_right rule x z
                 (present_not_missing x Hx) Hz) in H.
      simpl in H. injection H as <-. exists [x]. auto.
  - apply bind_ok in H. destruct H as (c & _ & H).
    destruct (c <=? 0).
    + injection H as <-. exists (x :: y :: l1). auto.
    + apply bind_ok in H. destruct H as (r' & Hr' & H). injection H as <-.
      destruct (IH r' Hr') as (l1' & -> & Hl1').
      exists (y :: l1'). auto.
Qed.

Lemma sort_lacking_last l r :
  sort cmp l = Ok r ->
  exists l1 l2, r = l1 ++ l2 /\ Forall has_value l1 /\ Forall lacks_value l2.
Proof.
  revert r. induction l as [|x l IH]; simpl; intros r H.
  - injection H as <-. exists [], []. auto.
  - apply bind_ok in H. destruct H as (s & Hs & H).
    destruct (IH s Hs) as (l1 & l2 & -> & Hl1 & Hl2).
    destruct (missing_or_present x) as [Hx|Hx].
    + destruct (insert_lacking x l1 l2 r Hx Hl1 H) as (l2' & E & ->).
      exists l1, l2'. repeat split; auto.
      apply insert_perm in E.
      apply Forall_forall. intros z Hz.
      apply (Permutation_in _ (Permutation_sym E)) in Hz.
      destruct Hz as [<-|Hz]; auto.
      now apply (proj1 (Forall_forall _ _) Hl2).
    + destruct (insert_having x l1 l2 r Hx Hl1 Hl2 H) as (l1' & -> & Hl1').
      exists l1', l2. auto.
Qed.

Lemma partition_filters (l1 l2 : list value) :
  Forall has_value l1 -> Forall lacks_value l2 ->
  filter (present (field rule)) (l1 ++ l2) = l1 /\
  filter (missing (field rule)) (l1 ++ l2) = l2.
Proof.
  intros H1 H2. rewrite !filter_app. split.
  - replace (filter (present (field rule)) l2) with (@nil value).
    + rewrite app_nil_r. apply forallb_filter_id.
      apply forallb_forall. now apply Forall_forall.
    + symmetry. induction H2 as [|z l2 Hz H2 IH]; simpl; auto.
      unfold present at 1. now rewrite Hz.
  - replace (filter (missing (field rule)) l1) with (@nil value).
    + simpl. apply forallb_filter_id.
      apply forallb_forall. now apply Forall_forall.
    + symmetry. induction H1 as [|z l1 Hz H1 IH]; simpl; auto.
      now rewrite (present_not_missing z Hz).
Qed.

Lemma sort_lacking_last_filters l r :
  sort cmp l = Ok r ->
  r = filter (present (field rule)) r ++ filter (missing (field rule)) r.
Proof.
  intros H. destruct (sort_lacking_last l r H) as (l1 & l2 & -> & H1 & H2).
  destruct (partition_filters l1 l2 H1 H2) as [-> ->]. reflexivity.
Qed.
End Leading.

(** *** The comparator returns whenever [String()] does *)

Lemma compare_rule_returns rule a b :
  is_ok (ToString (getFieldValue a (field rule))) = true ->
  is_ok (ToString (getFieldValue b (field rule))) = true ->
  is_ok (compare_rule localeCompare rule a b) = true.
Proof.
  unfold compare_rule. intros Ha Hb.
  destruct (getFieldValue a (field rule)) as [| |ba|na|sa|la|oa],
           (getFieldValue b (field rule)) as [| |bb|nb|sb|lb|ob];
    cbn [nullish andb]; try reflexivity;
    try (cbn [bind]; match goal with
                     | |- context [negb ?t] => destruct t
                     end; reflexivity);
    repeat match goal with
           | H : is_ok (ToString ?v) = true |- _ =>
               destruct (ToString v) eqn:?; [clear H|discriminate H]
           end;
    cbn [bind];
    match goal with
    | |- context [negb ?t] => destruct t
    end; reflexivity.
Qed.

Lemma compare_rules_returns rules a b :
  Forall (fun rule =>
            is_ok (ToString (getFieldValue a (field rule))) = true /\
            is_ok (ToString (getFieldValue b (field rule))) = true) rules ->
  is_ok (compare_rules localeCompare rules a b) = true.
Proof.
  induction 1 as [|rule rules [Ha Hb] Hall IH]; simpl; auto.
  pose proof (compare_rule_returns rule a b Ha Hb) as H.
  destruct (compare_rule localeCompare rule a b) as [[c|]|]; simpl; auto.
Qed.

(** *** The comparator is as consistent as [localeCompare] *)

Section Antisymmetry.
Hypothesis localeCompare_antisym :
  forall s t, Z.sgn (localeCompare t s) = - Z.sgn (localeCompare s t).

Lemma verdict_flip (d : Direction) (c c' : Z) (o : option Z) :
  Z.sgn c' = - Z.sgn c ->
  (if negb (c =? 0) then Ok (Some (oriented d c)) else Ok None) = Ok o ->
  exists o',
    (if negb (c' =? 0) then Ok (Some (oriented d c')) else Ok None) = Ok o' /\
    match o, o' with
    | None, None => True
    | Some v, Some v' => Z.sgn v' = - Z.sgn v
    | _, _ => False
    end.
Proof.
  intros Hsgn H.
  destruct (Z.eqb_spec c 0) as [->|Hc], (Z.eqb_spec c' 0) as [->|Hc'];
    simpl in *; injection H as <-.
  - exists None. split; [reflexivity | exact I].
  - exfalso. destruct c'; simpl in Hsgn; congruence.
  - exfalso. destruct c; simpl in Hsgn; congruence.
  - eexists. split; [reflexivity|].
    destruct d; simpl; rewrite ?Z.sgn_opp; lia.
Qed.

Lemma compare_rule_flip rule a b o :
  compare_rule localeCompare rule a b = Ok o ->
  exists o',
    compare_rule localeCompare rule b a = Ok o' /\
    match o, o' with
    | None, None => True
    | Some v, Some v' => Z.sgn v' = - Z.sgn v
    | _, _ => False
    end.
Proof.
  assert (Hnum : forall x y, Z.sgn (y - x) = - Z.sgn (x - y)).
  { intros x y. rewrite <- Z.sgn_opp. f_equal. lia. }
  unfold compare_rule.
  destruct (getFieldValue a (field rule)) as [| |ba|na|sa|la|oa],
           (getFieldValue b (field rule)) as [| |bb|nb|sb|lb|ob];
    cbn [nullish andb];
    try (intros H; injection H as <-; eexists; split; [reflexivity|];
         exact I || reflexivity);
    intros H; apply bind_ok in H; destruct H as (c & Hc & H);
    try (apply bind_ok in Hc; destruct Hc as (s1 & E1 & Hc);
         apply bind_ok in Hc; destruct Hc as (s2 & E2 & Hc);
         rewrite E1, E2);
    injection Hc as <-; cbn [bind];
    match type of H with
    | (if negb (?c =? 0) then _ else _) = _ =>
        match goal with
        | |- exists o', (if negb (?c' =? 0) then _ else _) = _ /\ _ =>
            apply (verdict_flip (direction rule) c c' o); [|exact H]
        end
    end;
    first [ apply localeCompare_antisym | apply Hnum ].
Qed.

Lemma compare_rules_flip rules a b c :
  compare_rules localeCompare rules a b = Ok c ->
  exists c', compare_rules localeCompare rules b a = Ok c' /\
             Z.sgn c' = - Z.sgn c.
Proof.
  revert c. induction rules as [|rule rules IH]; simpl; intros c H.
  - injection H as <-. eauto.
  - apply bind_ok in H. destruct H as (o & Ho & H).
    destruct (compare_rule_flip rule a b o Ho) as (o' & -> & Hflip).
    simpl. destruct o as [v|], o' as [v'|]; try contradiction.
    + injection H as <-. eauto.
    + now apply IH.
Qed.

Lemma compare_rules_antisym rules x y c :
  compare_rules localeCompare rules x y = Ok c -> 0 < c ->
  in_order (compare_rules localeCompare rules) y x.
Proof.
  intros H Hpos. destruct (compare_rules_flip rules x y c H) as (c' & E & Hs).
  exists c'. split; [exact E|].
  lia.
Qed.
End Antisymmetry.

(** *** [build] *)

Lemma map_values_set_In {V : Type} k (x v : V) m :
  In v (map_values (map_set k x m)) -> v = x \/ In v (map_values m).
Proof.
  unfold map_values. intros H. apply in_map_iff in H.
  destruct H as ([k' v'] & <- & Hin). simpl.
  destruct (StoreFacts.map_set_In _ _ _ _ _ Hin) as [E|Hin'].
  - left. congruence.
  - right. change v' with (snd (k', v')). now apply in_map.
Qed.

Lemma dedup_item_values item rules seen seen' :
  dedup_item item rules seen = Ok seen' ->
  forall v, In v (map_values seen') -> v = item \/ In v (map_values seen).
Proof.
  revert seen. induction rules as [|rule rules IH]; simpl; intros seen H v Hv.
  - injection H as <-. auto.
  - apply bind_ok in H. destruct H as (key & _ & H).
    destruct (IH _ H v Hv) as [E|Hin]; auto.
    destruct (strategy rule); [destruct (negb _)|]; auto;
      now apply map_values_set_In in Hin.
Qed.

Lemma dedup_loop_values items rules seen seen' :
  dedup_loop items rules seen = Ok seen' ->
  forall v, In v (map_values seen') -> In v items \/ In v (map_values seen).
Proof.
  revert seen. induction items as [|item items IH]; simpl; intros seen H v Hv.
  - injection H as <-. auto.
  - apply bind_ok in H. destruct H as (seen1 & H1 & H).
    destruct (IH _ H v Hv) as [Hin|Hin]; auto.
    destruct (dedup_item_values _ _ _ _ H1 v Hin); auto.
Qed.

(** Deduplication only ever drops items. *)
Lemma deduplicateItems_incl items rules out :
  deduplicateItems items rules = Ok out -> incl out items.
Proof.
  unfold deduplicateItems. intros H. apply bind_ok in H.
  destruct H as (seen & Hseen & H). injection H as <-.
  intros v Hv. destruct (dedup_loop_values _ _ _ _ Hseen v Hv) as [|[]]; auto.
Qed.

Lemma dedup_item_returns item rules seen :
  Forall (fun rule =>
            is_ok (ToString (getFieldValue item (dedup_field rule))) = true)
         rules ->
  exists seen', dedup_item item rules seen = Ok seen'.
Proof.
  intros H. revert seen. induction H as [|rule rules Hr H IH]; intros seen.
  - simpl. eauto.
  - simpl. destruct (ToString _); [|discriminate]. simpl. apply IH.
Qed.

Lemma dedup_loop_returns items rules seen :
  Forall (fun item =>
            Forall (fun rule =>
                      is_ok (ToString (getFieldValue item (dedup_field rule)))
                      = true) rules) items ->
  exists seen', dedup_loop items rules seen = Ok seen'.
Proof.
  intros H. revert seen. induction H as [|item items Hi H IH]; intros seen.
  - simpl. eauto.
  - simpl. destruct (dedup_item_returns item rules seen Hi) as [s1 ->].
    simpl. apply IH.
Qed.

Lemma build_unfold params :
  build localeCompare params
  = (dedupedItems <- deduplicateItems (allItems params)
                       (dedup_rules_of params) ;;
     sort (createCompareFunction localeCompare (sorting_rules_of params))
          dedupedItems).
Proof. reflexivity. Qed.

(** [build] returns whenever [String()] succeeds on the values the rules
    select. *)
Lemma build_returns params :
  (forall item rule,
      In item (allItems params) -> In rule (dedup_rules_of params) ->
      is_ok (ToString (getFieldValue item (dedup_field rule))) = true) ->
  (forall item rule,
      In item (allItems params) -> In rule (sorting_rules_of params) ->
      is_ok (ToString (getFieldValue item (field rule))) = true) ->
  exists out, build localeCompare params = Ok out.
Proof.
  intros Hd Hs. rewrite build_unfold. unfold deduplicateItems.
  destruct (dedup_loop_returns (allItems params) (dedup_rules_of params) [])
    as [seen Hseen].
  { apply Forall_forall. intros item Hi. apply Forall_forall. auto. }
  rewrite Hseen. cbn [bind].
  apply sort_returns. intros x y Hx Hy.
  apply compare_rules_returns. apply Forall_forall. intros rule Hr.
  assert (Hr' : In rule (sorting_rules_of params)).
  { apply Permutation_in with (l := sort_rules (sorting_rules_of params));
      auto.
    symmetry. apply (sort_total_perm priority). }
  assert (Hin : forall v, In v (map_values seen) -> In v (allItems params)).
  { intros v Hv.
    destruct (dedup_loop_values _ _ _ _ Hseen v Hv) as [|[]]; auto. }
  split; apply Hs; auto.
Qed.

(** C7 (amended): [build] compares with the supplied rules taken in
    ascending priority order; between two items the first rule with a
    nonzero comparison decides; numbers are compared by difference and
    strings by [localeCompare], reversed under [desc]; an item whose
    field is missing or [null] is ranked after one with a value whatever
    the direction.  Whenever this comparator is consistent on the items
    deduplication kept, [build] returns those items reordered so that
    every item is at or before every later one, and the items without a
    value under the leading rule come after all the others; in
    particular sequences [3, 1, 2] sorted by [sequence] ascending come
    out as [1, 2, 3]. *)
Theorem build_sorting (params : TimelineBuildParams) :
  let rules := sorting_rules_of params in
  let compare := createCompareFunction localeCompare rules in
  (* rules in ascending priority order *)
  Permutation rules (sort_rules rules) /\
  StronglySorted (fun r1 r2 => priority r1 <= priority r2)
                 (sort_rules rules) /\
  (* the first rule with a nonzero comparison decides *)
  (forall pre rule post a b c,
      sort_rules rules = pre ++ rule :: post ->
      Forall (fun q => compare_rule localeCompare q a b = Ok None) pre ->
      compare_rule localeCompare rule a b = Ok (Some c) ->
      compare a b = Ok c) /\
  (* numbers, strings *)
  (forall rule a b x y,
      getFieldValue a (field rule) = VNum x ->
      getFieldValue b (field rule) = VNum y ->
      compare_rule localeCompare rule a b
      = Ok (if x =? y then None
            else Some (oriented (direction rule) (x - y)))) /\
  (forall rule a b x y,
      getFieldValue a (field rule) = VStr x ->
      getFieldValue b (field rule) = VStr y ->
      compare_rule localeCompare rule a b
      = Ok (if localeCompare x y =? 0 then None
            else Some (oriented (direction rule) (localeCompare x y)))) /\
  (* missing values rank last, whatever the direction *)
  (forall rule a b,
      missing (field rule) a = true -> missing (field rule) b = false ->
      compare_rule localeCompare rule a b = Ok (Some 1) /\
      compare_rule localeCompare rule b a = Ok (Some (-1))) /\
  (* the output, for a comparator consistent on the deduplicated items *)
  (forall dedupedItems,
      deduplicateItems (allItems params) (dedup_rules_of params)
      = Ok dedupedItems ->
      consistent compare dedupedItems = true ->
      exists out,
        build localeCompare params = Ok out /\
        Permutation dedupedItems out /\
        StronglySorted (in_order compare) out /\
        (forall rule rest,
            sort_rules rules = rule :: rest ->
            out = filter (present (field rule)) out
                  ++ filter (missing (field rule)) out)) /\
  (* the example *)
  (consistent (createCompareFunction localeCompare (by_sequence asc))
              (allItems three_one_two) = true /\
   build localeCompare three_one_two
   = Ok [ tag "message" (numbered "m1" (VNum 1));
          tag "message" (numbered "m2" (VNum 2));
          tag "message" (numbered "m3" (VNum 3)) ]).
Proof.
  cbv zeta.
  split; [apply (sort_total_perm priority)|].
  split; [apply (sort_total_sorted priority)|].
  split.
  { intros pre rule post a b c E Hpre Hrule.
    unfold createCompareFunction. rewrite E.
    now apply compare_rules_decides. }
  split; [apply compare_rule_numbers|].
  split; [apply compare_rule_strings|].
  split.
  { intros rule a b Ha Hb. split.
    - now apply compare_rule_missing_left.
    - now apply compare_rule_missing_right. }
  split.
  { intros d Hd Hc.
    destruct (sort_consistent _ d Hc) as (out & Hs & Hp & Hss).
    exists out. split; [rewrite build_unfold, Hd; exact Hs|].
    split; [exact Hp|]. split; [exact Hss|].
    intros rule rest E. unfold createCompareFunction in Hs. rewrite E in Hs.
    now apply (sort_lacking_last_filters rule rest d out). }
  split; reflexivity.
Qed.

End Sorting.

Lemma ordinalCompare_antisym s t :
  Z.sgn (ordinalCompare t s) = - Z.sgn (ordinalCompare s t).
Proof.
  unfold ordinalCompare. rewrite (String.compare_antisym s t).
  destruct (String.compare t s); reflexivity.
Qed.

Lemma build_sorting_witness :
  let out := [ tag "message" (numbered "m3" (VNum 3));
               tag "message" (numbered "m2" (VNum 2));
               tag "message" (numbered "m1" (VNum 1));
               tag "message" (numbered "m0" VNull);
               tag "event" [("id", VStr "e1"); ("type", VStr "joined")] ] in
  let compare := createCompareFunction ordinalCompare (by_sequence desc) in
  consistent compare (allItems (with_unnumbered desc)) = true /\
  build ordinalCompare (with_unnumbered desc) = Ok out /\
  out = filter (present "sequence") out ++ filter (missing "sequence") out /\
  StronglySorted (in_order compare) out.
Proof.
  cbv zeta.
  destruct (build_sorting ordinalCompare (with_unnumbered desc))
    as (_ & _ & _ & _ & _ & _ & H & _).
  destruct (H (allItems (with_unnumbered desc)) eq_refl eq_refl)
    as (out & Hb & _ & Hss & Hlast).
  assert (E : build ordinalCompare (with_unnumbered desc)
              = Ok [ tag "message" (numbered "m3" (VNum 3));
                     tag "message" (numbered "m2" (VNum 2));
                     tag "message" (numbered "m1" (VNum 1));
                     tag "message" (numbered "m0" VNull);
                     tag "event" [("id", VStr "e1");
                                  ("type", VStr "joined")] ])
    by reflexivity.
  rewrite E in Hb. injection Hb as <-.
  split; [reflexivity|]. split; [reflexivity|]. split.
  - apply (Hlast {| field := "sequence"; direction := desc; priority := 1 |}
                 []); reflexivity.
  - exact Hss.
Defined.

(** C7, as stated, fails: on a field that mixes numbers and strings the
    comparator can run in a circle.  With [sequence] holding 2, 10 and
    ["1x"], 2 is before 10 as a number, 10 before ["1x"] and ["1x"]
    before 2 as strings: whatever order the three items are returned
    in, some item precedes one that the deciding rule ranks before
    it. *)
Lemma mixed_field_has_no_order :
  let compare := createCompareFunction ordinalCompare (by_sequence asc) in
  compare seq_two seq_ten = Ok (-8) /\
  compare seq_ten seq_one_x = Ok (-1) /\
  compare seq_one_x seq_two = Ok (-1) /\
  consistent compare [seq_two; seq_ten; seq_one_x] = false /\
  ~ (exists out,
        Permutation [seq_two; seq_ten; seq_one_x] out /\
        StronglySorted (in_order compare) out).
Proof.
  cbv zeta. split; [reflexivity|]. split; [reflexivity|].
  split; [reflexivity|]. split; [reflexivity|].
  set (compare := createCompareFunction ordinalCompare (by_sequence asc)).
  assert (N1 : ~ in_order compare seq_ten seq_two).
  { intros (c & E & Hc). vm_compute in E. injection E as <-. lia. }
  assert (N2 : ~ in_order compare seq_one_x seq_ten).
  { intros (c & E & Hc). vm_compute in E. injection E as <-. lia. }
  assert (N3 : ~ in_order compare seq_two seq_one_x).
  { intros (c & E & Hc). vm_compute in E. injection E as <-. lia. }
  assert (D1 : seq_two <> seq_ten) by discriminate.
  assert (D2 : seq_ten <> seq_one_x) by discriminate.
  assert (D3 : seq_two <> seq_one_x) by discriminate.
  intros (out & P & S).
  assert (Hnd : NoDup out).
  { apply (Permutation_NoDup P). repeat constructor; simpl; intuition. }
  pose proof (Permutation_length P) as Hlen.
  destruct out as [|x [|y [|z [|w out]]]]; try discriminate.
  assert (Hx : In x [seq_two; seq_ten; seq_one_x]).
  { apply (Permutation_in _ (Permutation_sym P)). simpl. auto. }
  assert (Hy : In y [seq_two; seq_ten; seq_one_x]).
  { apply (Permutation_in _ (Permutation_sym P)). simpl. auto. }
  assert (Hz : In z [seq_two; seq_ten; seq_one_x]).
  { apply (Permutation_in _ (Permutation_sym P)). simpl. auto. }
  inversion S as [|? ? S' F]; subst.
  inversion F as [|? ? Rxy F']; subst.
  inversion F' as [|? ? Rxz _]; subst.
  inversion S' as [|? ? _ G]; subst.
  inversion G as [|? ? Ryz _]; subst.
  inversion Hnd as [|? ? Nx Hnd']; subst.
  inversion Hnd' as [|? ? Ny _]; subst.
  simpl in Hx, Hy, Hz, Nx, Ny.
  destruct Hx as [<-|[<-|[<-|[]]]], Hy as [<-|[<-|[<-|[]]]],
           Hz as [<-|[<-|[<-|[]]]]; tauto.
Qed.

End TimelineFacts.

(* ================================================================== *)
(** * Further laws of the transport                                    *)
(* ================================================================== *)

Module TransportLaws.
Import Js Transport JsFacts.

(** ** Frames across the operations *)

Lemma frames_of_notifications s (ls : list nat) :
  flat_map (fun e => match e with WsSend d => [d] | _ => [] end)
           (map (fun l => StatusNotified l s) ls) = [].
Proof. induction ls; simpl; auto. Qed.

Lemma frames_setStatus s t : sent_frames (setStatus s t) = sent_frames t.
Proof.
  unfold setStatus. destruct (negb _); auto.
  rewrite TransportFacts.sent_frames_emit, frames_of_notifications.
  apply app_nil_r.
Qed.

Lemma frames_with_ws w t : sent_frames (with_ws w t) = sent_frames t.
Proof. reflexivity. Qed.

Lemma frames_with_reconnectAttempts n t :
  sent_frames (with_reconnectAttempts n t) = sent_frames t.
Proof. reflexivity. Qed.

Lemma frames_with_reconnectTimer x t :
  sent_frames (with_reconnectTimer x t) = sent_frames t.
Proof. reflexivity. Qed.

Lemma frames_with_heartbeatTimer x t :
  sent_frames (with_heartbeatTimer x t) = sent_frames t.
Proof. reflexivity. Qed.

Lemma frames_with_sessionSubscribers m t :
  sent_frames (with_sessionSubscribers m t) = sent_frames t.
Proof. reflexivity. Qed.

Lemma frames_with_allSubscribers l t :
  sent_frames (with_allSubscribers l t) = sent_frames t.
Proof. reflexivity. Qed.

Lemma frames_with_statusListeners l t :
  sent_frames (with_statusListeners l t) = sent_frames t.
Proof. reflexivity. Qed.

Ltac frames :=
  cbv zeta;
  repeat first
    [ rewrite frames_with_ws
    | rewrite frames_with_reconnectAttempts
    | rewrite frames_with_reconnectTimer
    | rewrite frames_with_heartbeatTimer
    | rewrite frames_with_sessionSubscribers
    | rewrite frames_with_allSubscribers
    | rewrite frames_with_statusListeners
    | rewrite frames_setStatus
    | rewrite TransportFacts.sent_frames_emit; cbn [flat_map app];
      rewrite ?app_nil_r ].

Lemma frames_clearReconnectTimer t :
  sent_frames (clearReconnectTimer t) = sent_frames t.
Proof. unfold clearReconnectTimer. destruct (reconnectTimer t); now frames. Qed.

Lemma frames_stopHeartbeat t : sent_frames (stopHeartbeat t) = sent_frames t.
Proof. unfold stopHeartbeat. destruct (heartbeatTimer t); now frames. Qed.

Lemma frames_startHeartbeat t : sent_frames (startHeartbeat t) = sent_frames t.
Proof. unfold startHeartbeat. frames. apply frames_stopHeartbeat. Qed.

Lemma frames_scheduleReconnect t :
  sent_frames (scheduleReconnect t) = sent_frames t.
Proof. unfold scheduleReconnect. frames. apply frames_clearReconnectTimer. Qed.

Lemma frames_handleDisconnect t :
  sent_frames (handleDisconnect t) = sent_frames t.
Proof.
  unfold handleDisconnect.
  destruct (negb _); [now frames|].
  destruct (_ >=? _); [now frames|].
  rewrite frames_scheduleReconnect. now frames.
Qed.

Lemma frames_connect created t :
  sent_frames (fst (connect created t)) = sent_frames t.
Proof.
  unfold connect. destruct (_ || _); auto.
  destruct created; cbn [fst]; now frames.
Qed.

Lemma frames_set_readyState r t :
  sent_frames (set_readyState r t) = sent_frames t.
Proof. unfold set_readyState. now destruct (ws t). Qed.

Lemma frames_ws_onopen t : sent_frames (ws_onopen t) = sent_frames t.
Proof. unfold ws_onopen. frames. rewrite frames_startHeartbeat. now frames. Qed.

Lemma frames_ws_onclose wasClean t :
  sent_frames (ws_onclose wasClean t) = sent_frames t.
Proof.
  unfold ws_onclose. cbv zeta. destruct wasClean.
  - frames. apply frames_stopHeartbeat.
  - rewrite frames_handleDisconnect. apply frames_stopHeartbeat.
Qed.

Lemma frames_ws_onerror t : sent_frames (ws_onerror t) = sent_frames t.
Proof. unfold ws_onerror. frames. destruct (status_eqb _ _); now frames. Qed.

Lemma frames_disconnect t : sent_frames (disconnect t) = sent_frames t.
Proof.
  unfold disconnect. frames.
  destruct (ws (clearReconnectTimer (stopHeartbeat t))); frames;
    now rewrite frames_clearReconnectTimer, frames_stopHeartbeat.
Qed.

Lemma frames_reconnect_timer_fired created t :
  sent_frames (reconnect_timer_fired created t) = sent_frames t.
Proof. unfold reconnect_timer_fired. cbv zeta. now rewrite frames_connect. Qed.

Lemma frames_step_lifecycle a t :
  lifecycle a = true -> sent_frames (step t a) = sent_frames t.
Proof.
  destruct a; simpl; try discriminate; intros _.
  - apply frames_connect.
  - apply frames_disconnect.
  - now rewrite frames_ws_onopen, frames_set_readyState.
  - now rewrite frames_ws_onclose, frames_set_readyState.
  - apply frames_ws_onerror.
  - apply frames_reconnect_timer_fired.
  - reflexivity.
  - reflexivity.
Qed.

(** X1: connecting, opening, closing, failing, retrying and disconnecting
    never send a frame.  In particular a session subscribed to while the
    transport was not connected is never announced to the server, however
    the connection evolves afterwards. *)
Theorem lifecycle_never_sends
  (actions : list Action) (t : WebSocketTransport)
  (c : WebSocketTransportConfig) (sid : string) (cb : nat) :
  forallb lifecycle actions = true ->
  sent_frames (steps actions t) = sent_frames t /\
  sent_frames (steps actions (subscribe sid cb (constructor c))) = [].
Proof.
  intros H.
  assert (G : forall t0, sent_frames (steps actions t0) = sent_frames t0).
  { induction actions as [|a actions IH]; intros t0; simpl; auto.
    simpl in H. apply andb_prop in H. destruct H as [Ha H].
    rewrite (IH H). now apply frames_step_lifecycle. }
  split; [apply G|]. rewrite G.
  rewrite (TransportFacts.subscribe_first sid cb (constructor c) eq_refl).
  reflexivity.
Qed.

Lemma lifecycle_never_sends_witness :
  sent_frames
    (steps [Connect true; SocketOpened; SocketClosed false;
            ReconnectTimerFired true; SocketOpened]
           (subscribe "s1" 1%nat (constructor one_retry))) = [].
Proof.
  apply (lifecycle_never_sends
           [Connect true; SocketOpened; SocketClosed false;
            ReconnectTimerFired true; SocketOpened]
           (constructor one_retry) one_retry "s1" 1%nat).
  reflexivity.
Defined.

(** X2: [send] is rejected with "Not connected", leaving the transport
    untouched, exactly when the status is not [connected] or no socket is
    held; otherwise it succeeds, and the message frame goes out only if
    the socket is open: on a socket that is connecting or closing the call
    succeeds and the message is dropped. *)
Theorem send_requires_connection
  (message : OutgoingMessage) (t : WebSocketTransport) :
  (status t <> connected \/ ws t = None ->
   send message t = Throw (Error "Not connected")) /\
  (status t = connected -> ws t <> None ->
   exists t',
     send message t = Ok t' /\
     sent_frames t'
     = sent_frames t ++ (if socket_open t then [message_frame message]
                         else []) /\
     (socket_open t = false -> t' = t)).
Proof.
  unfold send. split.
  - intros [H|H].
    + destruct (status t); simpl; auto; congruence.
    + rewrite H. now rewrite orb_true_r.
  - intros Hs Hw. rewrite Hs. destruct (ws t) eqn:E; [|congruence].
    simpl. eexists. split; [reflexivity|].
    rewrite TransportFacts.sent_frames_sendRaw.
    unfold sendRaw. destruct (socket_open t); split; auto.
    + discriminate.
    + now rewrite app_nil_r.
Qed.

Lemma send_requires_connection_witness :
  send hello (constructor one_retry) = Throw (Error "Not connected") /\
  (exists t', send hello live = Ok t' /\
              sent_frames t' = sent_frames live ++ [message_frame hello]) /\
  send hello closing = Ok closing.
Proof.
  split; [|split].
  - apply (send_requires_connection hello (constructor one_retry)).
    left. discriminate.
  - destruct (proj2 (send_requires_connection hello live))
      as (t' & E & F & _); [reflexivity | discriminate |].
    exists t'. split; [exact E | exact F].
  - destruct (proj2 (send_requires_connection hello closing))
      as (t' & E & _ & G); [reflexivity | discriminate |].
    rewrite E. f_equal. apply G. reflexivity.
Defined.

(** ** Global subscribers *)

Lemma map_get_delete_same {V : Type} k (m : list (string * V)) :
  map_get k (map_delete k m) = None.
Proof.
  unfold map_delete. induction m as [|[k' x] m IH]; simpl; auto.
  destruct (String.eqb_spec k' k); simpl; auto.
  destruct (String.eqb_spec k' k); [contradiction | auto].
Qed.

Lemma socket_open_with_allSubscribers l t :
  socket_open (with_allSubscribers l t) = socket_open t.
Proof. reflexivity. Qed.

Lemma subscribeAll_frames cb t :
  sent_frames (subscribeAll cb t)
  = sent_frames t
    ++ (if (List.length (set_add cb (allSubscribers t)) =? 1)%nat
           && socket_open t
        then [subscribe_all_frame] else []).
Proof.
  unfold subscribeAll. cbv zeta. cbn [allSubscribers with_allSubscribers].
  destruct (List.length _ =? 1)%nat; simpl.
  - rewrite TransportFacts.sent_frames_sendRaw.
    rewrite socket_open_with_allSubscribers.
    destruct (socket_open t); frames; rewrite ?app_nil_r; auto.
  - frames. now rewrite app_nil_r.
Qed.

Lemma unsubscribeAll_frames cb t :
  sent_frames (unsubscribeAll cb t)
  = sent_frames t
    ++ (if (List.length (set_delete cb (allSubscribers t)) =? 0)%nat
           && socket_open t
        then [unsubscribe_all_frame] else []).
Proof.
  unfold unsubscribeAll. cbv zeta. cbn [allSubscribers with_allSubscribers].
  destruct (List.length _ =? 0)%nat; simpl.
  - rewrite TransportFacts.sent_frames_sendRaw.
    rewrite socket_open_with_allSubscribers.
    destruct (socket_open t); frames; rewrite ?app_nil_r; auto.
  - frames. now rewrite app_nil_r.
Qed.

Lemma subscribeAll_members cb t :
  allSubscribers (subscribeAll cb t) = set_add cb (allSubscribers t) /\
  socket_open (subscribeAll cb t) = socket_open t.
Proof.
  unfold subscribeAll, sendRaw. cbv zeta.
  cbn [allSubscribers with_allSubscribers].
  destruct (List.length _ =? 1)%nat; [|auto].
  rewrite socket_open_with_allSubscribers. destruct (socket_open t) eqn:E; auto.
Qed.

Lemma unsubscribeAll_members cb t :
  allSubscribers (unsubscribeAll cb t) = set_delete cb (allSubscribers t) /\
  socket_open (unsubscribeAll cb t) = socket_open t.
Proof.
  unfold unsubscribeAll, sendRaw. cbv zeta.
  cbn [allSubscribers with_allSubscribers].
  destruct (List.length _ =? 0)%nat; [|auto].
  rewrite socket_open_with_allSubscribers. destruct (socket_open t) eqn:E; auto.
Qed.

(** X3: while the socket is open, the first global subscriber sends
    [{type:'subscribe', all:true}], a second one sends nothing, removing
    one of the two sends nothing, and removing the last one sends
    [{type:'unsubscribe', all:true}]. *)
Theorem subscribeAll_control_frames
  (t : WebSocketTransport) (cb1 cb2 : nat) :
  socket_open t = true ->
  allSubscribers t = [] ->
  cb1 <> cb2 ->
  let t1 := subscribeAll cb1 t in
  let t2 := subscribeAll cb2 t1 in
  let t3 := unsubscribeAll cb1 t2 in
  let t4 := unsubscribeAll cb2 t3 in
  sent_frames t1 = sent_frames t ++ [subscribe_all_frame] /\
  sent_frames t2 = sent_frames t1 /\
  sent_frames t3 = sent_frames t2 /\
  sent_frames t4 = sent_frames t3 ++ [unsubscribe_all_frame].
Proof.
  intros Hopen Hnone Hne. cbv zeta.
  destruct (subscribeAll_members cb1 t) as [M1 O1].
  destruct (subscribeAll_members cb2 (subscribeAll cb1 t)) as [M2 O2].
  destruct (unsubscribeAll_members cb1 (subscribeAll cb2 (subscribeAll cb1 t)))
    as [M3 O3].
  rewrite Hnone in M1. cbn in M1.
  rewrite M1 in M2. unfold set_add in M2. cbn in M2.
  destruct (Nat.eqb_spec cb2 cb1) as [|_]; [congruence|]. cbn in M2.
  rewrite M2 in M3. unfold set_delete in M3. cbn in M3.
  rewrite Nat.eqb_refl in M3.
  destruct (Nat.eqb_spec cb1 cb2) as [|_]; [congruence|]. cbn in M3.
  rewrite !unsubscribeAll_frames, !subscribeAll_frames.
  rewrite M3, M2, M1, Hnone, O3, O2, O1, Hopen.
  unfold set_add, set_delete. cbn.
  destruct (Nat.eqb_spec cb2 cb1) as [|_]; [congruence|].
  destruct (Nat.eqb_spec cb1 cb2) as [|_]; [congruence|].
  cbn. rewrite ?Nat.eqb_refl. cbn. rewrite ?Nat.eqb_refl. cbn.
  rewrite ?app_nil_r. auto.
Qed.

Lemma subscribeAll_control_frames_witness :
  let t1 := subscribeAll 1%nat live in
  let t2 := subscribeAll 2%nat t1 in
  let t3 := unsubscribeAll 1%nat t2 in
  let t4 := unsubscribeAll 2%nat t3 in
  sent_frames t1 = sent_frames live ++ [subscribe_all_frame] /\
  sent_frames t2 = sent_frames t1 /\
  sent_frames t3 = sent_frames t2 /\
  sent_frames t4 = sent_frames t3 ++ [unsubscribe_all_frame].
Proof.
  apply (subscribeAll_control_frames live 1%nat 2%nat);
    [reflexivity | reflexivity | discriminate].
Defined.

(** X4: registering one callback twice and calling both returned
    closures.  Per session the registry absorbs the repetition: one
    [subscribe] and one [unsubscribe] go out.  Globally it does not: the
    [subscribe] is sent again while the callback is the only member, and
    the second closure, finding the set empty, sends [unsubscribe]
    again. *)
Theorem repeated_registration
  (t : WebSocketTransport) (sid : string) (cb : nat) :
  socket_open t = true ->
  map_has sid (sessionSubscribers t) = false ->
  allSubscribers t = [] ->
  sent_frames
    (unsubscribe sid cb (unsubscribe sid cb
       (subscribe sid cb (subscribe sid cb t))))
  = sent_frames t ++ [subscribe_frame sid; unsubscribe_frame sid] /\
  sent_frames
    (unsubscribeAll cb (unsubscribeAll cb
       (subscribeAll cb (subscribeAll cb t))))
  = sent_frames t ++ [subscribe_all_frame; subscribe_all_frame;
                      unsubscribe_all_frame; unsubscribe_all_frame].
Proof.
  intros Hopen Hnew Hnone. split.
  - rewrite (TransportFacts.subscribe_first sid cb t Hnew).
    set (t1 := with_sessionSubscribers _ (sendRaw _ t)).
    assert (G1 : map_get sid (sessionSubscribers t1) = Some [cb]).
    { subst t1. simpl. apply map_get_set_same. }
    rewrite (TransportFacts.subscribe_again sid cb [cb] t1 G1).
    assert (A : set_add cb [cb] = [cb]).
    { unfold set_add. simpl. now rewrite Nat.eqb_refl. }
    rewrite A.
    set (t2 := with_sessionSubscribers _ t1).
    assert (G2 : map_get sid (sessionSubscribers t2) = Some [cb]).
    { subst t2. simpl. apply map_get_set_same. }
    rewrite (TransportFacts.unsubscribe_present sid cb [cb] t2 G2).
    assert (D : set_delete cb [cb] = []).
    { unfold set_delete. simpl. now rewrite Nat.eqb_refl. }
    rewrite D. simpl (List.length [] =? 0)%nat. cbv iota.
    assert (O : socket_open
                  (with_sessionSubscribers
                     (map_delete sid
                        (map_set sid [] (sessionSubscribers t2))) t2) = true).
    { subst t2 t1. simpl. unfold sendRaw. rewrite Hopen. exact Hopen. }
    set (t3 := sendRaw _ _).
    assert (G3 : map_get sid (sessionSubscribers t3) = None).
    { subst t3. unfold sendRaw. rewrite O. simpl.
      apply map_get_delete_same. }
    unfold unsubscribe at 1. rewrite G3.
    subst t3. rewrite TransportFacts.sent_frames_sendRaw.
    rewrite O. frames. subst t2 t1. frames.
    rewrite TransportFacts.sent_frames_sendRaw, Hopen.
    now rewrite <- app_assoc.
  - destruct (subscribeAll_members cb t) as [M1 O1].
    destruct (subscribeAll_members cb (subscribeAll cb t)) as [M2 O2].
    destruct (unsubscribeAll_members cb (subscribeAll cb (subscribeAll cb t)))
      as [M3 O3].
    rewrite Hnone in M1. cbn in M1.
    rewrite M1 in M2. unfold set_add in M2. cbn in M2.
    rewrite Nat.eqb_refl in M2. cbn in M2.
    rewrite M2 in M3. unfold set_delete in M3. cbn in M3.
    rewrite Nat.eqb_refl in M3. cbn in M3.
    rewrite !unsubscribeAll_frames, !subscribeAll_frames.
    rewrite M3, M2, M1, Hnone, O3, O2, O1, Hopen.
    unfold set_add, set_delete. cbn. rewrite Nat.eqb_refl. cbn.
    now rewrite <- !app_assoc.
Qed.

Lemma repeated_registration_witness :
  sent_frames
    (unsubscribe "s1" 1%nat (unsubscribe "s1" 1%nat
       (subscribe "s1" 1%nat (subscribe "s1" 1%nat live))))
  = sent_frames live ++ [subscribe_frame "s1"; unsubscribe_frame "s1"] /\
  sent_frames
    (unsubscribeAll 1%nat (unsubscribeAll 1%nat
       (subscribeAll 1%nat (subscribeAll 1%nat live))))
  = sent_frames live ++ [subscribe_all_frame; subscribe_all_frame;
                         unsubscribe_all_frame; unsubscribe_all_frame].
Proof.
  apply (repeated_registration live "s1" 1%nat); reflexivity.
Defined.

(** ** Inbound routing *)

Lemma set_add_In x s : In x (set_add x s).
Proof.
  unfold set_add, set_has. destruct (existsb (Nat.eqb x) s) eqn:E.
  - apply existsb_exists in E. destruct E as (y & Hy & E).
    apply Nat.eqb_eq in E. now subst.
  - apply in_or_app. right. now left.
Qed.

Lemma set_delete_not_In x s : ~ In x (set_delete x s).
Proof.
  unfold set_delete. intros H. apply filter_In in H. destruct H as [_ H].
  now rewrite Nat.eqb_refl in H.
Qed.








(** ** Timers across the operations *)

Lemma timeouts_emit es t :
  timeouts_set (emit es t)
  = timeouts_set t
    ++ flat_map (fun e => match e with TimeoutSet d => [d] | _ => [] end) es.
Proof. unfold timeouts_set. simpl. apply flat_map_app. Qed.

Lemma timeouts_of_notifications s (ls : list nat) :
  flat_map (fun e => match e with TimeoutSet d => [d] | _ => [] end)
           (map (fun l => StatusNotified l s) ls) = [].
Proof. induction ls; simpl; auto. Qed.

Lemma timeouts_setStatus s t : timeouts_set (setStatus s t) = timeouts_set t.
Proof.
  unfold setStatus. destruct (negb _); auto.
  rewrite timeouts_emit, timeouts_of_notifications. apply app_nil_r.
Qed.

Lemma timeouts_with_ws w t : timeouts_set (with_ws w t) = timeouts_set t.
Proof. reflexivity. Qed.

Lemma timeouts_with_reconnectAttempts n t :
  timeouts_set (with_reconnectAttempts n t) = timeouts_set t.
Proof. reflexivity. Qed.

Lemma timeouts_with_reconnectTimer x t :
  timeouts_set (with_reconnectTimer x t) = timeouts_set t.
Proof. reflexivity. Qed.

Lemma timeouts_with_heartbeatTimer x t :
  timeouts_set (with_heartbeatTimer x t) = timeouts_set t.
Proof. reflexivity. Qed.

Ltac timeouts :=
  cbv zeta;
  repeat first
    [ rewrite timeouts_with_ws
    | rewrite timeouts_with_reconnectAttempts
    | rewrite timeouts_with_reconnectTimer
    | rewrite timeouts_with_heartbeatTimer
    | rewrite timeouts_setStatus
    | rewrite timeouts_emit; cbn [flat_map app]; rewrite ?app_nil_r ].

Lemma timeouts_clearReconnectTimer t :
  timeouts_set (clearReconnectTimer t) = timeouts_set t.
Proof. unfold clearReconnectTimer. destruct (reconnectTimer t); now timeouts. Qed.

Lemma timeouts_stopHeartbeat t :
  timeouts_set (stopHeartbeat t) = timeouts_set t.
Proof. unfold stopHeartbeat. destruct (heartbeatTimer t); now timeouts. Qed.

Lemma timeouts_connect created t :
  timeouts_set (fst (connect created t)) = timeouts_set t.
Proof.
  unfold connect. destruct (_ || _); auto.
  destruct created; cbn [fst]; now timeouts.
Qed.

Lemma timeouts_ws_onerror t : timeouts_set (ws_onerror t) = timeouts_set t.
Proof.
  unfold ws_onerror. timeouts. destruct (status_eqb _ _); now timeouts.
Qed.

Lemma timeouts_disconnect t : timeouts_set (disconnect t) = timeouts_set t.
Proof.
  unfold disconnect. timeouts.
  destruct (ws (clearReconnectTimer (stopHeartbeat t))); timeouts;
    now rewrite timeouts_clearReconnectTimer, timeouts_stopHeartbeat.
Qed.

Lemma timeouts_scheduleReconnect t :
  timeouts_set (scheduleReconnect t) = timeouts_set t ++ [reconnect_delay t].
Proof.
  unfold scheduleReconnect. timeouts.
  now rewrite timeouts_clearReconnectTimer, TransportFacts.reconnect_delay_clear.
Qed.

(** Configuration and counter across the operations. *)
Lemma stopHeartbeat_keeps t :
  config (stopHeartbeat t) = config t /\
  reconnectAttempts (stopHeartbeat t) = reconnectAttempts t /\
  status (stopHeartbeat t) = status t /\
  reconnectTimer (stopHeartbeat t) = reconnectTimer t /\
  heartbeatTimer (stopHeartbeat t) = None.
Proof. unfold stopHeartbeat. destruct (heartbeatTimer t) eqn:E; auto. Qed.

Lemma disconnect_config t : config (disconnect t) = config t.
Proof.
  destruct t as [w st sl ss al ra rt ht cfg tr].
  unfold disconnect, stopHeartbeat, clearReconnectTimer, setStatus. cbn.
  destruct ht, rt, w, st; reflexivity.
Qed.

(** What one close event does. *)
Lemma ws_onclose_outcome wasClean t :
  let retry := negb wasClean && enabled (config t)
               && (Z.of_nat (reconnectAttempts t) <? maxAttempts (config t)) in
  let t' := ws_onclose wasClean t in
  config t' = config t /\
  reconnectAttempts t' = reconnectAttempts t /\
  heartbeatTimer t' = None /\
  status t'
  = (if retry then reconnecting
     else if wasClean || negb (enabled (config t)) then disconnected
          else error) /\
  timeouts_set t'
  = timeouts_set t ++ (if retry
                       then [backoff (config t) (reconnectAttempts t)]
                       else []) /\
  (retry = true ->
   reconnectTimer t' = Some (backoff (config t) (reconnectAttempts t))).
Proof.
  cbv zeta. unfold ws_onclose. cbv zeta.
  destruct (stopHeartbeat_keeps t) as (Hc & Ha & Hs & Hr & Hh).
  pose proof (timeouts_stopHeartbeat t) as Ht.
  revert Hc Ha Hs Hr Hh Ht. generalize (stopHeartbeat t).
  intros u Hc Ha Hs Hr Hh Ht. rewrite <- Hc, <- Ha, <- Ht.
  clear Hc Ha Hs Hr Ht t.
  destruct wasClean; cbn [negb andb orb].
  - rewrite TransportFacts.setStatus_config,
      TransportFacts.setStatus_reconnectAttempts,
      TransportFacts.setStatus_status, timeouts_setStatus, app_nil_r.
    repeat split; auto; try discriminate.
    unfold setStatus. now destruct (negb _).
  - unfold handleDisconnect.
    destruct (enabled (config u)); cbn [negb andb orb].
    + destruct (Z.geb_spec (Z.of_nat (reconnectAttempts u))
                           (maxAttempts (config u))) as [Hge|Hlt].
      * destruct (Z.ltb_spec (Z.of_nat (reconnectAttempts u))
                             (maxAttempts (config u))); [lia|].
        rewrite TransportFacts.setStatus_config,
          TransportFacts.setStatus_reconnectAttempts,
          TransportFacts.setStatus_status, timeouts_setStatus, app_nil_r.
        repeat split; auto; try discriminate.
        unfold setStatus. now destruct (negb _).
      * destruct (Z.ltb_spec (Z.of_nat (reconnectAttempts u))
                             (maxAttempts (config u))); [|lia].
        rewrite timeouts_scheduleReconnect, timeouts_setStatus,
          TransportFacts.reconnect_delay_setStatus.
        unfold scheduleReconnect. cbv zeta.
        cbn [config reconnectAttempts heartbeatTimer status reconnectTimer
             with_reconnectTimer emit].
        rewrite TransportFacts.clearReconnectTimer_config,
          TransportFacts.clearReconnectTimer_reconnectAttempts,
          TransportFacts.clearReconnectTimer_status,
          TransportFacts.setStatus_config,
          TransportFacts.setStatus_reconnectAttempts,
          TransportFacts.setStatus_status,
          TransportFacts.reconnect_delay_clear,
          TransportFacts.reconnect_delay_setStatus.
        repeat split; auto.
        unfold clearReconnectTimer, setStatus.
        destruct (negb _); cbn; destruct (reconnectTimer u); cbn; auto.
    + rewrite TransportFacts.setStatus_config,
        TransportFacts.setStatus_reconnectAttempts,
        TransportFacts.setStatus_status, timeouts_setStatus, app_nil_r.
      repeat split; auto; try discriminate.
      unfold setStatus. now destruct (negb _).
Qed.

(** ** Disconnecting and closing *)

Ltac open_transport t :=
  destruct t as [w st sl ss al ra rt ht cfg tr];
  unfold disconnect, stopHeartbeat, clearReconnectTimer, setStatus in *;
  cbn [ws status statusListeners sessionSubscribers allSubscribers
       reconnectAttempts reconnectTimer heartbeatTimer config trace
       emit with_ws with_status with_reconnectTimer with_heartbeatTimer
       with_reconnectAttempts] in *.

(** X7: [disconnect()] always ends with the status [disconnected], no
    socket held and both timers cancelled; a second call changes nothing
    and has no effect; the subscriber registries, the status listeners
    and the reconnect-attempt counter are left as they were. *)
Theorem disconnect_settles (t : WebSocketTransport) :
  let t' := disconnect t in
  status t' = disconnected /\
  ws t' = None /\
  reconnectTimer t' = None /\
  heartbeatTimer t' = None /\
  disconnect t' = t' /\
  sessionSubscribers t' = sessionSubscribers t /\
  allSubscribers t' = allSubscribers t /\
  statusListeners t' = statusListeners t /\
  reconnectAttempts t' = reconnectAttempts t.
Proof.
  cbv zeta. open_transport t.
  destruct ht, rt, w, st; cbn; repeat split; reflexivity.
Qed.

Lemma disconnect_fields t :
  status (disconnect t) = disconnected /\
  ws (disconnect t) = None /\
  reconnectTimer (disconnect t) = None /\
  reconnectAttempts (disconnect t) = reconnectAttempts t.
Proof.
  open_transport t. destruct ht, rt, w, st; cbn; repeat split; reflexivity.
Qed.

(** X8: the socket handlers stay installed after [disconnect()]: when the
    close event of the abandoned socket then arrives as unclean, with
    reconnection enabled and attempts left, the transport leaves
    [disconnected] for [reconnecting] and arms a retry timer. *)
Theorem late_close_revives (t : WebSocketTransport) :
  enabled (config t) = true ->
  Z.of_nat (reconnectAttempts t) < maxAttempts (config t) ->
  let t' := step (step t Disconnect) (SocketClosed false) in
  status (step t Disconnect) = disconnected /\
  status t' = reconnecting /\
  reconnectTimer t' = Some (backoff (config t) (reconnectAttempts t)) /\
  timeouts_set t'
  = timeouts_set t ++ [backoff (config t) (reconnectAttempts t)].
Proof.
  intros Hen Hlt. cbv zeta. cbn [step]. unfold set_readyState.
  destruct (disconnect_fields t) as (Hs & Hw & _ & Hra).
  rewrite Hw. split; [exact Hs|].
  destruct (ws_onclose_outcome false (disconnect t))
    as (_ & _ & _ & Hst & Htm & Hrt).
  rewrite disconnect_config, Hra, timeouts_disconnect in *.
  rewrite Hen in *. cbn [negb andb] in *.
  destruct (Z.ltb_spec (Z.of_nat (reconnectAttempts t))
                       (maxAttempts (config t))); [|lia].
  auto.
Qed.

Lemma late_close_revives_witness :
  status (step live Disconnect) = disconnected /\
  status (step (step live Disconnect) (SocketClosed false)) = reconnecting /\
  reconnectTimer (step (step live Disconnect) (SocketClosed false))
  = Some 1000.
Proof.
  destruct (late_close_revives live) as (H1 & H2 & H3 & _);
    [reflexivity | reflexivity |].
  split; [exact H1|]. split; [exact H2 | exact H3].
Defined.

(** X9: what a close event does.  It always stops the heartbeat and keeps
    the attempt counter.  An unclean close with reconnection enabled and
    attempts left moves to [reconnecting] and arms one timer with the
    back-off delay of the current count; a clean close, or an unclean one
    with reconnection disabled, moves to [disconnected]; an unclean one
    with the attempts used up moves to [error]; in these cases no timer is
    armed. *)
Theorem close_event_outcome (wasClean : bool) (t : WebSocketTransport) :
  let retry := negb wasClean && enabled (config t)
               && (Z.of_nat (reconnectAttempts t) <? maxAttempts (config t)) in
  let t' := ws_onclose wasClean t in
  reconnectAttempts t' = reconnectAttempts t /\
  heartbeatTimer t' = None /\
  status t'
  = (if retry then reconnecting
     else if wasClean || negb (enabled (config t)) then disconnected
          else error) /\
  timeouts_set t'
  = timeouts_set t ++ (if retry
                       then [backoff (config t) (reconnectAttempts t)]
                       else []).
Proof.
  cbv zeta. destruct (ws_onclose_outcome wasClean t)
    as (_ & Ha & Hh & Hs & Ht & _).
  auto.
Qed.

(** ** The retry budget *)

Lemma retry_attempt t :
  status t = reconnecting ->
  let u := set_readyState CLOSED (ws_onerror (reconnect_timer_fired true t)) in
  config u = config t /\
  reconnectAttempts u = S (reconnectAttempts t) /\
  timeouts_set u = timeouts_set t.
Proof.
  intros Hs. cbv zeta.
  destruct t as [w st sl ss al ra rt ht cfg tr]. cbn in Hs. subst st.
  unfold reconnect_timer_fired, connect, ws_onerror, set_readyState,
    setStatus, timeouts_set.
  cbn. repeat split.
  rewrite !flat_map_app. cbn. rewrite !timeouts_of_notifications.
  now rewrite !app_nil_r.
Qed.

(** X10: the retry budget.  With reconnection enabled and
    [maxAttempts = n], after an unclean close at attempt count 0 every
    failed retry raises the count by one; the transport is [reconnecting]
    until [n] retries have failed and [error] from then on; and the
    timers armed along the way carry the delays
    [min(baseDelay * 2^i, maxDelay)] for [i = 0, 1, ...], one per retry
    granted, never more than [n]. *)
Theorem retry_budget (t : WebSocketTransport) (n j : nat) :
  enabled (config t) = true ->
  maxAttempts (config t) = Z.of_nat n ->
  reconnectAttempts t = 0%nat ->
  (j <= n)%nat ->
  let tj := Nat.iter j retry_fails (ws_onclose false t) in
  reconnectAttempts tj = j /\
  status tj = (if (j <? n)%nat then reconnecting else error) /\
  timeouts_set tj
  = timeouts_set t
    ++ map (fun i => Z.min (baseDelay (config t) * 2 ^ Z.of_nat i)
                           (maxDelay (config t)))
           (seq 0 (Nat.min (S j) n)).
Proof.
  intros Hen Hmax Hzero. cbv zeta.
  change (fun i => Z.min (baseDelay (config t) * 2 ^ Z.of_nat i)
                         (maxDelay (config t)))
    with (backoff (config t)).
  assert (G : (j <= n)%nat ->
              config (Nat.iter j retry_fails (ws_onclose false t)) = config t /\
              reconnectAttempts (Nat.iter j retry_fails (ws_onclose false t))
              = j /\
              status (Nat.iter j retry_fails (ws_onclose false t))
              = (if (j <? n)%nat then reconnecting else error) /\
              timeouts_set (Nat.iter j retry_fails (ws_onclose false t))
              = timeouts_set t
                ++ map (backoff (config t)) (seq 0 (Nat.min (S j) n))).
  { induction j as [|j IH]; intros Hj.
    - change (Nat.iter 0 retry_fails (ws_onclose false t))
        with (ws_onclose false t).
      destruct (ws_onclose_outcome false t) as (Hc & Ha & _ & Hs & Ht & _).
      rewrite Hen, Hmax, Hzero in *. cbn [negb andb orb] in *.
      split; [exact Hc|]. split; [exact Ha|].
      destruct n as [|n].
      + cbn in *. auto.
      + replace (Z.of_nat 0 <? Z.of_nat (S n)) with true in *
          by (symmetry; apply Z.ltb_lt; lia).
        cbn in *. auto.
    - destruct IH as (Hc & Ha & Hs & Ht); [lia|].
      destruct (Nat.ltb_spec j n) as [Hlt|]; [|lia].
      rewrite !Nat.iter_succ.
      set (tj := Nat.iter j retry_fails (ws_onclose false t)) in *.
      unfold retry_fails.
      destruct (retry_attempt tj Hs) as (Hc' & Ha' & Ht').
      destruct (ws_onclose_outcome false
                  (set_readyState CLOSED
                     (ws_onerror (reconnect_timer_fired true tj))))
        as (Hc2 & Ha2 & _ & Hs2 & Ht2 & _).
      rewrite Hc', Ha', Ht', Hc, Ha, Ht, Hen, Hmax in *.
      cbn [negb andb orb] in *.
      split; [exact Hc2|]. split; [exact Ha2|].
      rewrite Hs2, Ht2. clear Hs2 Ht2 Hc2 Ha2.
      replace (Nat.min (S j) n) with (S j) by lia.
      destruct (Nat.ltb_spec (S j) n) as [Hlt'|Hge].
      + replace (Z.of_nat (S j) <? Z.of_nat n) with true
          by (symmetry; apply Z.ltb_lt; lia).
        replace (Nat.min (S (S j)) n) with (S (S j)) by lia.
        split; [reflexivity|].
        rewrite (seq_S (S j) 0), map_app, app_assoc. reflexivity.
      + replace (Z.of_nat (S j) <? Z.of_nat n) with false
          by (symmetry; apply Z.ltb_ge; lia).
        replace (Nat.min (S (S j)) n) with (S j) by lia.
        split; [reflexivity|]. now rewrite app_nil_r. }
  intros Hj. destruct (G Hj) as (_ & Ha & Hs & Ht). auto.
Qed.

Lemma retry_budget_witness :
  let t1 := Nat.iter 1 retry_fails (ws_onclose false live) in
  reconnectAttempts t1 = 1%nat /\
  status t1 = error /\
  timeouts_set t1 = timeouts_set live ++ [1000].
Proof.
  apply (retry_budget live 1 1); [reflexivity | reflexivity | reflexivity |].
  apply le_n.
Defined.

(** ** Heartbeat intervals *)

Lemma live_emit es t :
  live_intervals (emit es t)
  = fold_left (fun n e => match e with
                          | IntervalSet _ => n + 1
                          | IntervalCleared => n - 1
                          | _ => n
                          end) es (live_intervals t).
Proof. unfold live_intervals. simpl. apply fold_left_app. Qed.

Lemma live_of_notifications s (ls : list nat) n :
  fold_left (fun n e => match e with
                        | IntervalSet _ => n + 1
                        | IntervalCleared => n - 1
                        | _ => n
                        end) (map (fun l => StatusNotified l s) ls) n = n.
Proof. induction ls; simpl; auto. Qed.

Lemma beat_setStatus s t :
  live_intervals (setStatus s t) = live_intervals t /\
  heartbeatTimer (setStatus s t) = heartbeatTimer t.
Proof.
  unfold setStatus. destruct (negb _); auto.
  rewrite live_emit, live_of_notifications. auto.
Qed.

Ltac lives :=
  repeat first
    [ progress change (live_intervals (with_ws ?x ?u))
        with (live_intervals u)
    | progress change (live_intervals (with_reconnectAttempts ?x ?u))
        with (live_intervals u)
    | progress change (live_intervals (with_reconnectTimer ?x ?u))
        with (live_intervals u)
    | progress change (live_intervals (with_heartbeatTimer ?x ?u))
        with (live_intervals u)
    | progress change (live_intervals (with_sessionSubscribers ?x ?u))
        with (live_intervals u)
    | progress change (live_intervals (with_allSubscribers ?x ?u))
        with (live_intervals u)
    | rewrite live_emit; cbn [fold_left] ].

Lemma beat_sendRaw d t :
  live_intervals (sendRaw d t) = live_intervals t /\
  heartbeatTimer (sendRaw d t) = heartbeatTimer t.
Proof. unfold sendRaw. destruct (socket_open t); lives; auto. Qed.

Lemma beat_clearReconnectTimer t :
  live_intervals (clearReconnectTimer t) = live_intervals t /\
  heartbeatTimer (clearReconnectTimer t) = heartbeatTimer t.
Proof.
  unfold clearReconnectTimer. destruct (reconnectTimer t); lives; auto.
Qed.

Lemma beat_set_readyState r t :
  live_intervals (set_readyState r t) = live_intervals t /\
  heartbeatTimer (set_readyState r t) = heartbeatTimer t.
Proof. unfold set_readyState. destruct (ws t); auto. Qed.

(** The intervals alive are the one the transport holds, if any. *)
Lemma beat_stopHeartbeat t :
  live_intervals t = match heartbeatTimer t with Some _ => 1 | None => 0 end ->
  live_intervals (stopHeartbeat t) = 0 /\
  heartbeatTimer (stopHeartbeat t) = None.
Proof.
  unfold stopHeartbeat. intros H. destruct (heartbeatTimer t) eqn:E; auto.
  lives. split; [lia | reflexivity].
Qed.

Lemma beat_scheduleReconnect t :
  live_intervals (scheduleReconnect t) = live_intervals t /\
  heartbeatTimer (scheduleReconnect t) = heartbeatTimer t.
Proof.
  unfold scheduleReconnect. cbv zeta.
  destruct (beat_clearReconnectTimer t) as [L H].
  split.
  - lives. exact L.
  - cbn. exact H.
Qed.

Lemma beat_handleDisconnect t :
  live_intervals (handleDisconnect t) = live_intervals t /\
  heartbeatTimer (handleDisconnect t) = heartbeatTimer t.
Proof.
  unfold handleDisconnect.
  destruct (negb _); [apply beat_setStatus|].
  destruct (_ >=? _); [apply beat_setStatus|].
  destruct (beat_scheduleReconnect (setStatus reconnecting t)) as [-> ->].
  apply beat_setStatus.
Qed.

Lemma beat_connect created t :
  live_intervals (fst (connect created t)) = live_intervals t /\
  heartbeatTimer (fst (connect created t)) = heartbeatTimer t.
Proof.
  unfold connect. destruct (_ || _); auto.
  destruct created; cbn [fst].
  - split.
    + lives. apply beat_setStatus.
    + cbn. apply beat_setStatus.
  - split.
    + lives.
      destruct (beat_setStatus error (setStatus connecting t)) as [-> _].
      apply beat_setStatus.
    + cbn.
      destruct (beat_setStatus error (setStatus connecting t)) as [_ H].
      cbn in H. rewrite H. apply beat_setStatus.
Qed.

Lemma beat_subscribe sid cb t :
  live_intervals (subscribe sid cb t) = live_intervals t /\
  heartbeatTimer (subscribe sid cb t) = heartbeatTimer t.
Proof.
  unfold subscribe, sendRaw. cbv zeta.
  destruct (negb _); [destruct (socket_open _)|];
    cbn [sessionSubscribers emit with_sessionSubscribers];
    destruct (map_get _ _); lives; auto.
Qed.

Lemma beat_unsubscribe sid cb t :
  live_intervals (unsubscribe sid cb t) = live_intervals t /\
  heartbeatTimer (unsubscribe sid cb t) = heartbeatTimer t.
Proof.
  unfold unsubscribe, sendRaw. cbv zeta.
  destruct (map_get _ _); auto.
  destruct (_ =? _)%nat; auto. destruct (socket_open _); lives; auto.
Qed.

Lemma beat_step a t :
  live_intervals t = match heartbeatTimer t with Some _ => 1 | None => 0 end ->
  live_intervals (step t a)
  = match heartbeatTimer (step t a) with Some _ => 1 | None => 0 end.
Proof.
  intros Inv. destruct a; cbn [step].
  - destruct (beat_connect created t) as [-> ->]. exact Inv.
  - unfold disconnect. cbv zeta.
    destruct (beat_stopHeartbeat t Inv) as [L H].
    destruct (beat_clearReconnectTimer (stopHeartbeat t)) as [L1 H1].
    rewrite <- L1 in L. rewrite <- H1 in H.
    revert L H. generalize (clearReconnectTimer (stopHeartbeat t)).
    intros u L H.
    destruct (beat_setStatus disconnected
                (match ws u with
                 | Some _ =>
                     with_ws None (emit [WsClose 1000 "Client disconnect"] u)
                 | None => u
                 end)) as [-> ->].
    destruct (ws u); [|now rewrite L, H].
    lives. cbn [heartbeatTimer with_ws emit]. now rewrite L, H.
  - unfold ws_onopen, startHeartbeat. cbv zeta.
    cbn [heartbeatTimer with_heartbeatTimer emit]. lives.
    assert (I0 : live_intervals
                   (setStatus connected
                      (with_reconnectAttempts 0 (set_readyState OPEN t)))
                 = match heartbeatTimer
                           (setStatus connected
                              (with_reconnectAttempts 0
                                 (set_readyState OPEN t))) with
                   | Some _ => 1
                   | None => 0
                   end).
    { destruct (beat_setStatus connected
                  (with_reconnectAttempts 0 (set_readyState OPEN t)))
        as [-> ->].
      lives. cbn [heartbeatTimer with_reconnectAttempts].
      destruct (beat_set_readyState OPEN t) as [-> ->]. exact Inv. }
    destruct (beat_stopHeartbeat _ I0) as [-> _]. reflexivity.
  - unfold ws_onclose. cbv zeta.
    assert (I0 : live_intervals (set_readyState CLOSED t)
                 = match heartbeatTimer (set_readyState CLOSED t) with
                   | Some _ => 1
                   | None => 0
                   end).
    { destruct (beat_set_readyState CLOSED t) as [-> ->]. exact Inv. }
    destruct (beat_stopHeartbeat _ I0) as [L H].
    destruct wasClean.
    + destruct (beat_setStatus disconnected
                  (stopHeartbeat (set_readyState CLOSED t))) as [-> ->].
      now rewrite L, H.
    + destruct (beat_handleDisconnect
                  (stopHeartbeat (set_readyState CLOSED t))) as [-> ->].
      now rewrite L, H.
  - unfold ws_onerror. cbv zeta.
    destruct (beat_setStatus error
                (if status_eqb (status t) connecting
                 then emit [Rejected] t else t)) as [-> ->].
    destruct (status_eqb _ _); auto.
    lives. exact Inv.
  - unfold reconnect_timer_fired. cbv zeta.
    destruct (beat_connect created
                (with_reconnectAttempts (S (reconnectAttempts t)) t))
      as [-> ->].
    exact Inv.
  - unfold heartbeat_tick. destruct (status_eqb _ _); auto.
    destruct (beat_sendRaw (VObj [("type", VStr "ping")]) t) as [-> ->].
    exact Inv.
  - destruct (beat_subscribe sessionId callback t) as [-> ->]. exact Inv.
  - destruct (beat_unsubscribe sessionId callback t) as [-> ->]. exact Inv.
  - unfold subscribeAll. cbv zeta. destruct (_ =? _)%nat; auto.
    destruct (beat_sendRaw subscribe_all_frame
                (with_allSubscribers
                   (set_add callback (allSubscribers t)) t)) as [-> ->].
    exact Inv.
  - unfold unsubscribeAll. cbv zeta. destruct (_ =? _)%nat; auto.
    destruct (beat_sendRaw unsubscribe_all_frame
                (with_allSubscribers
                   (set_delete callback (allSubscribers t)) t)) as [-> ->].
    exact Inv.
  - unfold send. destruct (_ || _); auto.
    destruct (beat_sendRaw (message_frame message) t) as [-> ->]. exact Inv.
  - exact Inv.
  - exact Inv.
Qed.

(** X11: heartbeat intervals do not pile up.  Whatever sequence of calls
    and socket or timer events a new transport goes through, the
    intervals it has armed and not cleared number one if it holds a
    heartbeat timer and none otherwise. *)
Theorem heartbeat_never_leaks
  (c : WebSocketTransportConfig) (actions : list Action) :
  let t := steps actions (constructor c) in
  live_intervals t = match heartbeatTimer t with Some _ => 1 | None => 0 end /\
  0 <= live_intervals t <= 1.
Proof.
  cbv zeta.
  assert (G : forall t,
             live_intervals t
             = match heartbeatTimer t with Some _ => 1 | None => 0 end ->
             live_intervals (steps actions t)
             = match heartbeatTimer (steps actions t) with
               | Some _ => 1
               | None => 0
               end).
  { induction actions as [|a actions IH]; intros t Inv; simpl; auto.
    apply IH. now apply beat_step. }
  specialize (G (constructor c) eq_refl).
  split; [exact G|]. rewrite G. destruct (heartbeatTimer _); lia.
Qed.

(** ** The reconnect timer *)

Lemma pending_app es1 es2 p :
  pending_after (es1 ++ es2) p = pending_after es2 (pending_after es1 p).
Proof. unfold pending_after. apply fold_left_app. Qed.

Lemma quiet_nil : timer_quiet [].
Proof. intros p. reflexivity. Qed.

Lemma quiet_app es1 es2 :
  timer_quiet es1 -> timer_quiet es2 -> timer_quiet (es1 ++ es2).
Proof. intros H1 H2 p. now rewrite pending_app, H1, H2. Qed.

Lemma quiet_notifications s (ls : list nat) :
  timer_quiet (map (fun l => StatusNotified l s) ls).
Proof. intros p. induction ls; simpl; auto. Qed.

Lemma emitted_exact t t' es :
  trace t' = trace t ++ es -> emitted t t' = es.
Proof.
  unfold emitted. intros ->. induction (trace t); simpl; auto.
Qed.

Lemma quietly_refl t : quietly t t.
Proof.
  split; [|auto]. exists []. split; [now rewrite app_nil_r | apply quiet_nil].
Qed.

Lemma quietly_trans t u v : quietly t u -> quietly u v -> quietly t v.
Proof.
  intros [(e1 & E1 & Q1) [C1 R1]] [(e2 & E2 & Q2) [C2 R2]].
  split; [|split; congruence].
  exists (e1 ++ e2). split; [|now apply quiet_app].
  now rewrite E2, E1, app_assoc.
Qed.

Lemma quietly_emit es t : timer_quiet es -> quietly t (emit es t).
Proof. intros Q. split; [|auto]. exists es. auto. Qed.

Lemma quietly_setStatus s t : quietly t (setStatus s t).
Proof.
  unfold setStatus. destruct (negb _); [|apply quietly_refl].
  apply (quietly_trans _ (with_status s t)).
  - split; [|auto]. exists []. split; [|apply quiet_nil].
    symmetry. apply app_nil_r.
  - apply quietly_emit. apply quiet_notifications.
Qed.

Lemma quietly_same_trace t u :
  trace u = trace t -> config u = config t ->
  reconnectTimer u = reconnectTimer t -> quietly t u.
Proof.
  intros Ht Hc Hr. split; [|auto]. exists []. split; [|apply quiet_nil].
  rewrite Ht. symmetry. apply app_nil_r.
Qed.

Lemma quiet_single e :
  match e with TimeoutSet _ | TimeoutCleared => False | _ => True end ->
  timer_quiet [e].
Proof. intros H p. destruct e; simpl; auto; contradiction. Qed.

Lemma quietly_sendRaw d t : quietly t (sendRaw d t).
Proof.
  unfold sendRaw. destruct (socket_open t); [|apply quietly_refl].
  apply quietly_emit. now apply quiet_single.
Qed.

Lemma quietly_stopHeartbeat t : quietly t (stopHeartbeat t).
Proof.
  unfold stopHeartbeat. destruct (heartbeatTimer t); [|apply quietly_refl].
  apply (quietly_trans _ (emit [IntervalCleared] t)).
  - apply quietly_emit. now apply quiet_single.
  - now apply quietly_same_trace.
Qed.

Lemma quietly_connect created t : quietly t (fst (connect created t)).
Proof.
  unfold connect. destruct (_ || _); [apply quietly_refl|].
  destruct created; cbn [fst].
  - apply (quietly_trans _ (setStatus connecting t));
      [apply quietly_setStatus|].
    match goal with
    | |- quietly _ (emit ?es (with_ws ?w ?u)) =>
        apply (quietly_trans _ (with_ws w u));
          [now apply quietly_same_trace
          | apply quietly_emit; now apply quiet_single]
    end.
  - apply (quietly_trans _ (setStatus connecting t));
      [apply quietly_setStatus|].
    apply (quietly_trans _ (setStatus error (setStatus connecting t)));
      [apply quietly_setStatus|].
    apply quietly_emit. now apply quiet_single.
Qed.

Lemma quietly_set_readyState r t : quietly t (set_readyState r t).
Proof.
  unfold set_readyState. destruct (ws t); [|apply quietly_refl].
  now apply quietly_same_trace.
Qed.

Lemma quietly_ws_onerror t : quietly t (ws_onerror t).
Proof.
  unfold ws_onerror. cbv zeta.
  apply (quietly_trans _ (if status_eqb (status t) connecting
                          then emit [Rejected] t else t));
    [|apply quietly_setStatus].
  destruct (status_eqb _ _); [|apply quietly_refl].
  apply quietly_emit. now apply quiet_single.
Qed.

Lemma quietly_ws_onopen t : quietly t (ws_onopen t).
Proof.
  unfold ws_onopen, startHeartbeat. cbv zeta.
  apply (quietly_trans _ (with_reconnectAttempts 0 t));
    [now apply quietly_same_trace|].
  apply (quietly_trans _ (setStatus connected (with_reconnectAttempts 0 t)));
    [apply quietly_setStatus|].
  apply (quietly_trans
           _ (stopHeartbeat
                (setStatus connected (with_reconnectAttempts 0 t))));
    [apply quietly_stopHeartbeat|].
  match goal with
  | |- quietly ?u (emit ?e1 (with_heartbeatTimer ?x (emit ?e2 ?u))) =>
      apply (quietly_trans _ (emit e2 u));
        [apply quietly_emit; now apply quiet_single|];
      apply (quietly_trans _ (with_heartbeatTimer x (emit e2 u)));
        [now apply quietly_same_trace
        | apply quietly_emit; now apply quiet_single]
  end.
Qed.

Lemma quietly_subscribe sid cb t : quietly t (subscribe sid cb t).
Proof.
  unfold subscribe. cbv zeta.
  match goal with
  | |- quietly t (match map_get sid (sessionSubscribers ?u) with _ => _ end) =>
      assert (Q : quietly t u)
  end.
  { destruct (negb _); [|apply quietly_refl].
    apply (quietly_trans
             _ (with_sessionSubscribers
                  (map_set sid [] (sessionSubscribers t)) t));
      [now apply quietly_same_trace | apply quietly_sendRaw]. }
  destruct (map_get sid _); [|exact Q].
  eapply quietly_trans; [exact Q|]. now apply quietly_same_trace.
Qed.

Lemma quietly_unsubscribe sid cb t : quietly t (unsubscribe sid cb t).
Proof.
  unfold unsubscribe. cbv zeta.
  destruct (map_get sid _); [|apply quietly_refl].
  destruct (_ =? _)%nat; [|now apply quietly_same_trace].
  eapply quietly_trans; [|apply quietly_sendRaw].
  now apply quietly_same_trace.
Qed.

(** The actions that neither arm nor cancel the reconnect timer. *)
Lemma quietly_step a t :
  match a with Disconnect | SocketClosed _ => False | _ => True end ->
  quietly t (step t a).
Proof.
  destruct a; cbn [step]; intros H; try contradiction.
  - apply quietly_connect.
  - eapply quietly_trans; [apply quietly_set_readyState|].
    apply quietly_ws_onopen.
  - apply quietly_ws_onerror.
  - unfold reconnect_timer_fired. cbv zeta.
    eapply quietly_trans; [|apply quietly_connect].
    now apply quietly_same_trace.
  - unfold heartbeat_tick. destruct (status_eqb _ _);
      [apply quietly_sendRaw | apply quietly_refl].
  - apply quietly_subscribe.
  - apply quietly_unsubscribe.
  - unfold subscribeAll. cbv zeta.
    destruct (_ =? _)%nat; [|now apply quietly_same_trace].
    eapply quietly_trans; [|apply quietly_sendRaw].
    now apply quietly_same_trace.
  - unfold unsubscribeAll. cbv zeta.
    destruct (_ =? _)%nat; [|now apply quietly_same_trace].
    eapply quietly_trans; [|apply quietly_sendRaw].
    now apply quietly_same_trace.
  - unfold send. destruct (_ || _);
      [apply quietly_refl | apply quietly_sendRaw].
  - now apply quietly_same_trace.
  - now apply quietly_same_trace.
Qed.

Lemma quietly_pending t t' p :
  quietly t t' -> pending_after (emitted t t') p = p.
Proof.
  intros [(es & E & Q) _]. rewrite (emitted_exact t t' es E). apply Q.
Qed.

Lemma effect_of_quietly t t' : quietly t t' -> timer_effect t t' (fun p => p).
Proof. intros [(es & E & Q) _]. exists es. auto. Qed.

Lemma effect_compose t u v f g :
  timer_effect t u f -> timer_effect u v g ->
  timer_effect t v (fun p => g (f p)).
Proof.
  intros (e1 & E1 & F1) (e2 & E2 & F2). exists (e1 ++ e2). split.
  - now rewrite E2, E1, app_assoc.
  - intros p. now rewrite pending_app, F1, F2.
Qed.

Lemma effect_pending t t' f p :
  timer_effect t t' f -> pending_after (emitted t t') p = f p.
Proof. intros (es & E & F). now rewrite (emitted_exact t t' es E). Qed.

Lemma effect_clearReconnectTimer t :
  timer_effect t (clearReconnectTimer t)
    (fun p => match reconnectTimer t with Some _ => false | None => p end).
Proof.
  unfold clearReconnectTimer. destruct (reconnectTimer t).
  - exists [TimeoutCleared]. split; reflexivity.
  - exists []. split; [symmetry; apply app_nil_r | reflexivity].
Qed.

Lemma effect_scheduleReconnect t :
  timer_effect t (scheduleReconnect t) (fun _ => true).
Proof.
  unfold scheduleReconnect. cbv zeta.
  destruct (effect_clearReconnectTimer t) as (es & E & F).
  exists (es ++ [TimeoutSet (reconnect_delay (clearReconnectTimer t))]).
  split.
  - cbn. now rewrite E, app_assoc.
  - intros p. now rewrite pending_app.
Qed.

Lemma effect_disconnect t :
  timer_effect t (disconnect t)
    (fun p => match reconnectTimer t with Some _ => false | None => p end).
Proof.
  unfold disconnect. cbv zeta.
  pose proof (effect_of_quietly _ _ (quietly_stopHeartbeat t)) as E1.
  pose proof (effect_clearReconnectTimer (stopHeartbeat t)) as E2.
  destruct (stopHeartbeat_keeps t) as (_ & _ & _ & Hr & _).
  rewrite Hr in E2.
  pose proof (effect_compose _ _ _ _ _ E1 E2) as E12. cbv beta in E12.
  set (u := clearReconnectTimer (stopHeartbeat t)) in *.
  assert (Q : quietly u
                (setStatus disconnected
                   (match ws u with
                    | Some _ =>
                        with_ws None
                          (emit [WsClose 1000 "Client disconnect"] u)
                    | None => u
                    end))).
  { eapply quietly_trans; [|apply quietly_setStatus].
    destruct (ws u); [|apply quietly_refl].
    apply (quietly_trans _ (emit [WsClose 1000 "Client disconnect"] u));
      [apply quietly_emit; now apply quiet_single|].
    now apply quietly_same_trace. }
  exact (effect_compose _ _ _ _ _ E12 (effect_of_quietly _ _ Q)).
Qed.

Lemma effect_ws_onclose wasClean t :
  let retry := negb wasClean && enabled (config t)
               && (Z.of_nat (reconnectAttempts t) <? maxAttempts (config t)) in
  timer_effect t (ws_onclose wasClean t)
    (fun p => if retry then true else p) /\
  (retry = false ->
   reconnectTimer (ws_onclose wasClean t) = reconnectTimer t).
Proof.
  cbv zeta. unfold ws_onclose. cbv zeta.
  pose proof (effect_of_quietly _ _ (quietly_stopHeartbeat t)) as E1.
  destruct (stopHeartbeat_keeps t) as (Hc & Ha & _ & Hr & _).
  rewrite <- Hc, <- Ha, <- Hr.
  set (u := stopHeartbeat t) in *.
  destruct wasClean; cbn [negb andb].
  - split.
    + exact (effect_compose _ _ _ _ _ E1
               (effect_of_quietly _ _ (quietly_setStatus disconnected u))).
    + intros _. apply (quietly_setStatus disconnected u).
  - unfold handleDisconnect. destruct (enabled (config u)); cbn [negb andb].
    + destruct (Z.geb_spec (Z.of_nat (reconnectAttempts u))
                           (maxAttempts (config u)));
        destruct (Z.ltb_spec (Z.of_nat (reconnectAttempts u))
                             (maxAttempts (config u))); try lia.
      * split.
        -- exact (effect_compose _ _ _ _ _ E1
                    (effect_of_quietly _ _ (quietly_setStatus error u))).
        -- intros _. apply (quietly_setStatus error u).
      * split; [|discriminate].
        pose proof (effect_of_quietly _ _ (quietly_setStatus reconnecting u))
          as E2.
        pose proof (effect_scheduleReconnect (setStatus reconnecting u))
          as E3.
        exact (effect_compose _ _ _ _ _ (effect_compose _ _ _ _ _ E1 E2) E3).
    + split.
      * exact (effect_compose _ _ _ _ _ E1
                 (effect_of_quietly _ _ (quietly_setStatus disconnected u))).
      * intros _. apply (quietly_setStatus disconnected u).
Qed.

Lemma attempts_step a t :
  reconnectAttempts (step t a)
  = match a with
    | SocketOpened => 0%nat
    | ReconnectTimerFired _ => S (reconnectAttempts t)
    | _ => reconnectAttempts t
    end.
Proof.
  destruct a; cbn [step].
  - apply TransportFacts.connect_reconnectAttempts.
  - apply disconnect_fields.
  - unfold ws_onopen, startHeartbeat, stopHeartbeat. cbv zeta.
    match goal with
    | |- context [heartbeatTimer ?x] => destruct (heartbeatTimer x)
    end; cbn; now rewrite TransportFacts.setStatus_reconnectAttempts.
  - destruct (ws_onclose_outcome wasClean (set_readyState CLOSED t))
      as (_ & -> & _).
    unfold set_readyState. now destruct (ws t).
  - unfold ws_onerror. cbv zeta.
    rewrite TransportFacts.setStatus_reconnectAttempts.
    now destruct (status_eqb _ _).
  - unfold reconnect_timer_fired. cbv zeta.
    now rewrite TransportFacts.connect_reconnectAttempts.
  - unfold heartbeat_tick, sendRaw.
    destruct (status_eqb _ _); [destruct (socket_open t)|]; reflexivity.
  - unfold subscribe, sendRaw. cbv zeta.
    destruct (negb _); [destruct (socket_open _)|];
      cbn [sessionSubscribers emit with_sessionSubscribers];
      destruct (map_get _ _); reflexivity.
  - unfold unsubscribe, sendRaw. cbv zeta.
    destruct (map_get _ _); auto.
    destruct (_ =? _)%nat; auto. now destruct (socket_open _).
  - unfold subscribeAll, sendRaw. cbv zeta.
    destruct (_ =? _)%nat; auto. now destruct (socket_open _).
  - unfold unsubscribeAll, sendRaw. cbv zeta.
    destruct (_ =? _)%nat; auto. now destruct (socket_open _).
  - unfold send, sendRaw. destruct (_ || _); auto.
    now destruct (socket_open _).
  - reflexivity.
  - reflexivity.
Qed.

Lemma config_step a t : config (step t a) = config t.
Proof.
  destruct a.
  - apply (quietly_step (Connect created) t I).
  - apply disconnect_config.
  - apply (quietly_step SocketOpened t I).
  - cbn [step].
    destruct (ws_onclose_outcome wasClean (set_readyState CLOSED t))
      as (-> & _).
    unfold set_readyState. now destruct (ws t).
  - apply (quietly_step SocketFailed t I).
  - apply (quietly_step (ReconnectTimerFired created) t I).
  - apply (quietly_step HeartbeatTick t I).
  - apply (quietly_step (Subscribe sessionId callback) t I).
  - apply (quietly_step (Unsubscribe sessionId callback) t I).
  - apply (quietly_step (SubscribeAll callback) t I).
  - apply (quietly_step (UnsubscribeAll callback) t I).
  - apply (quietly_step (Send message) t I).
  - apply (quietly_step (OnStatusChange callback) t I).
  - apply (quietly_step (OffStatusChange callback) t I).
Qed.

Lemma budget_step a w : within_budget w -> within_budget (timed_step w a).
Proof.
  destruct w as [t p]. unfold within_budget. cbn [transport pending].
  intros [Hp Hb].
  assert (Quiet : forall a',
             match a' with Disconnect | SocketClosed _ => False | _ => True end ->
             forall q,
               pending_after (emitted t (step t a')) q = q /\
               reconnectTimer (step t a') = reconnectTimer t).
  { intros a' Ha q. pose proof (quietly_step a' t Ha) as Q.
    split; [now apply quietly_pending | apply Q]. }
  destruct a; unfold timed_step; cbn [transport pending];
    try (match goal with
         | |- context [step t ?a'] =>
             destruct (Quiet a' I p) as [Qp Qr];
             rewrite Qp, Qr, (attempts_step a' t), (config_step a' t)
         end;
         split; [intros H; destruct (Hp H) as [Hr Hlt]; split;
                 [exact Hr | lia] | lia]).
  - (* Disconnect *)
    rewrite (attempts_step Disconnect t), (config_step Disconnect t).
    cbn [step].
    rewrite (effect_pending _ _ _ p (effect_disconnect t)).
    split; [|exact Hb].
    destruct (reconnectTimer t) eqn:E; [discriminate|].
    intros H. destruct (Hp H) as [Hr _]. congruence.
  - (* SocketClosed *)
    rewrite (attempts_step (SocketClosed wasClean) t),
      (config_step (SocketClosed wasClean) t).
    split; [|exact Hb].
    cbn [step].
    destruct (effect_ws_onclose wasClean (set_readyState CLOSED t))
      as [E Hkeep].
    destruct (ws_onclose_outcome wasClean (set_readyState CLOSED t))
      as (_ & _ & _ & _ & _ & Harm).
    assert (Hsame : config (set_readyState CLOSED t) = config t /\
                    reconnectAttempts (set_readyState CLOSED t)
                    = reconnectAttempts t /\
                    reconnectTimer (set_readyState CLOSED t)
                    = reconnectTimer t).
    { unfold set_readyState. now destruct (ws t). }
    destruct Hsame as (Hc & Ha & Hr). rewrite Hc, Ha, Hr in *.
    pose proof (effect_of_quietly _ _ (quietly_set_readyState CLOSED t)) as E0.
    rewrite (effect_pending _ _ _ p (effect_compose _ _ _ _ _ E0 E)).
    cbv beta.
    destruct (negb wasClean && enabled (config t)
              && (Z.of_nat (reconnectAttempts t) <? maxAttempts (config t)))
      eqn:R.
    + intros _. rewrite (Harm eq_refl). split; [discriminate|].
      apply andb_prop in R. destruct R as [_ R]. now apply Z.ltb_lt.
    + intros H. rewrite (Hkeep eq_refl). now apply Hp.
  - (* ReconnectTimerFired *)
    destruct p; cbn [transport pending]; [|auto].
    destruct (Quiet (ReconnectTimerFired created) I false) as [Qp Qr].
    rewrite Qp, (attempts_step (ReconnectTimerFired created) t),
      (config_step (ReconnectTimerFired created) t).
    split; [discriminate|]. destruct (Hp eq_refl) as [_ Hlt]. lia.
Qed.

(** X12: the attempt counter stays within the budget.  A new transport
    driven by any sequence of calls, socket events and timer callbacks,
    where the reconnect timer fires only while it is pending, never has
    more than [maxAttempts] attempts on its counter (none if
    [maxAttempts] is negative); a retry is pending only with attempts
    left; and [disconnect()] leaves no retry pending. *)
Theorem attempts_within_budget
  (c : WebSocketTransportConfig) (actions : list Action) :
  let w := timed_steps actions (timed_start c) in
  Z.of_nat (reconnectAttempts (transport w))
  <= Z.max 0 (maxAttempts (config (transport w))) /\
  config (transport w) = config (constructor c) /\
  (pending w = true ->
   Z.of_nat (reconnectAttempts (transport w))
   < maxAttempts (config (transport w))) /\
  pending (timed_step w Disconnect) = false.
Proof.
  cbv zeta.
  assert (G : forall w,
             within_budget w ->
             within_budget (timed_steps actions w) /\
             config (transport (timed_steps actions w))
             = config (transport w)).
  { induction actions as [|a actions IH]; intros w Hw; simpl; auto.
    destruct (IH (timed_step w a) (budget_step a w Hw)) as [H1 H2].
    split; [exact H1|]. rewrite H2.
    destruct w as [t p], a; unfold timed_step; cbn [transport pending];
      try apply config_step.
    destruct p; [apply config_step | reflexivity]. }
  destruct (G (timed_start c)) as [[Hp Hb] Hc].
  { split; [discriminate|]. cbn. lia. }
  split; [exact Hb|]. split; [exact Hc|]. split; [apply Hp|].
  destruct (timed_steps actions (timed_start c)) as [t p].
  cbn [transport pending] in *.
  unfold timed_step. cbn [transport pending step].
  rewrite (effect_pending _ _ _ p (effect_disconnect t)).
  destruct (reconnectTimer t) eqn:E; [reflexivity|].
  destruct p; [|reflexivity]. destruct (Hp eq_refl) as [Hr _]. congruence.
Qed.

End TransportLaws.

(* ================================================================== *)
(** * The reconnect back-off, from the constructor to the timer *)
(* ================================================================== *)

Module TransportBackoff.
Import Js Transport TransportFacts TransportLaws.

Lemma config_steps actions t : config (steps actions t) = config t.
Proof.
  revert t. induction actions as [|a actions IH]; intros t; cbn; auto.
  fold (steps actions (step t a)). rewrite IH. apply config_step.
Qed.

Lemma closed_keeps t :
  config (set_readyState CLOSED t) = config t /\
  reconnectAttempts (set_readyState CLOSED t) = reconnectAttempts t /\
  timeouts_set (set_readyState CLOSED t) = timeouts_set t.
Proof. unfold set_readyState. destruct (ws t); auto. Qed.

(** The timer callback on a transport that waits for its retry. *)
Lemma retry_callback created t :
  status t = reconnecting ->
  let u := reconnect_timer_fired created t in
  config u = config t /\
  reconnectAttempts u = S (reconnectAttempts t) /\
  status u = (if created then connecting else error) /\
  timeouts_set u = timeouts_set t.
Proof.
  intros Hs. cbv zeta.
  destruct t as [w st sl ss al ra rt ht cfg tr]. cbn in Hs. subst st.
  unfold reconnect_timer_fired, connect, setStatus, timeouts_set.
  destruct created; cbn; repeat split;
    rewrite !flat_map_app; cbn; rewrite !timeouts_of_notifications;
    now rewrite !app_nil_r.
Qed.

(** C2: whatever reconnect options the transport was constructed with
    and whatever it went through since, [scheduleReconnect] arms the
    timer with [min(baseDelay * 2^attempts, maxDelay)], where [baseDelay]
    and [maxDelay] are the configured values, or 1000 and 30000 for the
    one that was omitted, and [attempts] is the count at that moment,
    which scheduling leaves alone; an unclean close arms exactly this
    timer while reconnection is enabled (the default) and the count is
    below [maxAttempts] (10 when omitted); the timer callback then
    raises the count by one and calls [connect()], so that the delay
    after a failure of that retry is computed from the raised count. *)
Theorem reconnect_backoff
  (c : WebSocketTransportConfig) (history : list Action) :
  let base := match cfg_reconnect c with
              | Some r => match opt_baseDelay r with
                          | Some b => b
                          | None => 1000
                          end
              | None => 1000
              end in
  let cap := match cfg_reconnect c with
             | Some r => match opt_maxDelay r with
                         | Some d => d
                         | None => 30000
                         end
             | None => 30000
             end in
  let limit := match cfg_reconnect c with
               | Some r => match opt_maxAttempts r with
                           | Some n => n
                           | None => 10
                           end
               | None => 10
               end in
  let retrying := match cfg_reconnect c with
                  | Some r => match opt_enabled r with
                              | Some e => e
                              | None => true
                              end
                  | None => true
                  end in
  let delay (attempts : nat) := Z.min (base * 2 ^ Z.of_nat attempts) cap in
  let t := steps history (constructor c) in
  let n := reconnectAttempts t in
  (* scheduling *)
  (let t1 := scheduleReconnect t in
   reconnectTimer t1 = Some (delay n) /\
   timeouts_set t1 = timeouts_set t ++ [delay n] /\
   reconnectAttempts t1 = n) /\
  (* the close event that schedules *)
  (retrying = true -> Z.of_nat n < limit ->
   let t1 := step t (SocketClosed false) in
   status t1 = reconnecting /\
   reconnectTimer t1 = Some (delay n) /\
   timeouts_set t1 = timeouts_set t ++ [delay n] /\
   reconnectAttempts t1 = n /\
   (* the timer callback *)
   (forall created,
       let t2 := step t1 (ReconnectTimerFired created) in
       reconnectAttempts t2 = S n /\
       status t2 = (if created then connecting else error) /\
       timeouts_set t2 = timeouts_set t1) /\
   (* a retry that fails *)
   (Z.of_nat (S n) < limit ->
    let t3 := steps [ReconnectTimerFired true; SocketFailed;
                     SocketClosed false] t1 in
    status t3 = reconnecting /\
    reconnectAttempts t3 = S n /\
    reconnectTimer t3 = Some (delay (S n)) /\
    timeouts_set t3 = timeouts_set t ++ [delay n; delay (S n)])) /\
  (* without reconnection, or with the attempts used up, no timer *)
  (retrying = false \/ limit <= Z.of_nat n ->
   timeouts_set (step t (SocketClosed false)) = timeouts_set t).
Proof.
  cbv zeta.
  set (t := steps history (constructor c)).
  assert (Hcfg : config t = config (constructor c)) by apply config_steps.
  assert (Hb : baseDelay (config t)
               = match cfg_reconnect c with
                 | Some r => match opt_baseDelay r with
                             | Some b => b
                             | None => 1000
                             end
                 | None => 1000
                 end).
  { rewrite Hcfg. cbn. unfold reconnect_field, default.
    destruct (cfg_reconnect c) as [r|]; [destruct (opt_baseDelay r)|];
      reflexivity. }
  assert (Hm : maxDelay (config t)
               = match cfg_reconnect c with
                 | Some r => match opt_maxDelay r with
                             | Some d => d
                             | None => 30000
                             end
                 | None => 30000
                 end).
  { rewrite Hcfg. cbn. unfold reconnect_field, default.
    destruct (cfg_reconnect c) as [r|]; [destruct (opt_maxDelay r)|];
      reflexivity. }
  assert (Hl : maxAttempts (config t)
               = match cfg_reconnect c with
                 | Some r => match opt_maxAttempts r with
                             | Some n => n
                             | None => 10
                             end
                 | None => 10
                 end).
  { rewrite Hcfg. cbn. unfold reconnect_field, default.
    destruct (cfg_reconnect c) as [r|]; [destruct (opt_maxAttempts r)|];
      reflexivity. }
  assert (He : enabled (config t)
               = match cfg_reconnect c with
                 | Some r => match opt_enabled r with
                             | Some e => e
                             | None => true
                             end
                 | None => true
                 end).
  { rewrite Hcfg. cbn. unfold reconnect_field, default.
    destruct (cfg_reconnect c) as [r|]; [destruct (opt_enabled r)|];
      reflexivity. }
  rewrite <- Hb, <- Hm, <- Hl, <- He. clear Hb Hm Hl He Hcfg.
  generalize t. clear t c history. intros t.
  split; [|split].
  - repeat split.
    + unfold scheduleReconnect. simpl. rewrite reconnect_delay_clear.
      reflexivity.
    + apply timeouts_scheduleReconnect.
    + unfold scheduleReconnect. simpl.
      apply clearReconnectTimer_reconnectAttempts.
  - intros Hen Hlt. cbn [step].
    destruct (closed_keeps t) as (Kc & Ka & Kt).
    destruct (ws_onclose_outcome false (set_readyState CLOSED t))
      as (Oc & Oa & _ & Os & Ot & Or).
    rewrite Kc, Ka, Kt in *. rewrite Hen in *.
    destruct (Z.ltb_spec (Z.of_nat (reconnectAttempts t))
                         (maxAttempts (config t))) as [_|]; [|lia].
    cbn [negb andb] in *. specialize (Or eq_refl).
    set (t1 := ws_onclose false (set_readyState CLOSED t)) in *.
    unfold backoff in *.
    split; [exact Os|]. split; [exact Or|]. split; [exact Ot|].
    split; [exact Oa|]. split.
    + intros created.
      destruct (retry_callback created t1 Os) as (_ & Ra & Rs & Rt).
      rewrite Oa in Ra. auto.
    + intros Hlt'. cbn [steps fold_left step].
      destruct (retry_attempt t1 Os) as (Rc & Ra & Rt).
      destruct (ws_onclose_outcome false
                  (set_readyState CLOSED
                     (ws_onerror (reconnect_timer_fired true t1))))
        as (Pc & Pa & _ & Ps & Pt & Pr).
      rewrite Rc, Oc in Pc, Ps, Pt, Pr. rewrite Ra, Oa in Pa, Ps, Pt, Pr.
      rewrite Rt, Ot in Pt. rewrite Hen in Ps, Pt, Pr.
      destruct (Z.ltb_spec (Z.of_nat (S (reconnectAttempts t)))
                           (maxAttempts (config t))) as [_|]; [|lia].
      cbn [negb andb] in *. specialize (Pr eq_refl).
      unfold backoff in *.
      split; [exact Ps|]. split; [exact Pa|]. split; [exact Pr|].
      rewrite Pt, <- app_assoc. reflexivity.
  - intros H. cbn [step].
    destruct (closed_keeps t) as (Kc & Ka & Kt).
    destruct (ws_onclose_outcome false (set_readyState CLOSED t))
      as (_ & _ & _ & _ & Ot & _).
    rewrite Kc, Ka, Kt in *. rewrite Ot.
    destruct H as [H|H].
    + rewrite H. cbn. apply app_nil_r.
    + destruct (Z.ltb_spec (Z.of_nat (reconnectAttempts t))
                           (maxAttempts (config t))); [lia|].
      rewrite Bool.andb_false_r. apply app_nil_r.
Qed.

Lemma reconnect_backoff_witness :
  let t := steps [Connect true; SocketOpened] (constructor tuned) in
  let t1 := step t (SocketClosed false) in
  let t3 := steps [ReconnectTimerFired true; SocketFailed;
                   SocketClosed false] t1 in
  reconnectAttempts t = 0%nat /\
  reconnectTimer t1 = Some 500 /\
  reconnectAttempts (step t1 (ReconnectTimerFired true)) = 1%nat /\
  reconnectTimer t3 = Some 1000 /\
  timeouts_set t3 = [500; 1000].
Proof.
  cbv zeta.
  destruct (reconnect_backoff tuned [Connect true; SocketOpened])
    as (_ & H & _).
  destruct H as (_ & H1 & _ & _ & H2 & H3); [reflexivity|reflexivity|].
  destruct (H2 true) as (H4 & _).
  destruct H3 as (_ & _ & H5 & H6); [reflexivity|].
  split; [reflexivity|]. split; [exact H1|]. split; [exact H4|].
  split; [exact H5 | exact H6].
Defined.

End TransportBackoff.

(* ================================================================== *)
(** * Further laws of the message store                                *)
(* ================================================================== *)

Module StoreLaws.
Import Js JsFacts MessageStore.

Lemma map_get_delete_other {V : Type} k k' (m : list (string * V)) :
  k <> k' -> map_get k' (map_delete k m) = map_get k' m.
Proof.
  intros Hne. unfold map_delete.
  induction m as [|[k0 x] m IH]; simpl; auto.
  destruct (String.eqb_spec k0 k); simpl.
  - subst. destruct (String.eqb_spec k k'); [contradiction | exact IH].
  - now rewrite IH.
Qed.

Lemma map_delete_absent {V : Type} k (m : list (string * V)) :
  map_get k m = None -> map_delete k m = m.
Proof.
  unfold map_delete. induction m as [|[k' x] m IH]; simpl; auto.
  destruct (String.eqb_spec k' k); [discriminate|].
  intros H. simpl. f_equal. auto.
Qed.

Section Laws.
Variables TMessage Partial : Type.
Variable id : TMessage -> string.
Variable spread : TMessage -> Partial -> TMessage.

Implicit Types (s : InMemoryMessageStore TMessage).

(** X13: [updateMessage] never creates an entry: on an absent id it
    returns the store untouched and notifies no one.  On a present id it
    replaces that entry by the merge, leaves every other entry and the
    order of iteration alone, and calls each listener once with the new
    snapshot. *)
Theorem update_in_place (key : string) (updates : Partial) s :
  (getMessage key s = None -> updateMessage spread key updates s = s) /\
  (forall existing,
      getMessage key s = Some existing ->
      let s' := updateMessage spread key updates s in
      getMessage key s' = Some (spread existing updates) /\
      (forall k, k <> key -> getMessage k s' = getMessage k s) /\
      map_keys (messages s') = map_keys (messages s) /\
      notified s'
      = notified s ++ map (fun l => (l, getMessages s')) (listeners s)).
Proof.
  unfold getMessage, updateMessage. split.
  - intros ->. reflexivity.
  - intros existing E. rewrite E. cbn. repeat split.
    + apply map_get_set_same.
    + intros k Hk. apply map_get_set_other. congruence.
    + apply map_keys_set_present. apply map_has_keys.
      unfold map_has. now rewrite E.
Qed.

(** X14: [removeMessage] on an absent id returns the store untouched and
    notifies no one.  On a present id the entry is gone, the others keep
    their values and their relative order, and each listener is called
    once with the new snapshot. *)
Theorem remove_only_that (key : string) s :
  (getMessage key s = None -> removeMessage key s = s) /\
  (getMessage key s <> None ->
   let s' := removeMessage key s in
   getMessage key s' = None /\
   (forall k, k <> key -> getMessage k s' = getMessage k s) /\
   map_keys (messages s')
   = filter (fun k => negb (k =? key)%string) (map_keys (messages s)) /\
   notified s'
   = notified s ++ map (fun l => (l, getMessages s')) (listeners s)).
Proof.
  unfold getMessage, removeMessage, map_has. split.
  - intros ->. reflexivity.
  - intros E. destruct (map_get key (messages s)); [|congruence].
    cbn. repeat split.
    + apply TransportLaws.map_get_delete_same.
    + intros k Hk. apply map_get_delete_other. congruence.
    + apply map_keys_delete.
Qed.

(** X15: what is added can be read back, and removing it again undoes
    the addition when the id was new: [getMessage] after [addMessage]
    returns the message, after [removeMessage] nothing, and the [Map] is
    then as it was before the pair of calls. *)
Theorem add_get_remove (message : TMessage) s :
  getMessage (id message) (addMessage id message s) = Some message /\
  getMessage (id message)
    (removeMessage (id message) (addMessage id message s)) = None /\
  (getMessage (id message) s = None ->
   messages (removeMessage (id message) (addMessage id message s))
   = messages s).
Proof.
  unfold getMessage, addMessage, removeMessage, map_has. cbn.
  rewrite map_get_set_same. cbn. split; [reflexivity|].
  split; [apply TransportLaws.map_get_delete_same|].
  intros E. rewrite map_set_absent.
  - unfold map_delete. rewrite filter_app. cbn. rewrite String.eqb_refl. cbn.
    rewrite app_nil_r. now apply map_delete_absent.
  - apply map_has_false_keys. unfold map_has. now rewrite E.
Qed.

Lemma apply_notifies (op : Mutation TMessage Partial) s :
  listeners (apply id spread s op) = listeners s /\
  (apply id spread s op = s \/
   notified (apply id spread s op)
   = notified s
     ++ map (fun l => (l, getMessages (apply id spread s op))) (listeners s)).
Proof.
  destruct op as [m|ms|k u|k|]; cbn; auto.
  - unfold updateMessage. destruct (map_get k (messages s)); auto.
  - unfold removeMessage. destruct (map_has k (messages s)); auto.
Qed.

(** X16: listeners are never left with stale contents.  After any
    sequence of mutations either nothing happened at all (same entries,
    no call made), or the last call made to every listener carried the
    snapshot the store now holds; the set of listeners is not touched. *)
Theorem notifications_current (ops : list (Mutation TMessage Partial)) s :
  let s' := run id spread ops s in
  listeners s' = listeners s /\
  (s' = s \/
   exists earlier,
     notified s'
     = earlier ++ map (fun l => (l, getMessages s')) (listeners s)).
Proof.
  cbv zeta. revert s. induction ops as [|op ops IH]; intros s; cbn.
  - auto.
  - destruct (apply_notifies op s) as [Hl Hn].
    destruct (IH (apply id spread s op)) as [Hl' Hn'].
    fold (run id spread ops (apply id spread s op)) in *.
    split; [congruence|].
    destruct Hn' as [E|(earlier & E)].
    + rewrite E. destruct Hn as [E'|E']; [left; exact E'|].
      right. eexists. exact E'.
    + right. exists earlier. now rewrite E, Hl.
Qed.

Lemma heard_app l (a b : list (nat * list TMessage)) s :
  notified s = a ++ b ->
  heard l s
  = map snd (filter (fun n => Nat.eqb (fst n) l) a)
    ++ map snd (filter (fun n => Nat.eqb (fst n) l) b).
Proof. unfold heard. intros ->. now rewrite filter_app, map_app. Qed.

Lemma heard_none l (snapshot : list TMessage) (ls : list nat) :
  ~ In l ls ->
  filter (fun n : nat * list TMessage => Nat.eqb (fst n) l)
         (map (fun l' => (l', snapshot)) ls) = [].
Proof.
  induction ls as [|a ls IH]; cbn; auto.
  intros H. destruct (Nat.eqb_spec a l); [subst; tauto|]. apply IH. tauto.
Qed.

Lemma heard_once l (snapshot : list TMessage) (ls : list nat) :
  NoDup ls -> In l ls ->
  filter (fun n : nat * list TMessage => Nat.eqb (fst n) l)
         (map (fun l' => (l', snapshot)) ls) = [(l, snapshot)].
Proof.
  induction 1 as [|a ls Hnotin Hnd IH]; cbn; [tauto|].
  intros [->|Hin].
  - rewrite Nat.eqb_refl. f_equal. now apply heard_none.
  - destruct (Nat.eqb_spec a l); [subst; contradiction|]. now apply IH.
Qed.

Lemma NoDup_snoc (x : nat) (ls : list nat) :
  NoDup ls -> ~ In x ls -> NoDup (ls ++ [x]).
Proof.
  induction 1 as [|a ls Hnotin Hnd IH]; cbn; intros Hx.
  - constructor; [tauto | constructor].
  - constructor.
    + rewrite in_app_iff. cbn. intros [H|[H|[]]]; [contradiction|].
      subst. tauto.
    + apply IH. tauto.
Qed.

Lemma set_add_NoDup x (ls : list nat) : NoDup ls -> NoDup (set_add x ls).
Proof.
  unfold set_add, set_has. intros H.
  destruct (existsb (Nat.eqb x) ls) eqn:E; auto.
  apply NoDup_snoc; auto. intros Hin.
  assert (existsb (Nat.eqb x) ls = true); [|congruence].
  apply existsb_exists. exists x. split; auto. apply Nat.eqb_refl.
Qed.

(** X17: subscribing and unsubscribing.  A listener that subscribes is
    called exactly once by each mutation that takes effect, with the new
    snapshot, however many times it subscribed; a listener that has
    unsubscribed is never called again, whatever mutations follow. *)
Theorem listener_lifecycle
  (listener : nat) (op : Mutation TMessage Partial)
  (ops : list (Mutation TMessage Partial)) s :
  NoDup (listeners s) ->
  let s1 := subscribe listener (subscribe listener s) in
  (apply id spread s1 op = s1 \/
   heard listener (apply id spread s1 op)
   = heard listener s ++ [getMessages (apply id spread s1 op)]) /\
  heard listener (run id spread ops (unsubscribe listener s))
  = heard listener s.
Proof.
  intros Hnd. cbv zeta. split.
  - destruct (apply_notifies op (subscribe listener (subscribe listener s)))
      as [_ [E|E]]; [now left|right].
    rewrite (heard_app listener _ _ _ E). cbn [notified subscribe listeners].
    rewrite heard_once.
    + reflexivity.
    + now apply set_add_NoDup, set_add_NoDup.
    + apply TransportLaws.set_add_In.
  - assert (G : forall s0,
               ~ In listener (listeners s0) ->
               heard listener (run id spread ops s0) = heard listener s0).
    { induction ops as [|o os IH]; intros s0 Hs0; cbn; auto.
      destruct (apply_notifies o s0) as [Hl Hn].
      fold (run id spread os (apply id spread s0 o)).
      rewrite IH by (now rewrite Hl).
      destruct Hn as [->|E]; auto.
      rewrite (heard_app listener _ _ _ E), heard_none by exact Hs0.
      cbn. now rewrite app_nil_r. }
    rewrite G; [reflexivity|]. cbn. apply TransportLaws.set_delete_not_In.
Qed.

End Laws.

Lemma update_in_place_witness :
  updateMessage note_spread "zz" (Some "ghost") stocked = stocked /\
  getMessages (updateMessage note_spread "a" (Some "edited") stocked)
  = [("a", "edited"); ("b", "two")].
Proof.
  destruct (update_in_place Note (option string) note_spread
              "zz" (Some "ghost") stocked) as [Habsent _].
  destruct (update_in_place Note (option string) note_spread
              "a" (Some "edited") stocked) as [_ Hpresent].
  split; [apply Habsent; reflexivity|].
  destruct (Hpresent ("a", "second") eq_refl) as (_ & _ & _ & _).
  reflexivity.
Defined.

Lemma remove_only_that_witness :
  removeMessage "zz" stocked = stocked /\
  getMessage "a" (removeMessage "a" stocked) = None /\
  getMessage "b" (removeMessage "a" stocked) = Some ("b", "two").
Proof.
  destruct (remove_only_that Note "zz" stocked) as [Habsent _].
  destruct (remove_only_that Note "a" stocked) as [_ Hpresent].
  split; [apply Habsent; reflexivity|].
  destruct Hpresent as (H1 & H2 & _); [discriminate|].
  split; [exact H1|]. rewrite H2; [reflexivity | discriminate].
Defined.

Lemma add_get_remove_witness :
  getMessage "c" (addMessage fst ("c", "new") stocked) = Some ("c", "new") /\
  messages (removeMessage "c" (addMessage fst ("c", "new") stocked))
  = messages stocked.
Proof.
  destruct (add_get_remove Note fst ("c", "new") stocked) as (H1 & _ & H3).
  split; [exact H1 | apply H3; reflexivity].
Defined.

Lemma listener_lifecycle_witness :
  heard 1%nat (addMessage fst ("c", "new")
                 (subscribe 1%nat (subscribe 1%nat stocked)))
  = heard 1%nat stocked
    ++ [[("a", "second"); ("b", "two"); ("c", "new")]] /\
  heard 1%nat (run fst note_spread [Add ("c", "new"); Clear]
                 (unsubscribe 1%nat stocked))
  = heard 1%nat stocked.
Proof.
  assert (Hnd : NoDup (listeners stocked)).
  { cbn. repeat constructor; cbn; intuition discriminate. }
  destruct (listener_lifecycle Note (option string) fst note_spread 1%nat
              (Add ("c", "new")) [Add ("c", "new"); Clear] stocked Hnd)
    as [[E|E] H2].
  - discriminate E.
  - split; [exact E | exact H2].
Defined.

End StoreLaws.

(* ================================================================== *)
(** * Further laws of the streaming state machine                      *)
(* ================================================================== *)

Module StreamingLaws.
Import Js StreamingState.

Lemma blocks_equal_iff (a b : list ContentBlock) :
  List.length a = List.length b ->
  blocks_equal a b = true <-> Forall2 same_type_and_content a b.
Proof.
  revert b. induction a as [|x a IH]; intros [|y b] Hlen;
    try discriminate; cbn.
  - split; auto.
  - injection Hlen as Hlen. specialize (IH b Hlen).
    destruct (String.eqb_spec (type x) (type y)) as [Ht|Ht]; cbn.
    + destruct (option_string_eqb (content x) (content y)) eqn:Ec; cbn.
      * apply StreamingFacts.option_string_eqb_eq in Ec. rewrite IH.
        split; [intros H; constructor; [split|]; auto|].
        intros H. now inversion H.
      * split; [discriminate|]. intros H. inversion H as [|? ? ? ? [_ Hc]].
        apply StreamingFacts.option_string_eqb_eq in Hc. congruence.
    + split; [discriminate|]. intros H. inversion H as [|? ? ? ? [Hc _]].
      contradiction.
Qed.

Lemma same_type_and_content_refl (a : list ContentBlock) :
  Forall2 same_type_and_content a a.
Proof. induction a; constructor; auto. split; reflexivity. Qed.

Lemma same_reference_refl pc : same_reference pc pc = true.
Proof. destruct pc; simpl; [apply Nat.eqb_refl | reflexivity]. Qed.

Lemma contentBlocksEqual_iff (h : Heap) (a b : Ref) :
  contentBlocksEqual h (Some a) (Some b) = true
  <-> Forall2 same_type_and_content (h a) (h b).
Proof.
  unfold contentBlocksEqual. cbn [same_reference].
  destruct (Nat.eqb_spec a b) as [->|N].
  - split; auto. intros _. apply same_type_and_content_refl.
  - destruct (Nat.eqb_spec (List.length (h a)) (List.length (h b)))
      as [E|E]; cbn.
    + now apply blocks_equal_iff.
    + split; [discriminate|]. intros H. exfalso. apply E.
      clear E. induction H; cbn; congruence.
Qed.

Lemma contentBlocksEqual_refl h pc : contentBlocksEqual h pc pc = true.
Proof. unfold contentBlocksEqual. now rewrite same_reference_refl. Qed.

Lemma option_string_eqb_refl a : option_string_eqb a a = true.
Proof. now apply StreamingFacts.option_string_eqb_eq. Qed.

(** What [setState] does: nothing, or install and notify. *)
Lemma setState_outcome h newState m :
  let unchanged :=
    Bool.eqb (isStreaming (state m)) (isStreaming newState)
    && option_string_eqb (sessionId (state m)) (sessionId newState)
    && contentBlocksEqual h (partialContent (state m))
                            (partialContent newState) in
  setState h newState m
  = if unchanged then m
    else {| state := newState; listeners := listeners m;
            notified := notified m
                        ++ map (fun l => (l, newState)) (listeners m) |}.
Proof.
  cbv zeta. unfold setState, notifyListeners, getState.
  destruct (Bool.eqb _ _), (option_string_eqb _ _),
           (contentBlocksEqual _ _ _); reflexivity.
Qed.

(** X18: an update that changes nothing [contentBlocksEqual] looks at is
    dropped.  Two block arrays count as equal exactly when they have the
    same length and agree block by block on [type] and [content]; so
    while a session is streaming, partial content for the same session
    that differs only in [language], [url], [alt] or [metadata] leaves
    the stored blocks as they were and notifies no listener. *)
Theorem unseen_changes_dropped
  (h : Heap) (m : DefaultStreamingStateMachine) (session : string)
  (current incoming : Ref) :
  (contentBlocksEqual h (Some current) (Some incoming) = true
   <-> Forall2 same_type_and_content (h current) (h incoming)) /\
  (state m = {| isStreaming := true; partialContent := Some current;
                sessionId := Some session |} ->
   Forall2 same_type_and_content (h current) (h incoming) ->
   onPartialContent h session incoming m = m) /\
  (state m = {| isStreaming := true; partialContent := Some current;
                sessionId := Some session |} ->
   ~ Forall2 same_type_and_content (h current) (h incoming) ->
   partialContent (state (onPartialContent h session incoming m))
   = Some incoming /\
   notified (onPartialContent h session incoming m)
   = notified m
     ++ map (fun l => (l, {| isStreaming := true;
                             partialContent := Some incoming;
                             sessionId := Some session |}))
            (listeners m)).
Proof.
  split; [apply contentBlocksEqual_iff|]. split.
  - intros Hs Hsame. unfold onPartialContent. rewrite setState_outcome.
    rewrite Hs. cbn [isStreaming sessionId partialContent].
    rewrite (proj2 (contentBlocksEqual_iff h current incoming) Hsame).
    now rewrite option_string_eqb_refl.
  - intros Hs Hdiff. unfold onPartialContent. rewrite setState_outcome.
    rewrite Hs. cbn [isStreaming sessionId partialContent].
    destruct (contentBlocksEqual h (Some current) (Some incoming)) eqn:E.
    + apply contentBlocksEqual_iff in E. contradiction.
    + rewrite option_string_eqb_refl. cbn. auto.
Qed.

Lemma unseen_changes_dropped_witness :
  onPartialContent arrays "s1" 3%nat showing = showing /\
  partialContent (state showing) = Some 2%nat /\
  arrays 2%nat <> arrays 3%nat.
Proof.
  split; [|split; [reflexivity|discriminate]].
  apply (unseen_changes_dropped arrays showing "s1" 2%nat 3%nat).
  - reflexivity.
  - constructor; [split; reflexivity | constructor].
Defined.

(** Every input leaves the machine as it was or installs a state and
    notifies each listener once with it. *)
Lemma feed_outcome h i m :
  listeners (feed h m i) = listeners m /\
  (feed h m i = m \/
   notified (feed h m i)
   = notified m ++ map (fun l => (l, state (feed h m i))) (listeners m)).
Proof.
  assert (G : forall newState,
             listeners (setState h newState m) = listeners m /\
             (setState h newState m = m \/
              notified (setState h newState m)
              = notified m
                ++ map (fun l => (l, state (setState h newState m)))
                       (listeners m))).
  { intros newState. rewrite setState_outcome.
    destruct (_ && _); cbn; auto. }
  destruct i; cbn [feed]; try apply G.
  unfold onComplete. destruct (_ || _); [apply G | auto].
Qed.

(** X19: the state is replaced and the listeners are told in one step,
    so after any sequence of calls, whatever the caller did to its
    arrays in between, either nothing happened (same machine, no call
    made) or the last call made to every listener carried the state the
    machine now has, the array in it being the very array the machine
    holds.  What that array contains is another matter: when the caller
    changes the stored array in place and hands it over again, the
    identity test finds nothing changed, the machine stays as it is and
    no listener is told of the new contents. *)
Theorem listeners_hold_current_state
  (inputs : list (Heap * Input)) (m : DefaultStreamingStateMachine) :
  let m' := feed_all inputs m in
  listeners m' = listeners m /\
  (m' = m \/
   exists earlier,
     notified m' = earlier ++ map (fun l => (l, getState m')) (listeners m))
  /\
  (forall (h : Heap) (session : string) (content : Ref)
          (blocks : list ContentBlock),
      state m' = {| isStreaming := true; partialContent := Some content;
                    sessionId := Some session |} ->
      onPartialContent (write content blocks h) session content m' = m').
Proof.
  cbv zeta. split; [|split].
  - revert m. induction inputs as [|[h i] inputs IH]; intros m; cbn; auto.
    fold (feed_all inputs (feed h m i)). rewrite IH.
    apply feed_outcome.
  - revert m. induction inputs as [|[h i] inputs IH]; intros m; cbn; auto.
    fold (feed_all inputs (feed h m i)).
    assert (Hl' : listeners (feed_all inputs (feed h m i))
                  = listeners (feed h m i)).
    { clear IH. generalize (feed h m i). clear m.
      induction inputs as [|[h' i'] inputs IH]; intros m; cbn; auto.
      fold (feed_all inputs (feed h' m i')). rewrite IH.
      apply feed_outcome. }
    destruct (feed_outcome h i m) as [Hl Hn].
    destruct (IH (feed h m i)) as [E|(earlier & E)].
    + rewrite E. destruct Hn as [E'|E']; [left; exact E'|].
      right. eexists. exact E'.
    + right. exists earlier. now rewrite E, Hl.
  - intros h session content blocks Hs.
    unfold onPartialContent. rewrite setState_outcome, Hs.
    cbn [isStreaming sessionId partialContent].
    now rewrite option_string_eqb_refl, contentBlocksEqual_refl.
Qed.

Lemma listeners_hold_current_state_witness :
  let m1 := feed_all [(arrays, PartialContent "s1" 1%nat)] observed in
  let m2 := feed_all [(arrays, PartialContent "s1" 1%nat);
                      (grown, PartialContent "s1" 1%nat)] observed in
  arrays 1%nat = [text_block "Hel"] /\
  grown 1%nat = [text_block "Hello"; text_block "!"] /\
  onPartialContent grown "s1" 1%nat m1 = m1 /\
  m2 = m1 /\
  notified m2 = [(7%nat, {| isStreaming := true;
                            partialContent := Some 1%nat;
                            sessionId := Some "s1" |})].
Proof.
  cbv zeta. split; [reflexivity|]. split; [reflexivity|].
  split; [|split; reflexivity].
  destruct (listeners_hold_current_state
              [(arrays, PartialContent "s1" 1%nat)] observed)
    as (_ & _ & H).
  apply (H arrays "s1" 1%nat [text_block "Hello"; text_block "!"]).
  reflexivity.
Defined.

Lemma setState_twice h newState m :
  setState h newState (setState h newState m) = setState h newState m.
Proof.
  rewrite (setState_outcome h newState m).
  destruct (_ && _) eqn:E.
  - rewrite setState_outcome. now rewrite E.
  - rewrite setState_outcome. cbn [state].
    now rewrite Bool.eqb_reflx, option_string_eqb_refl,
      contentBlocksEqual_refl.
Qed.

(** X20: every input is idempotent: feeding the same partial content,
    the same completion or a reset a second time changes neither the
    state nor the calls made to listeners. *)
Theorem inputs_idempotent
  (h : Heap) (i : Input) (m : DefaultStreamingStateMachine) :
  feed h (feed h m i) i = feed h m i.
Proof.
  destruct i as [session blocks|session|]; cbn [feed].
  - apply setState_twice.
  - destruct m as [[st pc sid] ls ns].
    unfold onComplete, setState, notifyListeners, getState. cbn.
    destruct sid as [s|]; cbn.
    + destruct (String.eqb_spec s session) as [->|Hne]; cbn.
      * destruct st, pc; cbn; reflexivity.
      * destruct (String.eqb_spec s session); [contradiction|]. reflexivity.
    + destruct st, pc; cbn; reflexivity.
  - apply setState_twice.
Qed.

(** X21: [reset] always ends in the initial state; on a machine already
    in the initial state it does nothing, otherwise it tells every
    listener once.  The same holds for [onComplete] with the tracked
    session's id. *)
Theorem reset_restores_initial
  (h : Heap) (m : DefaultStreamingStateMachine) (session : string) :
  getState (reset h m) = INITIAL_STATE /\
  (getState m = INITIAL_STATE -> reset h m = m) /\
  (getState m <> INITIAL_STATE ->
   notified (reset h m)
   = notified m ++ map (fun l => (l, INITIAL_STATE)) (listeners m)) /\
  (sessionId (getState m) = Some session ->
   onComplete h session m = reset h m).
Proof.
  unfold reset, getState, onComplete.
  rewrite !setState_outcome.
  cbn [isStreaming sessionId partialContent INITIAL_STATE].
  destruct m as [[st pc sid] ls ns]. cbn.
  split; [|split; [|split]].
  - destruct st, sid, pc; reflexivity.
  - intros E. now injection E as -> -> ->.
  - intros E. destruct st, sid, pc; cbn; auto.
    exfalso. apply E. reflexivity.
  - intros ->. cbn. rewrite String.eqb_refl. cbn.
    unfold setState. cbn. reflexivity.
Qed.

Lemma reset_restores_initial_witness :
  getState (reset arrays showing) = INITIAL_STATE /\
  onComplete arrays "s1" showing = reset arrays showing /\
  reset arrays observed = observed.
Proof.
  destruct (reset_restores_initial arrays showing "s1") as (H1 & _ & _ & H4).
  destruct (reset_restores_initial arrays observed "s1") as (_ & H2 & _).
  split; [exact H1|]. split; [apply H4; reflexivity | apply H2; reflexivity].
Defined.

End StreamingLaws.

(* ================================================================== *)
(** * Laws of the timeline builder and the message utilities *)
(* ================================================================== *)

Module TimelineLaws.
Import Js Timeline JsFacts StoreFacts TimelineFacts.

(** ** Field paths *)

Lemma split_nonempty sep s : split sep s <> [].
Proof.
  induction s as [|c s IH]; simpl; [discriminate|].
  destruct (Ascii.eqb c sep); [discriminate|].
  destruct (split sep s); discriminate.
Qed.

Lemma split_app sep a b :
  split sep (a ++ String sep b)%string = split sep a ++ split sep b.
Proof.
  induction a as [|c a IH]; simpl.
  - now rewrite Ascii.eqb_refl.
  - destruct (Ascii.eqb c sep); [now rewrite IH|].
    rewrite IH. destruct (split sep a) as [|p ps] eqn:E; [|reflexivity].
    now apply split_nonempty in E.
Qed.

Lemma walk_app p q v : walk (p ++ q) v = walk q (walk p v).
Proof.
  revert v. induction p as [|part p IH]; simpl; intros v; [reflexivity|].
  destruct (nullish v || negb (is_object_tag (typeof v))); [|apply IH].
  now destruct q.
Qed.

(** X22: a dotted path is followed one segment at a time: looking up
    [a.b] is looking up [b] in what [a] resolves to, so a path through a
    missing, [null] or primitive value resolves to [undefined]. *)
Theorem getFieldValue_path (obj : value) (a b : string) :
  getFieldValue obj (a ++ "." ++ b)%string
  = getFieldValue (getFieldValue obj a) b /\
  (nullish (getFieldValue obj a)
   || negb (is_object_tag (typeof (getFieldValue obj a))) = true ->
   getFieldValue obj (a ++ "." ++ b)%string = VUndefined).
Proof.
  assert (E : getFieldValue obj (a ++ "." ++ b)%string
              = getFieldValue (getFieldValue obj a) b).
  { unfold getFieldValue. simpl. rewrite split_app. apply walk_app. }
  split; [exact E|].
  intros H. rewrite E. unfold getFieldValue at 1.
  destruct (split "." b) as [|part rest] eqn:Eb.
  - now apply split_nonempty in Eb.
  - simpl. now rewrite H.
Qed.

Lemma getFieldValue_path_witness :
  getFieldValue nested "metadata.thread.id" = VStr "t1" /\
  getFieldValue nested "metadata.id.thread" = VUndefined.
Proof.
  split.
  - destruct (getFieldValue_path nested "metadata" "thread.id") as [E _].
    exact E.
  - destruct (getFieldValue_path nested "metadata.id" "thread") as [_ H].
    apply H. reflexivity.
Defined.

(** ** Deduplication under one rule *)

Lemma map_get_app {V : Type} k (l1 l2 : list (string * V)) :
  map_get k (l1 ++ l2)
  = match map_get k l1 with Some x => Some x | None => map_get k l2 end.
Proof.
  induction l1 as [|[k' x] l1 IH]; simpl; [reflexivity|].
  now destruct (k' =? k)%string.
Qed.

Lemma dedup_item_single item rule seen k :
  dedup_key rule item = Ok k ->
  dedup_item item [rule] seen
  = Ok (match strategy rule with
        | first => if map_has k seen then seen else map_set k item seen
        | last => map_set k item seen
        end).
Proof.
  unfold dedup_key. intros E. simpl. rewrite E. simpl.
  destruct (strategy rule); [|reflexivity].
  now destruct (map_has k seen).
Qed.

Lemma dedup_step_keys (s : Strategy) k item (seen : list (string * value)) h :
  map_keys seen = MessageStore.first_seen h ->
  map_keys (match s with
            | first => if map_has k seen then seen else map_set k item seen
            | last => map_set k item seen
            end)
  = MessageStore.first_seen (h ++ [k]).
Proof.
  intros Hk. rewrite first_seen_snoc.
  assert (Hhas : map_has k seen = existsb (String.eqb k) h).
  { now rewrite map_has_existsb, Hk, existsb_first_seen. }
  assert (Hset : map_keys (map_set k item seen)
                 = MessageStore.first_seen h
                   ++ (if existsb (String.eqb k) h then [] else [k])).
  { now rewrite map_keys_set, Hk, Hhas. }
  destruct s; [|exact Hset].
  destruct (map_has k seen) eqn:E; [|exact Hset].
  rewrite <- Hhas. now rewrite app_nil_r.
Qed.

Lemma dedup_loop_single rule items ks :
  Forall2 (fun item k => dedup_key rule item = Ok k) items ks ->
  forall seen h,
    map_keys seen = MessageStore.first_seen h ->
    exists seen',
      dedup_loop items [rule] seen = Ok seen' /\
      map_keys seen' = MessageStore.first_seen (h ++ ks) /\
      forall k,
        map_get k seen'
        = match strategy rule with
          | first => match map_get k seen with
                     | Some x => Some x
                     | None => map_get k (combine ks items)
                     end
          | last => match map_get k (rev (combine ks items)) with
                    | Some x => Some x
                    | None => map_get k seen
                    end
          end.
Proof.
  induction 1 as [|item k0 items ks Hkey _ IH]; intros seen h Hk.
  - exists seen. rewrite app_nil_r. repeat split; auto.
    intros k. simpl. destruct (strategy rule); [|reflexivity].
    now destruct (map_get k seen).
  - cbn [dedup_loop]. rewrite (dedup_item_single _ _ _ _ Hkey). cbn [bind].
    destruct (IH _ (h ++ [k0]) (dedup_step_keys (strategy rule) k0 item seen h Hk))
      as (seen' & Hrun & Hkeys & Hget).
    exists seen'. split; [exact Hrun|]. split.
    { rewrite Hkeys, <- app_assoc. reflexivity. }
    intros k. rewrite Hget. cbn [combine rev map_get].
    destruct (strategy rule).
    + unfold map_has.
      destruct (map_get k0 seen) as [x0|] eqn:E0.
      * destruct (String.eqb_spec k0 k) as [->|]; [now rewrite E0|reflexivity].
      * rewrite map_get_set.
        destruct (String.eqb_spec k0 k) as [->|]; [now rewrite E0|reflexivity].
    + rewrite map_get_app, map_get_set. cbn [map_get].
      destruct (map_get k (rev (combine ks items))); [reflexivity|].
      now destruct (k0 =? k)%string.
Qed.

(** X23: under a single rule [deduplicateItems] returns exactly one item
    for each distinct key, in the order in which the keys first occur,
    and that item is the first one carrying the key under [first] and
    the last one under [last]. *)
Theorem single_rule_dedup
  (rule : DeduplicationRule) (items : list value) (ks : list string) :
  Forall2 (fun item k => dedup_key rule item = Ok k) items ks ->
  exists out,
    deduplicateItems items [rule] = Ok out /\
    Forall2 (fun k x => kept (strategy rule) (combine ks items) k = Some x)
            (MessageStore.first_seen ks) out.
Proof.
  intros H.
  destruct (dedup_loop_single rule items ks H [] [] eq_refl)
    as (seen & Hrun & Hkeys & Hget).
  exists (map_values seen). unfold deduplicateItems. rewrite Hrun.
  split; [reflexivity|].
  simpl in Hkeys. rewrite <- Hkeys.
  assert (Hnd : NoDup (map_keys seen)).
  { rewrite Hkeys. apply first_seen_NoDup. }
  pose proof (map_values_by_key seen Hnd) as F.
  eapply Forall2_impl; [|exact F].
  intros k x Hx. cbv beta in Hx. rewrite Hget in Hx. unfold kept.
  destruct (strategy rule); simpl in Hx; [exact Hx|].
  destruct (map_get k (rev (combine ks items))); [exact Hx|discriminate].
Qed.

Lemma single_rule_dedup_witness :
  deduplicateItems revisions DEFAULT_DEDUP_RULES
  = Ok [ VObj [("id", VStr "a"); ("rev", VNum 2)];
         VObj [("id", VStr "b"); ("rev", VNum 1)] ].
Proof.
  destruct (single_rule_dedup {| dedup_field := "id"; strategy := last |}
              revisions ["a"; "b"; "a"])
    as (out & E & F).
  { repeat constructor. }
  fold DEFAULT_DEDUP_RULES in E. rewrite E. f_equal.
  inversion F as [|k1 x1 l1 o1 H1 F1]; subst.
  inversion F1 as [|k2 x2 l2 o2 H2 F2]; subst.
  inversion F2; subst.
  vm_compute in H1, H2. congruence.
Defined.

(** X24: with several rules the keys of all rules share one table, so an
    item is stored once for every distinct key the rules give it: a
    single item whose two rules yield different keys comes out twice. *)
Theorem two_rules_duplicate
  (item : value) (r1 r2 : DeduplicationRule) (k1 k2 : string) :
  dedup_key r1 item = Ok k1 ->
  dedup_key r2 item = Ok k2 ->
  deduplicateItems [item] [r1; r2]
  = Ok (if (k1 =? k2)%string then [item] else [item; item]).
Proof.
  unfold dedup_key, deduplicateItems. intros E1 E2.
  cbn [dedup_loop dedup_item]. rewrite E1. cbn [bind]. rewrite E2.
  cbn [bind].
  destruct (String.eqb_spec k1 k2) as [->|N].
  - destruct (strategy r1), (strategy r2); unfold map_has; cbn;
      rewrite ?String.eqb_refl; cbn; rewrite ?String.eqb_refl; reflexivity.
  - apply String.eqb_neq in N.
    destruct (strategy r1), (strategy r2); unfold map_has; cbn;
      rewrite ?N; cbn; rewrite ?N; reflexivity.
Qed.

Lemma two_rules_duplicate_witness :
  deduplicateItems [threaded] by_id_and_thread = Ok [threaded; threaded].
Proof.
  apply (two_rules_duplicate threaded
           {| dedup_field := "id"; strategy := last |}
           {| dedup_field := "threadId"; strategy := last |} "m1" "t1");
    reflexivity.
Defined.

(** ** [build] *)

Lemma lookup_map_get k (props : list (string * value)) :
  lookup k props = map_get k props.
Proof. induction props as [|[k' x] props IH]; simpl; now rewrite ?IH. Qed.

Lemma tag_itemType ty obj : get_prop (tag ty obj) "itemType" = VStr ty.
Proof.
  unfold tag, get_prop. rewrite lookup_map_get, map_get_set.
  now rewrite String.eqb_refl.
Qed.

Lemma tag_other ty obj k :
  k <> "itemType" -> get_prop (tag ty obj) k = get_prop (VObj obj) k.
Proof.
  intros N. unfold tag, get_prop. rewrite !lookup_map_get, map_get_set.
  destruct (String.eqb_spec "itemType" k); [congruence|reflexivity].
Qed.


Section Builder.
Variable localeCompare : string -> string -> Z.

(** X25: every item [build] returns is one of the given messages
    carrying [itemType: 'message'] or one of the given events carrying
    [itemType: 'event']; the type guards tell the two apart, and every
    other property of the source is kept. *)
Theorem build_items_tagged (params : TimelineBuildParams) (out : list value) :
  build localeCompare params = Ok out ->
  Forall (fun item =>
            (exists m, In m (messages params) /\
                       item = tag "message" m /\
                       isTimelineMessage item = true /\
                       isTimelineEvent item = false /\
                       forall k, k <> "itemType" ->
                                 get_prop item k = get_prop (VObj m) k)
            \/
            (exists e, In e (events_of params) /\
                       item = tag "event" e /\
                       isTimelineEvent item = true /\
                       isTimelineMessage item = false /\
                       forall k, k <> "itemType" ->
                                 get_prop item k = get_prop (VObj e) k))
         out.
Proof.
  intros H. rewrite build_unfold in H.
  apply bind_ok in H. destruct H as (d & Hd & Hs).
  apply deduplicateItems_incl in Hd. apply sort_perm in Hs.
  apply Forall_forall. intros item Hin.
  apply (Permutation_in _ (Permutation_sym Hs)) in Hin. apply Hd in Hin.
  unfold allItems in Hin. fold (events_of params) in Hin.
  apply in_app_or in Hin. destruct Hin as [Hin|Hin];
    apply in_map_iff in Hin; destruct Hin as (src & <- & Hsrc);
    [left|right]; exists src;
    unfold isTimelineMessage, isTimelineEvent; rewrite tag_itemType;
    repeat split; auto; intros k N; now apply tag_other.
Qed.

End Builder.

Lemma build_items_tagged_witness :
  Forall (fun item => isTimelineMessage item = true
                      \/ isTimelineEvent item = true)
         [ tag "message" (numbered "m3" (VNum 3));
           tag "message" (numbered "m2" (VNum 2));
           tag "message" (numbered "m1" (VNum 1));
           tag "message" (numbered "m0" VNull);
           tag "event" [("id", VStr "e1"); ("type", VStr "joined")] ].
Proof.
  eapply Forall_impl;
    [|apply (build_items_tagged ordinalCompare (with_unnumbered desc));
      reflexivity].
  intros item [(m & _ & _ & H & _)|(e & _ & _ & H & _)]; auto.
Defined.


(** ** [deduplicateMessages] *)

Section Messages.
Variable T : Type.
Variable id : T -> string.

Lemma set_all_distinct (l : list T) (M : list (string * T)) :
  NoDup (map_keys M ++ map id l) ->
  MessageStore.set_all id l M = M ++ map (fun m => (id m, m)) l.
Proof.
  revert M. induction l as [|a l IH]; intros M H; simpl.
  - now rewrite app_nil_r.
  - fold (MessageStore.set_all id l (map_set (id a) a M)).
    assert (Ha : ~ In (id a) (map_keys M)).
    { intros Hin. apply NoDup_remove_2 in H. apply H.
      apply in_or_app. now left. }
    rewrite (map_set_absent _ _ _ Ha). rewrite IH.
    + now rewrite <- app_assoc.
    + unfold map_keys in *. rewrite map_app. simpl.
      rewrite <- app_assoc. exact H.
Qed.

(** X27: [deduplicateMessages] keeps one message per id, the last one
    supplied with it, in the order in which the ids first occur; it
    returns what a fresh store holds after [addMessages] of the same
    list, and applying it twice changes nothing more. *)
Theorem deduplicateMessages_spec (messages : list T) :
  let out := deduplicateMessages id messages in
  map id out = MessageStore.first_seen (map id messages) /\
  NoDup (map id out) /\
  Forall2 (fun k x => MessageStore.last_with id k messages = Some x)
          (MessageStore.first_seen (map id messages)) out /\
  out = MessageStore.getMessages
          (MessageStore.addMessages id messages MessageStore.empty) /\
  deduplicateMessages id out = out.
Proof.
  cbv zeta.
  change (deduplicateMessages id messages)
    with (map_values (MessageStore.set_all id messages [])).
  set (M := MessageStore.set_all id messages []).
  assert (Hkeys : map_keys M = MessageStore.first_seen (map id messages)).
  { apply (set_all_keys _ id messages [] []). reflexivity. }
  assert (Hids : map id (map_values M) = map_keys M).
  { apply keyed_ids. apply set_all_keyed. intros k m []. }
  assert (Hnd : NoDup (map_keys M)).
  { rewrite Hkeys. apply first_seen_NoDup. }
  split; [now rewrite Hids|]. split; [now rewrite Hids|]. split.
  { rewrite <- Hkeys. eapply Forall2_impl; [|apply map_values_by_key, Hnd].
    intros k x Hx. cbv beta in Hx. unfold M in Hx.
    rewrite set_all_get in Hx.
    now destruct (MessageStore.last_with id k messages). }
  split; [reflexivity|].
  change (deduplicateMessages id (map_values M))
    with (map_values (MessageStore.set_all id (map_values M) [])).
  rewrite set_all_distinct.
  - simpl. unfold map_values. rewrite map_map. simpl. apply map_id.
  - simpl. now rewrite Hids.
Qed.

(** ** [sortMessages] *)

Variable sequence : T -> option Z.
Variable createdAt : T -> string.
Variable getTime : string -> option Z.

Local Abbreviation cmp := (compare_messages sequence createdAt getTime).

Lemma insert_total_throwing (c : T -> T -> Z) x l :
  insert (fun a b => Ok (c a b)) x l = Ok (insert_total c x l).
Proof.
  induction l as [|y l IH]; simpl; [reflexivity|].
  destruct (c x y <=? 0); [reflexivity|]. now rewrite IH.
Qed.

Lemma sort_total_throwing (c : T -> T -> Z) l :
  sort (fun a b => Ok (c a b)) l = Ok (sort_total c l).
Proof.
  induction l as [|x l IH]; simpl; [reflexivity|].
  rewrite IH. simpl. apply insert_total_throwing.
Qed.

Lemma compare_messages_antisym a b : 0 < cmp a b -> cmp b a <= 0.
Proof.
  unfold compare_messages.
  destruct (sequence a), (sequence b); try lia.
  destruct (getTime (createdAt a)), (getTime (createdAt b)); lia.
Qed.

Lemma sortMessages_adjacent l :
  Sorted (fun a b => cmp a b <= 0) (sortMessages sequence createdAt getTime l).
Proof.
  assert (S : Sorted (in_order (fun a b => Ok (cmp a b)))
                     (sortMessages sequence createdAt getTime l)).
  { apply (sort_sorted (fun a b => Ok (cmp a b))) with (l := l).
    - intros x y c E Hc. injection E as <-.
      exists (cmp y x). split; [reflexivity|].
      now apply compare_messages_antisym.
    - apply sort_total_throwing. }
  induction S as [|x r _ IH Hhd]; constructor; auto.
  destruct Hhd as [|y r (c & E & Hc)]; constructor.
  injection E as <-. exact Hc.
Qed.

Local Abbreviation dated :=
  (fun m => sequence m = None -> getTime (createdAt m) <> None).

Lemma sorted_split l :
  Forall dated l ->
  Sorted (fun a b => cmp a b <= 0) l ->
  exists l1 l2,
    l = l1 ++ l2 /\
    Forall (fun m => sequenced sequence m = true) l1 /\
    Forall (fun m => sequenced sequence m = false) l2 /\
    StronglySorted (sequence_le sequence) l1 /\
    StronglySorted (time_le createdAt getTime) l2.
Proof.
  intros Hd Hs. induction Hs as [|a l Hs IH Hhd].
  - exists [], []. repeat split; constructor.
  - inversion Hd as [|? ? Ha Hd']; subst.
    destruct (IH Hd') as (l1 & l2 & -> & H1 & H2 & S1 & S2).
    destruct (sequence a) as [x|] eqn:Ea.
    + exists (a :: l1), l2. split; [reflexivity|].
      split; [constructor; auto; unfold sequenced; now rewrite Ea|].
      split; [exact H2|]. split; [|exact S2].
      constructor; [exact S1|].
      destruct l1 as [|b l1]; [constructor|].
      inversion Hhd as [|? ? Hab]; subst.
      inversion H1 as [|? ? Hb _]; subst.
      inversion S1 as [|? ? _ Hbl]; subst.
      unfold sequenced in Hb. unfold compare_messages in Hab.
      rewrite Ea in Hab. destruct (sequence b) as [y|] eqn:Eb;
        [|discriminate].
      constructor.
      * intros x' y' Hx Hy. rewrite Ea in Hx. rewrite Eb in Hy.
        injection Hx as <-. injection Hy as <-. lia.
      * eapply Forall_impl; [|exact Hbl]. intros c Hbc x' z Hx Hz.
        rewrite Ea in Hx. injection Hx as <-.
        specialize (Hbc y z Eb Hz). lia.
    + destruct l1 as [|b l1].
      * exists [], (a :: l2). split; [reflexivity|].
        split; [constructor|].
        split; [constructor; auto; unfold sequenced; now rewrite Ea|].
        split; [constructor|]. constructor; [exact S2|].
        destruct l2 as [|b l2]; [constructor|].
        inversion Hhd as [|? ? Hab]; subst.
        inversion H2 as [|? ? Hb _]; subst.
        inversion S2 as [|? ? _ Hbl]; subst.
        inversion Hd' as [|? ? Hdb _]; subst.
        unfold sequenced in Hb. unfold compare_messages in Hab.
        rewrite Ea in Hab. destruct (sequence b) as [y|] eqn:Eb;
          [discriminate|].
        specialize (Ha eq_refl). specialize (Hdb eq_refl).
        destruct (getTime (createdAt a)) as [ta|] eqn:Eta; [|congruence].
        destruct (getTime (createdAt b)) as [tb|] eqn:Etb; [|congruence].
        constructor.
        -- intros x' y' Hx Hy. rewrite Eta in Hx. rewrite Etb in Hy.
           injection Hx as <-. injection Hy as <-. lia.
        -- eapply Forall_impl; [|exact Hbl]. intros c Hbc x' z Hx Hz.
           rewrite Eta in Hx. injection Hx as <-.
           specialize (Hbc tb z Etb Hz). lia.
      * exfalso. inversion Hhd as [|? ? Hab]; subst.
        inversion H1 as [|? ? Hb _]; subst.
        unfold sequenced in Hb. unfold compare_messages in Hab.
        rewrite Ea in Hab. destruct (sequence b); [lia|discriminate].
Qed.

(** X28: [sortMessages] returns a rearrangement of its input in which
    the messages with a sequence number come first, in ascending
    sequence order, and those without one follow, in ascending order of
    creation time, provided the creation time of every message without
    a sequence number parses to a date. *)
Theorem sortMessages_spec (messages : list T) :
  (forall m, In m messages ->
             sequence m = None -> getTime (createdAt m) <> None) ->
  let out := sortMessages sequence createdAt getTime messages in
  Permutation messages out /\
  exists l1 l2,
    out = l1 ++ l2 /\
    Forall (fun m => sequenced sequence m = true) l1 /\
    Forall (fun m => sequenced sequence m = false) l2 /\
    StronglySorted (sequence_le sequence) l1 /\
    StronglySorted (time_le createdAt getTime) l2.
Proof.
  intros Hd. cbv zeta.
  assert (P : Permutation messages
                (sortMessages sequence createdAt getTime messages)).
  { apply (sort_perm (fun a b => Ok (cmp a b))). apply sort_total_throwing. }
  split; [exact P|].
  apply sorted_split; [|apply sortMessages_adjacent].
  apply Forall_forall. intros m Hm. apply Hd.
  apply (Permutation_in _ (Permutation_sym P)). exact Hm.
Qed.
End Messages.

Lemma sortMessages_spec_witness :
  let out := [ ("s3", Some 3, "1970-01-01T00:02:00.000Z");
               ("s7", Some 7, "1970-01-01T00:01:00.000Z");
               ("u1", None, "1970-01-01T00:01:00.000Z");
               ("u2", None, "1970-01-01T00:02:00.000Z") ] in
  sortMessages stamped_sequence stamped_createdAt scenario_clock unsorted
  = out /\
  Permutation unsorted out /\
  exists l1 l2,
    out = l1 ++ l2 /\
    Forall (fun m => sequenced stamped_sequence m = true) l1 /\
    Forall (fun m => sequenced stamped_sequence m = false) l2 /\
    StronglySorted (sequence_le stamped_sequence) l1 /\
    StronglySorted (time_le stamped_createdAt scenario_clock) l2.
Proof.
  cbv zeta. split; [reflexivity|].
  apply (sortMessages_spec Stamped stamped_sequence stamped_createdAt
           scenario_clock unsorted).
  intros m [<-|[<-|[<-|[<-|[]]]]] _; vm_compute; discriminate.
Defined.

End TimelineLaws.

(* ================================================================== *)
(** * Laws of the default normalizer *)
(* ================================================================== *)

Module NormalizerLaws.
Import Js Normalizer JsFacts NormalizerFacts.

Lemma ToString_array x rest :
  ToString (VArr (x :: rest))
  = (s <- (if nullish x then Ok "" else ToString x) ;;
     match rest with
     | [] => Ok s
     | _ :: _ => r <- ToString (VArr rest) ;; Ok (s ++ "," ++ r)%string
     end).
Proof. reflexivity. Qed.

(** [String()] raises nothing but a [TypeError]. *)
Lemma ToString_throws : forall v e, ToString v = Throw e -> e = TypeError.
Proof.
  fix IH 1. intros [| |b|n|s|elems|props] e.
  - discriminate.
  - discriminate.
  - destruct b; discriminate.
  - discriminate.
  - discriminate.
  - revert e. induction elems as [|x rest IHl]; intros e; [discriminate|].
    rewrite ToString_array.
    assert (Hx : forall e', (if nullish x then Ok ""%string else ToString x)
                            = Throw e' -> e' = TypeError).
    { intros e'. destruct (nullish x); [discriminate|apply IH]. }
    destruct (if nullish x then Ok ""%string else ToString x) as [sx|ex].
    + cbn [bind]. destruct rest as [|y rest']; [discriminate|].
      destruct (ToString (VArr (y :: rest'))) as [r|er].
      * discriminate.
      * cbn [bind]. intros H. injection H as <-. now apply IHl.
    + cbn [bind]. intros H. injection H as <-. now apply Hx.
  - simpl. destruct (has_own "toString" props); [|discriminate].
    intros H. now injection H as <-.
Qed.

Lemma guard_object raw :
  object_input raw = true ->
  negb (truthy raw) || negb (is_object_tag (typeof raw)) = false.
Proof.
  unfold object_input.
  destruct (truthy raw), (is_object_tag (typeof raw)); simpl; congruence.
Qed.

Lemma normalize_object now raw :
  object_input raw = true ->
  normalize now raw
  = (ty <- ToString (type_source raw) ;;
     sid <- ToString (sessionId_source raw) ;;
     ts <- ToString (timestamp_source now raw) ;;
     Ok (Some {|
       type := ty;
       sessionId := sid;
       payload := coalesce (coalesce (get_prop raw "payload")
                                     (get_prop raw "data")) raw;
       sequence := match get_prop raw "sequence" with
                   | VNum n => Some n
                   | _ => None
                   end;
       timestamp := ts;
       Normalizer.raw := raw
     |})).
Proof.
  intros H. unfold normalize. now rewrite (guard_object raw H).
Qed.

(** X29: a field that is present but falsy counts as absent for [type],
    [sessionId] and [timestamp] (an empty string, [0], [false] or [null]
    yields the fall-back), [sequence] is kept only when it is a number,
    and an event is produced only for an object. *)
Theorem normalize_falsy_fields
  (now : string) (raw : value) (ev : NormalizedEvent) :
  normalize now raw = Ok (Some ev) ->
  object_input raw = true /\
  (truthy (get_prop raw "type") = false -> type ev = "message") /\
  (truthy (get_prop raw "sessionId") = false ->
   truthy (get_prop raw "session_id") = false -> sessionId ev = "") /\
  (truthy (get_prop raw "timestamp") = false ->
   truthy (get_prop raw "createdAt") = false -> timestamp ev = now) /\
  sequence ev = match get_prop raw "sequence" with
                | VNum n => Some n
                | _ => None
                end.
Proof.
  intros H.
  destruct (object_input raw) eqn:Hobj.
  2:{ rewrite (normalize_non_object now raw Hobj) in H. discriminate. }
  split; [reflexivity|].
  rewrite (normalize_object now raw Hobj) in H.
  apply bind_ok in H. destruct H as (ty & Ety & H).
  apply bind_ok in H. destruct H as (sid & Esid & H).
  apply bind_ok in H. destruct H as (ts & Ets & H).
  injection H as <-. cbn [type sessionId timestamp sequence].
  unfold type_source, sessionId_source, timestamp_source, or_else in *.
  repeat split.
  - intros F. rewrite F in Ety. simpl in Ety. congruence.
  - intros F1 F2. rewrite F1, F2 in Esid. simpl in Esid. congruence.
  - intros F1 F2. rewrite F1, F2 in Ets. simpl in Ets. congruence.
Qed.

Lemma normalize_falsy_fields_witness :
  exists ev,
    normalize "2024-05-02T08:30:00Z" falsy_frame = Ok (Some ev) /\
    type ev = "message" /\ sessionId ev = "" /\
    timestamp ev = "2024-05-02T08:30:00Z" /\ sequence ev = None.
Proof.
  eexists. split; [reflexivity|].
  destruct (normalize_falsy_fields "2024-05-02T08:30:00Z" falsy_frame _
              eq_refl) as (_ & Hty & Hsid & Hts & Hseq).
  split; [apply Hty; reflexivity|].
  split; [apply Hsid; reflexivity|].
  split; [apply Hts; reflexivity|exact Hseq].
Defined.

(** X30: [normalize] returns [null] exactly when its input is not an
    object, and the only exception it raises is the [TypeError] of a
    failed [String()] conversion of the value chosen for [type],
    [sessionId] or [timestamp]. *)
Theorem normalize_outcome (now : string) (raw : value) :
  (normalize now raw = Ok None <-> object_input raw = false) /\
  (forall e,
      normalize now raw = Throw e ->
      e = TypeError /\
      object_input raw = true /\
      (is_ok (ToString (type_source raw)) = false \/
       is_ok (ToString (sessionId_source raw)) = false \/
       is_ok (ToString (timestamp_source now raw)) = false)).
Proof.
  destruct (object_input raw) eqn:Hobj.
  - rewrite (normalize_object now raw Hobj).
    destruct (ToString (type_source raw)) as [ty|e1] eqn:E1; cbn [bind];
      [destruct (ToString (sessionId_source raw)) as [sid|e2] eqn:E2;
       cbn [bind];
       [destruct (ToString (timestamp_source now raw)) as [ts|e3] eqn:E3;
        cbn [bind]|]|].
    + split; [split; discriminate|]. intros e H. discriminate.
    + split; [split; discriminate|]. intros e H. injection H as <-.
      split; [now apply (ToString_throws _ _ E3)|]. simpl. auto.
    + split; [split; discriminate|]. intros e H. injection H as <-.
      split; [now apply (ToString_throws _ _ E2)|]. simpl. auto.
    + split; [split; discriminate|]. intros e H. injection H as <-.
      split; [now apply (ToString_throws _ _ E1)|]. simpl. auto.
  - rewrite (normalize_non_object now raw Hobj).
    split; [split; reflexivity|]. intros e H. discriminate.
Qed.

End NormalizerLaws.
